(** * FSCO spreadsheet: the formula engine of [script.js]

    A shallow embedding of the spreadsheet script: the column-header
    generator, the cell-id parser, the expression evaluator with its
    range function [SUM], the cell table and the update of dependent
    cells.  The host language's primitives the script calls (string
    methods, the three regular expressions, number/string conversions)
    are written out as functions; the host's [eval] is a parameter of the
    engine. *)

From Stdlib Require Import List String Ascii ZArith NArith Bool Arith Lia.
From Stdlib Require Import Floats.SpecFloat DecimalString DecimalPos DecimalN.
From Equations Require Import Equations.
Import ListNotations.
Local Open Scope string_scope.

(** ** Strings of the host language

    A string is the sequence of its code units, each below U+0100 (a
    character of the model holds one code unit); the script's own text
    and the cell ids are ASCII.  The white-space functions below are the
    host's on such strings.  The case function is the host's on ASCII
    text only, and the statements on what an edit stores or recomputes
    assume that the typed text is ASCII ([ascii_text]). *)

Module JsString.

Definition code (c : ascii) : nat := nat_of_ascii c.

Definition is_upper (c : ascii) : bool := (65 <=? code c)%nat && (code c <=? 90)%nat.
Definition is_lower (c : ascii) : bool := (97 <=? code c)%nat && (code c <=? 122)%nat.
Definition is_digit (c : ascii) : bool := (48 <=? code c)%nat && (code c <=? 57)%nat.

(** The host's white space and line terminators among the code units a
    character of this model can hold (below U+0100): U+0009 to U+000D,
    U+0020 and U+00A0. *)
Definition is_space (c : ascii) : bool :=
  let n := code c in
  ((9 <=? n)%nat && (n <=? 13)%nat) || (n =? 32)%nat || (n =? 160)%nat.

Definition upper_char (c : ascii) : ascii :=
  if is_lower c then ascii_of_nat (code c - 32) else c.

(** [toUpperCase] as it acts on text of code units below U+0080, where
    only [a] to [z] change; the host also maps letters above that, some of
    them to text outside this model ([U+00FF] to [U+0178], [U+00DF] to
    [SS]), so the statements that put arbitrary text in upper case assume
    [ascii_text]. *)
Fixpoint toUpperCase (s : string) : string :=
  match s with
  | EmptyString => EmptyString
  | String c s' => String (upper_char c) (toUpperCase s')
  end.

Fixpoint trimStart (s : string) : string :=
  match s with
  | EmptyString => EmptyString
  | String c s' => if is_space c then trimStart s' else s
  end.

Fixpoint trimEnd (s : string) : string :=
  match s with
  | EmptyString => EmptyString
  | String c s' =>
      match trimEnd s' with
      | EmptyString => if is_space c then EmptyString else String c EmptyString
      | r => String c r
      end
  end.

Definition trim (s : string) : string := trimEnd (trimStart s).

Definition startsWith (s p : string) : bool := String.prefix p s.

Fixpoint drop (n : nat) (s : string) : string :=
  match n, s with
  | O, _ => s
  | S _, EmptyString => EmptyString
  | S k, String _ s' => drop k s'
  end.

(** [s.substring(n)] *)
Definition substring_from (n : nat) (s : string) : string := drop n s.

(** First occurrence of [pat] in [s]: the text before it and the text
    after it ([String.prototype.indexOf] cut in two). *)
Fixpoint find_first (pat s : string) : option (string * string) :=
  if String.prefix pat s then Some (EmptyString, drop (String.length pat) s)
  else match s with
       | EmptyString => None
       | String c s' =>
           match find_first pat s' with
           | Some (pre, post) => Some (String c pre, post)
           | None => None
           end
       end.

Definition includes (s pat : string) : bool :=
  match find_first pat s with Some _ => true | None => false end.

(** [GetSubstitution] for a string pattern (no captures): [$$], [$&],
    [$`] and [$'] are expanded, every other character is copied. *)
Fixpoint getSubstitution (matched preceding following template : string) : string :=
  match template with
  | EmptyString => EmptyString
  | String c t =>
      if Ascii.eqb c "$" then
        match t with
        | EmptyString => String c EmptyString
        | String d t' =>
            if Ascii.eqb d "$" then String "$" (getSubstitution matched preceding following t')
            else if Ascii.eqb d "&" then matched ++ getSubstitution matched preceding following t'
            else if Ascii.eqb d "`" then preceding ++ getSubstitution matched preceding following t'
            else if Ascii.eqb d "'" then following ++ getSubstitution matched preceding following t'
            else String c (getSubstitution matched preceding following t)
        end
      else String c (getSubstitution matched preceding following t)
  end.

(** [s.replace(pat, repl)] with a string pattern: the first occurrence only. *)
Definition replace (s pat repl : string) : string :=
  match find_first pat s with
  | None => s
  | Some (pre, post) => pre ++ getSubstitution pat pre post repl ++ post
  end.

(** Longest prefix whose characters satisfy [p], and the rest. *)
Fixpoint span (p : ascii -> bool) (s : string) : string * string :=
  match s with
  | EmptyString => (EmptyString, EmptyString)
  | String c s' =>
      if p c then let (a, b) := span p s' in (String c a, b)
      else (EmptyString, s)
  end.

Definition nonempty (s : string) : bool :=
  match s with EmptyString => false | _ => true end.

(** The first character of [s] exists and satisfies [p]. *)
Definition head_is (p : ascii -> bool) (s : string) : bool :=
  match s with String c _ => p c | EmptyString => false end.

(** Every character of [s] satisfies [p]. *)
Fixpoint every (p : ascii -> bool) (s : string) : bool :=
  match s with
  | EmptyString => true
  | String c s' => p c && every p s'
  end.

(** Leftmost position at which the anchored matcher [m] succeeds. *)
Fixpoint search {A : Type} (m : string -> option A) (s : string) : option A :=
  match m s with
  | Some r => Some r
  | None => match s with
            | EmptyString => None
            | String _ s' => search m s'
            end
  end.

(** [s.split(sep)] for a one-character separator. *)
Fixpoint split (sep : ascii) (s : string) : list string :=
  match s with
  | EmptyString => [EmptyString]
  | String c s' =>
      if Ascii.eqb c sep then EmptyString :: split sep s'
      else match split sep s' with
           | p :: ps => String c p :: ps
           | [] => [String c EmptyString]
           end
  end.

End JsString.

Import JsString.

(** ** The script's regular expressions

    Each class-plus of these patterns is followed by a character outside
    the class, so a greedy match takes the whole run and backtracking
    never finds another match: an anchored match is a sequence of [span]s. *)

Module Regex.

(** [/[A-Z]+/] anchored: the run of capitals at the head of [s]. *)
Definition letters_at (s : string) : option (string * string) :=
  let (l, r) := span is_upper s in
  if nonempty l then Some (l, r) else None.

(** [/\d+/] anchored. *)
Definition digits_at (s : string) : option (string * string) :=
  let (d, r) := span is_digit s in
  if nonempty d then Some (d, r) else None.

(** [/[A-Z]+\d+/] anchored: the matched text and what follows it. *)
Definition cellref_at (s : string) : option (string * string) :=
  match letters_at s with
  | Some (l, r) =>
      match digits_at r with
      | Some (d, r') => Some (l ++ d, r')
      | None => None
      end
  | None => None
  end.

Definition char_at (c : ascii) (s : string) : option string :=
  match s with
  | String c' r => if Ascii.eqb c' c then Some r else None
  | EmptyString => None
  end.

(** [/[A-Z]+\d+:[A-Z]+\d+/] anchored. *)
Definition range_at (s : string) : option (string * string) :=
  match cellref_at s with
  | Some (a, r) =>
      match char_at ":" r with
      | Some r1 =>
          match cellref_at r1 with
          | Some (b, r2) => Some (a ++ ":" ++ b, r2)
          | None => None
          end
      | None => None
      end
  | None => None
  end.

(** [/([A-Z]+)\([A-Z]+\d+:[A-Z]+\d+\)/] anchored. *)
Definition function_at (s : string) : option (string * string) :=
  match letters_at s with
  | Some (name, r) =>
      match char_at "(" r with
      | Some r1 =>
          match range_at r1 with
          | Some (rg, r2) =>
              match char_at ")" r2 with
              | Some r3 => Some (name ++ "(" ++ rg ++ ")", r3)
              | None => None
              end
          | None => None
          end
      | None => None
      end
  | None => None
  end.

(** [s.match(re)[0]] without the [g] flag: the leftmost match, [None] for
    the host's [null]. *)
Definition first_match (at_ : string -> option (string * string)) (s : string)
  : option string :=
  search (fun t => option_map fst (at_ t)) s.

(** [s.match(re)] with the [g] flag: every match from left to right, the
    scan resuming after each match ([skip] counts the characters of the
    last match still to pass). *)
Fixpoint scan (at_ : string -> option (string * string)) (skip : nat) (s : string)
  : list string :=
  match s with
  | EmptyString => []
  | String _ s' =>
      match skip with
      | S k => scan at_ k s'
      | O =>
          match at_ s with
          | Some (m, _) => m :: scan at_ (String.length m - 1) s'
          | None => scan at_ 0 s'
          end
      end
  end.

Definition match_all (at_ : string -> option (string * string)) (s : string)
  : list string := scan at_ 0 s.

End Regex.

(** ** Numbers of the host language

    IEEE 754 binary64 values, as the Standard Library's [spec_float] with
    a 53-bit mantissa; results of the operations are in canonical form, so
    equal numbers are equal terms. *)

Module JsNumber.

Definition number : Type := spec_float.

Definition prec : Z := 53.
Definition emax : Z := 1024.

Definition NaN : number := S754_nan.
Definition Infinity : number := S754_infinity false.
Definition zero : number := S754_zero false.

Definition add : number -> number -> number := SFadd prec emax.
Definition sub : number -> number -> number := SFsub prec emax.
Definition mul : number -> number -> number := SFmul prec emax.
Definition div : number -> number -> number := SFdiv prec emax.
Definition neg : number -> number := SFopp.

Definition is_nan (x : number) : bool :=
  match x with S754_nan => true | _ => false end.

Definition same (x y : number) : bool :=
  match x, y with
  | S754_zero a, S754_zero b => Bool.eqb a b
  | S754_infinity a, S754_infinity b => Bool.eqb a b
  | S754_nan, S754_nan => true
  | S754_finite a m e, S754_finite b m' e' => Bool.eqb a b && Pos.eqb m m' && Z.eqb e e'
  | _, _ => false
  end.

Definition of_Z (z : Z) : number := binary_normalize prec emax z 0 false.
Definition of_N (n : N) : number := of_Z (Z.of_N n).

(** The number nearest to [m * 10^e], ties to even. *)
Definition of_decimal (m : N) (e : Z) : number :=
  match m with
  | N0 => zero
  | Npos p =>
      match e with
      | Zneg k => SFdiv prec emax (S754_finite false p 0) (S754_finite false (10 ^ k) 0)
      | _ => binary_normalize prec emax (Zpos p * 10 ^ e) 0 false
      end
  end.

Definition digits_of (n : N) : string := NilZero.string_of_uint (N.to_uint n).
Definition digits10 (n : N) : Z := Z.of_nat (String.length (digits_of n)).

Definition digit_value (c : ascii) : N := N.of_nat (code c - 48).

(** Value of a run of decimal digits. *)
Definition digits_value (s : string) : N :=
  List.fold_left (fun acc c => (10 * acc + digit_value c)%N) (list_ascii_of_string s) 0%N.

(** *** Number::toString, radix 10 *)

(** A positive finite number as the fraction [fst / snd]. *)
Definition fraction (m : positive) (e : Z) : Z * Z :=
  match e with
  | Zneg k => (Zpos m, Zpos (2 ^ k))
  | _ => (Zpos m * 2 ^ e, 1)%Z
  end.

(** The [n] with [10^(n-1) <= p/q < 10^n]. *)
Definition decimal_exponent (p q : Z) : Z :=
  if (q <=? p)%Z then digits10 (Z.to_N (p / q))
  else (1 - digits10 (Z.to_N (q / p)))%Z.

(** [p/q * 10^k] as a fraction. *)
Definition scale10 (p q k : Z) : Z * Z :=
  match k with
  | Zneg j => (p, q * Zpos (10 ^ j))%Z
  | _ => (p * 10 ^ k, q)%Z
  end.

(** The shortest decimal [s * 10^t] that reads back as [x = p/q], trying
    [d], [d+1], ... significant digits; of the two [d]-digit neighbours of
    [x] the nearer one that reads back is taken. *)
Fixpoint shortest (fuel : nat) (x : number) (p q n d : Z) : N * Z :=
  let t := (n - d)%Z in
  let (a, b) := scale10 p q (d - n) in
  let lo := Z.to_N (a / b) in
  let hi := (lo + 1)%N in
  let r := (a mod b)%Z in
  let ok_lo := same (of_decimal lo t) x in
  let ok_hi := same (of_decimal hi t) x in
  match fuel with
  | O => (lo, t)
  | S fuel' =>
      if ok_lo && ok_hi then (if (2 * r <=? b)%Z then (lo, t) else (hi, t))
      else if ok_lo then (lo, t)
      else if ok_hi then (hi, t)
      else shortest fuel' x p q n (d + 1)%Z
  end.

(** Trailing zeros of the digit string move into the exponent. *)
Fixpoint strip_zeros (fuel : nat) (s : N) (t : Z) : N * Z :=
  match fuel with
  | O => (s, t)
  | S fuel' =>
      if ((0 <? s) && (s mod 10 =? 0))%N then strip_zeros fuel' (s / 10)%N (t + 1)%Z
      else (s, t)
  end.

Fixpoint zeros (n : nat) : string :=
  match n with O => EmptyString | S k => String "0" (zeros k) end.

Fixpoint take (n : nat) (s : string) : string :=
  match n, s with
  | S k, String c s' => String c (take k s')
  | _, _ => EmptyString
  end.

Definition exponent_suffix (n : Z) : string :=
  let e := (n - 1)%Z in
  "e" ++ (if (e <? 0)%Z then "-" else "+") ++ digits_of (Z.to_N (Z.abs e)).

(** The digits [ds] ([k] of them) with the decimal point after the
    [n]-th, laid out as the host prints numbers. *)
Definition layout (ds : string) (n : Z) : string :=
  let k := Z.of_nat (String.length ds) in
  if ((k <=? n) && (n <=? 21))%Z then ds ++ zeros (Z.to_nat (n - k))
  else if ((0 <? n) && (n <=? 21))%Z then
    take (Z.to_nat n) ds ++ "." ++ drop (Z.to_nat n) ds
  else if ((-6 <? n) && (n <=? 0))%Z then "0." ++ zeros (Z.to_nat (- n)) ++ ds
  else if (k =? 1)%Z then ds ++ exponent_suffix n
  else take 1 ds ++ "." ++ drop 1 ds ++ exponent_suffix n.

Definition positive_toString (m : positive) (e : Z) : string :=
  let (p, q) := fraction m e in
  let n := decimal_exponent p q in
  let (s0, t0) := shortest 17 (S754_finite false m e) p q n 1 in
  let (s, t) := strip_zeros 400 s0 t0 in
  let ds := digits_of s in
  layout ds (Z.of_nat (String.length ds) + t).

Definition toString (x : number) : string :=
  match x with
  | S754_nan => "NaN"
  | S754_zero _ => "0"
  | S754_infinity false => "Infinity"
  | S754_infinity true => "-Infinity"
  | S754_finite false m e => positive_toString m e
  | S754_finite true m e => "-" ++ positive_toString m e
  end.

End JsNumber.

Import JsNumber.

(** ** Values of the host language and their conversions

    The values a cell can hold or the evaluator can return are taken among
    [undefined], [null], the booleans, the numbers and the strings (no
    objects, symbols or big integers), on which the conversions below
    never throw. *)

Module JsValue.

Inductive jsval : Type :=
| VUndefined
| VNull
| VBool (b : bool)
| VNumber (x : number)
| VString (s : string).

(** [ExponentPart] at the head of [s]: its value and what follows. *)
Definition exponent_at (s : string) : option (Z * string) :=
  match s with
  | String c r =>
      if Ascii.eqb c "e" || Ascii.eqb c "E" then
        let '(minus, r1) :=
          match r with
          | String d r' =>
              if Ascii.eqb d "-" then (true, r')
              else if Ascii.eqb d "+" then (false, r')
              else (false, r)
          | EmptyString => (false, r)
          end in
        match Regex.digits_at r1 with
        | Some (ds, r2) =>
            let e := Z.of_N (digits_value ds) in
            Some (if minus then (- e)%Z else e, r2)
        | None => None
        end
      else None
  | EmptyString => None
  end.

(** Digits with an optional fraction and an optional exponent at the head
    of [s] ([12], [12.], [12.5], [.5], [1e3]): the number and what follows. *)
Definition digits_fraction_at (s : string) : option (number * string) :=
  let (ip, r) := span is_digit s in
  let '(fp, r1) :=
    match r with
    | String c r' => if Ascii.eqb c "." then span is_digit r' else (EmptyString, r)
    | EmptyString => (EmptyString, r)
    end in
  if nonempty ip || nonempty fp then
    let '(ex, r2) :=
      match exponent_at r1 with
      | Some (e, r2) => (e, r2)
      | None => (0%Z, r1)
      end in
    Some (of_decimal (digits_value (ip ++ fp)) (ex - Z.of_nat (String.length fp)), r2)
  else None.

(** [StrUnsignedDecimalLiteral] at the head of [s]. *)
Definition unsigned_decimal_at (s : string) : option (number * string) :=
  if String.prefix "Infinity" s then Some (Infinity, drop 8 s)
  else digits_fraction_at s.

(** [StrDecimalLiteral] at the head of [s]. *)
Definition decimal_at (s : string) : option (number * string) :=
  match s with
  | String c r =>
      if Ascii.eqb c "+" then unsigned_decimal_at r
      else if Ascii.eqb c "-" then
        match unsigned_decimal_at r with
        | Some (x, r') => Some (neg x, r')
        | None => None
        end
      else unsigned_decimal_at s
  | EmptyString => None
  end.

(** [parseFloat] on a string: the longest decimal literal after leading
    white space, [NaN] when there is none. *)
Definition parseFloat_string (s : string) : number :=
  match decimal_at (trimStart s) with
  | Some (x, _) => x
  | None => NaN
  end.

Definition radix_digit (radix : N) (c : ascii) : option N :=
  let n := code c in
  let d :=
    if is_digit c then Some (N.of_nat (n - 48))
    else if (97 <=? n)%nat && (n <=? 102)%nat then Some (N.of_nat (n - 87))
    else if (65 <=? n)%nat && (n <=? 70)%nat then Some (N.of_nat (n - 55))
    else None in
  match d with
  | Some v => if (v <? radix)%N then Some v else None
  | None => None
  end.

Fixpoint radix_value (radix : N) (acc : N) (s : string) : option N :=
  match s with
  | EmptyString => Some acc
  | String c r =>
      match radix_digit radix c with
      | Some d => radix_value radix (radix * acc + d)%N r
      | None => None
      end
  end.

(** [NonDecimalIntegerLiteral]: [0x], [0o] or [0b] and at least one digit. *)
Definition nondecimal (s : string) : option number :=
  match s with
  | String z (String k (String c r)) =>
      if Ascii.eqb z "0" then
        let radix :=
          if Ascii.eqb k "x" || Ascii.eqb k "X" then Some 16%N
          else if Ascii.eqb k "o" || Ascii.eqb k "O" then Some 8%N
          else if Ascii.eqb k "b" || Ascii.eqb k "B" then Some 2%N
          else None in
        match radix with
        | Some b => option_map of_N (radix_value b 0 (String c r))
        | None => None
        end
      else None
  | _ => None
  end.

(** [StringToNumber]. *)
Definition stringToNumber (s : string) : number :=
  match trim s with
  | EmptyString => zero
  | t =>
      match nondecimal t with
      | Some x => x
      | None =>
          match decimal_at t with
          | Some (x, EmptyString) => x
          | _ => NaN
          end
      end
  end.

Definition ToString (v : jsval) : string :=
  match v with
  | VUndefined => "undefined"
  | VNull => "null"
  | VBool true => "true"
  | VBool false => "false"
  | VNumber x => toString x
  | VString s => s
  end.

Definition ToNumber (v : jsval) : number :=
  match v with
  | VUndefined => NaN
  | VNull => zero
  | VBool true => of_Z 1
  | VBool false => zero
  | VNumber x => x
  | VString s => stringToNumber s
  end.

(** The global [isNaN] and [parseFloat]. *)
Definition isNaN (v : jsval) : bool := is_nan (ToNumber v).
Definition parseFloat (v : jsval) : number := parseFloat_string (ToString v).

(** Result of running a piece of program text: a value, or an exception. *)
Inductive completion : Type :=
| Normal (v : jsval)
| Throw.

End JsValue.

Import JsValue.

(** ** Arithmetic program text

    The script hands the substituted formula to the host's [eval].  The
    formulas the sheet is meant for are sums, differences, products and
    quotients of numerals; on such text [eval] is the function [arith_eval]
    below, which answers [None] on everything else (it decides nothing
    about text outside this grammar). *)

Module Arith.

Inductive binop : Type := Add | Sub | Mul | Div.

Inductive token : Type :=
| TOperand (v : jsval)
| TOp (o : binop).

Definition is_ident_start (c : ascii) : bool :=
  is_upper c || is_lower c || Ascii.eqb c "_" || Ascii.eqb c "$".
Definition is_ident_part (c : ascii) : bool := is_ident_start c || is_digit c.

(** A decimal numeral at the head of [s] (which starts with a digit): no
    leading zero before further digits, and no identifier character or
    digit right after it. *)
Definition numeral_at (s : string) : option (number * string) :=
  let (ip, _) := span is_digit s in
  if String.prefix "0" ip && (1 <? String.length ip)%nat then None
  else
    match digits_fraction_at s with
    | Some (x, r) => if head_is is_ident_part r then None else Some (x, r)
    | None => None
    end.

Definition keyword (id : string) : option jsval :=
  if String.eqb id "NaN" then Some (VNumber NaN)
  else if String.eqb id "Infinity" then Some (VNumber Infinity)
  else if String.eqb id "undefined" then Some VUndefined
  else None.

Definition operator (c : ascii) (next : string) : option binop :=
  if Ascii.eqb c "+" then (if head_is (Ascii.eqb "+") next then None else Some Add)
  else if Ascii.eqb c "-" then (if head_is (Ascii.eqb "-") next then None else Some Sub)
  else if Ascii.eqb c "*" then (if head_is (Ascii.eqb "*") next then None else Some Mul)
  else if Ascii.eqb c "/" then
    (if head_is (fun d => Ascii.eqb d "/" || Ascii.eqb d "*") next then None else Some Div)
  else None.

(** Tokens of [s]; [skip] counts the characters of the last token still
    to pass. *)
Fixpoint lex (skip : nat) (s : string) : option (list token) :=
  match s with
  | EmptyString => Some []
  | String c s' =>
      match skip with
      | S k => lex k s'
      | O =>
          if Ascii.eqb c " " then lex 0 s'
          else if is_digit c then
            match numeral_at s with
            | Some (x, r) =>
                option_map (cons (TOperand (VNumber x)))
                  (lex (String.length s' - String.length r) s')
            | None => None
            end
          else if is_ident_start c then
            let (id, _) := span is_ident_part s in
            match keyword id with
            | Some v => option_map (cons (TOperand v)) (lex (String.length id - 1) s')
            | None => None
            end
          else
            match operator c s' with
            | Some o => option_map (cons (TOp o)) (lex 0 s')
            | None => None
            end
      end
  end.

Definition arith (o : binop) (a b : jsval) : jsval :=
  let f := match o with Add => add | Sub => sub | Mul => mul | Div => div end in
  VNumber (f (ToNumber a) (ToNumber b)).

(** [negs] unary minus signs in front of [v]. *)
Fixpoint negate (negs : nat) (v : jsval) : jsval :=
  match negs with
  | O => v
  | S k => VNumber (neg (ToNumber (negate k v)))
  end.

(** An operand with its unary minus signs, and the tokens after it. *)
Fixpoint operand (negs : nat) (toks : list token) : option (jsval * list token) :=
  match toks with
  | TOperand v :: r => Some (negate negs v, r)
  | TOp Sub :: r => operand (S negs) r
  | _ => None
  end.

(** What follows the first operand: operator, operand, operator, ...
    [st] is [None] where an operator is due, and the operator read and
    the count of unary minus signs where an operand is due. *)
Fixpoint tail (st : option (binop * nat)) (toks : list token) : option (list (binop * jsval)) :=
  match toks, st with
  | [], None => Some []
  | [], Some _ => None
  | TOp o :: r, None => tail (Some (o, O)) r
  | TOperand _ :: _, None => None
  | TOp Sub :: r, Some (o, k) => tail (Some (o, S k)) r
  | TOp _ :: _, Some _ => None
  | TOperand v :: r, Some (o, k) => option_map (cons (o, negate k v)) (tail None r)
  end.

Definition close (sum : option (jsval * binop)) (term : jsval) : jsval :=
  match sum with
  | None => term
  | Some (s, o) => arith o s term
  end.

(** Products and quotients bind tighter than sums and differences; equal
    precedence associates to the left. *)
Fixpoint fold_terms (sum : option (jsval * binop)) (term : jsval)
    (rest : list (binop * jsval)) : jsval :=
  match rest with
  | [] => close sum term
  | (Mul, v) :: r => fold_terms sum (arith Mul term v) r
  | (Div, v) :: r => fold_terms sum (arith Div term v) r
  | (o, v) :: r => fold_terms (Some (close sum term, o)) v r
  end.

Definition arith_eval (s : string) : option jsval :=
  match lex 0 s with
  | Some [] => Some VUndefined
  | Some toks =>
      match operand 0 toks with
      | Some (v, r) =>
          match tail None r with
          | Some rest => Some (fold_terms None v rest)
          | None => None
          end
      | None => None
      end
  | None => None
  end.

(** A host evaluator that computes arithmetic text as [arith_eval] does. *)
Definition evaluates_arithmetic (ev : string -> completion) : Prop :=
  forall s v, arith_eval s = Some v -> ev s = Normal v.

(** One such evaluator: it throws on everything outside the grammar. *)
Definition arith_only (s : string) : completion :=
  match arith_eval s with
  | Some v => Normal v
  | None => Throw
  end.

End Arith.

Import Arith.

(** ** The script *)

Module Sheet.

(** *** Exceptions

    The only exception the script's own code can raise is the host's
    [TypeError] (a property read on [null] or [undefined]). *)

Inductive result (A : Type) : Type :=
| Ok (a : A)
| TypeError.
Arguments Ok {A} a.
Arguments TypeError {A}.

Definition bind {A B : Type} (r : result A) (k : A -> result B) : result B :=
  match r with
  | Ok a => k a
  | TypeError => TypeError
  end.

Notation "x <- r ;; k" := (bind r (fun x => k))
  (at level 61, r at next level, right associativity).
Notation "' p <- r ;; k" := (bind r (fun x => let 'p := x in k))
  (at level 61, p pattern, r at next level, right associativity).

(** [m[0]] on the result of [String.prototype.match]. *)
Definition first_of (m : option string) : result string :=
  match m with
  | Some s => Ok s
  | None => TypeError
  end.

(** *** Column headers: [getColumnHeaders] *)

Definition ROWS : nat := 100.
Definition COLUMNS : nat := 100.

Definition fromCharCode (n : Z) : ascii := ascii_of_nat (Z.to_nat n).

(** The inner [while (quotient >= 0)] loop. *)
Equations? header_loop (quotient : Z) (header : string) : string
  by wf (Z.to_nat (quotient + 1)) lt :=
  header_loop quotient header with Z_le_gt_dec 0 quotient => {
    | left _ =>
        let remainder := (quotient mod 26)%Z in
        header_loop (quotient / 26 - 1)%Z
                    (String (fromCharCode (65 + remainder)) header);
    | right _ => header }.
Proof.
  assert (quotient / 26 <= quotient)%Z by (apply Z.div_le_upper_bound; lia).
  assert (0 <= quotient / 26)%Z by (apply Z.div_pos; lia).
  lia.
Qed.

(** The outer loop: [columnCount] runs from 1 to [count]. *)
Definition getColumnHeaders (count : nat) : list string :=
  List.map (fun columnCount => header_loop (Z.of_nat columnCount - 1) EmptyString)
           (seq 1 count).

Definition columnHeaders : list string := getColumnHeaders COLUMNS.

(** *** Cell ids: [parseCellId] *)

(** [parseInt] on a run of decimal digits.  Row numbers are kept as
    naturals: the host's numbers represent them exactly up to
    [MAX_SAFE_INTEGER]; above, the host rounds them, prints them
    differently, and [row++] no longer advances from [2^53] on.  The
    statements below that depend on a row number assume [safe_row] of it,
    or [safe_rows] of the text it is read from. *)
Definition parseInt (digits : string) : N := digits_value digits.

(** [Number.MAX_SAFE_INTEGER], [2^53 - 1]. *)
Definition MAX_SAFE_INTEGER : N := 9007199254740991.

Definition safe_row (row : N) : bool := (row <=? MAX_SAFE_INTEGER)%N.

Definition parseCellId (cellId : string) : result (string * N) :=
  col <- first_of (Regex.first_match Regex.letters_at cellId) ;;
  digits <- first_of (Regex.first_match Regex.digits_at cellId) ;;
  Ok (col, parseInt digits).

(** [parseCellId]'s result as the host sees it: a two-element array of a
    string and a number. *)
Definition parseCellId_array (cellId : string) : result (list jsval) :=
  '(col, row) <- parseCellId cellId ;;
  Ok [VString col; VNumber (of_N row)].

(** *** The cell table

    [cells] is a host object used as a map from cell id to record.  The
    keys of the tables considered here are cell ids, which hold a capital
    letter (the ids of the grid, or [parses] in the statements), so none
    of them is an integer index and the host enumerates them in the order
    in which they were first set.  A record normally has the properties
    [formula] and [value]; the field [updatedFormula] is the property the
    variant of the script in [part_000] writes instead of [formula] for a
    formula cell. *)

Record cell : Type := {
  formula : option string;
  updatedFormula : option string;
  value : jsval
}.

Definition store : Type := list (string * cell).

Fixpoint get (cells : store) (cellId : string) : option cell :=
  match cells with
  | [] => None
  | (k, c) :: rest => if String.eqb k cellId then Some c else get rest cellId
  end.

(** [cells[cellId] = c] *)
Fixpoint set (cells : store) (cellId : string) (c : cell) : store :=
  match cells with
  | [] => [(cellId, c)]
  | (k, c') :: rest =>
      if String.eqb k cellId then (k, c) :: rest else (k, c') :: set rest cellId c
  end.

(** [Object.keys(cells)] *)
Definition keys (cells : store) : list string := List.map fst cells.

(** The record of a cell that holds the text [text] and no formula. *)
Definition literal (text : string) : cell :=
  {| formula := Some EmptyString; updatedFormula := None; value := VString text |}.

(** [cells[cellId] || 0] and the read of its [value] property: the
    number [0] has no such property. *)
Inductive cell_or_zero : Type :=
| IsCell (c : cell)
| IsZero.

Definition or_zero (o : option cell) : cell_or_zero :=
  match o with
  | Some c => IsCell c
  | None => IsZero
  end.

Definition value_of (x : cell_or_zero) : jsval :=
  match x with
  | IsCell c => value c
  | IsZero => VUndefined
  end.

(** *** The range function: [sumRange] *)

Definition charCodeAt0 (s : string) : option nat :=
  match s with
  | String c _ => Some (code c)
  | EmptyString => None
  end.

(** Values of [col] in
    [for (col = startCol.charCodeAt(0); col <= endCol.charCodeAt(0); col++)]. *)
Definition col_codes (startCol endCol : string) : list nat :=
  match charCodeAt0 startCol, charCodeAt0 endCol with
  | Some a, Some b => seq a (S b - a)
  | _, _ => []
  end.

(** Values of [row] in [for (row = startRow; row <= endRow; row++)],
    for bounds that are [safe_row]s: the loop then visits these rows and
    ends.  (With an end row from [2^53] on that is not below the start
    row, the script's loop does not end.) *)
Definition row_numbers (startRow endRow : N) : list N :=
  List.map (fun i => (startRow + N.of_nat i)%N)
           (seq 0 (N.to_nat (endRow + 1 - startRow))).

(** [String.fromCharCode(col) + row] *)
Definition cell_id_at (col : nat) (row : N) : string :=
  String (ascii_of_nat col) EmptyString ++ digits_of row.

Definition sumRange (cells : store) (startCol : string) (startRow : N)
    (endCol : string) (endRow : N) : number :=
  fold_left
    (fun sum row =>
       fold_left
         (fun sum col =>
            let cellId := cell_id_at col row in
            let cellValue := or_zero (get cells cellId) in
            add sum (parseFloat (value_of cellValue)))
         (col_codes startCol endCol) sum)
    (row_numbers startRow endRow) zero.

(** What one round of the inner loop adds to [sum]. *)
Definition lookup_term (cells : store) (cellId : string) : number :=
  parseFloat (value_of (or_zero (get cells cellId))).

(** The cell ids [sumRange] looks up, in order. *)
Definition sumRange_lookups (startCol : string) (startRow : N)
    (endCol : string) (endRow : N) : list string :=
  flat_map (fun row => List.map (fun col => cell_id_at col row) (col_codes startCol endCol))
           (row_numbers startRow endRow).

Definition reducer : Type := store -> string -> N -> string -> N -> number.

Definition SUPPORTED_FUNCTIONS : list (string * reducer) := [("SUM", sumRange)].

Fixpoint own_property {A : Type} (table : list (string * A)) (name : string) : option A :=
  match table with
  | [] => None
  | (k, f) :: rest => if String.eqb k name then Some f else own_property rest name
  end.

Definition hasOwnProperty {A : Type} (table : list (string * A)) (name : string) : bool :=
  match own_property table name with Some _ => true | None => false end.

(** *** [evaluateFunction] *)

Definition evaluateFunction (cells : store) (functionExpression functionName : string)
  : result jsval :=
  range <- first_of (Regex.first_match Regex.range_at functionExpression) ;;
  match split ":" range with
  | startCell :: endCell :: _ =>
      '(startCol, startRow) <- parseCellId startCell ;;
      '(endCol, endRow) <- parseCellId endCell ;;
      match own_property SUPPORTED_FUNCTIONS functionName with
      | Some getFunction =>
          Ok (VNumber (getFunction cells startCol startRow endCol endRow))
      | None => Ok (VString "")
      end
  | _ => TypeError
  end.

Section Engine.

(** The host's [eval], on the text the script hands to it: a function of
    that text (the formulas of the sheet have no effect on the script's
    variables). *)
Variable js_eval : string -> completion.

(** *** [evaluateExpression] *)

(** The [try { eval } catch] at the end. *)
Definition evaluate_text (expression : string) : jsval :=
  match js_eval expression with
  | Normal result => if isNaN result then VString "" else result
  | Throw => VString "N/A"
  end.

(** One round of [cellReferences.forEach].  The key [refCol + refRow] is
    the column followed by the row number as the host prints it, which for
    a [safe_row] is its digits. *)
Definition substitute_reference (cells : store) (expression : result string)
    (cellReference : string) : result string :=
  expression <- expression ;;
  '(refCol, refRow) <- parseCellId cellReference ;;
  let cellId := refCol ++ digits_of refRow in
  let cellValue := or_zero (get cells cellId) in
  Ok (replace expression cellReference (ToString (value_of cellValue))).

(** The text handed to [eval]; [None] where the script returns before
    that, on a function name it does not support. *)
Definition substituted (cells : store) (expression : string) : result (option string) :=
  let cellReferences := Regex.match_all Regex.cellref_at expression in
  match Regex.first_match Regex.function_at expression with
  | Some functionMatch =>
      let functionName := replace (hd EmptyString (split "(" functionMatch)) "=" "" in
      if hasOwnProperty SUPPORTED_FUNCTIONS functionName then
        r <- evaluateFunction cells functionMatch functionName ;;
        Ok (Some (replace expression functionMatch (ToString r)))
      else Ok None
  | None =>
      expression <- fold_left (substitute_reference cells) cellReferences (Ok expression) ;;
      Ok (Some expression)
  end.

Definition evaluateExpression (cells : store) (expression : string) : result jsval :=
  text <- substituted cells expression ;;
  match text with
  | Some expression => Ok (evaluate_text expression)
  | None => Ok (VString "N/A")
  end.

(** *** The state of the page

    The cell table and, in order, the writes to the [innerText] of cell
    elements (every cell id of the table is the id of an element). *)

Record page : Type := {
  cells : store;
  rendered : list (string * jsval)
}.

Definition write_cell (cellId : string) (c : cell) (p : page) : page :=
  {| cells := set (cells p) cellId c; rendered := rendered p |}.

Definition write_text (cellId : string) (v : jsval) (p : page) : page :=
  {| cells := cells p; rendered := rendered p ++ [(cellId, v)] |}.

(** A handler leaves a page and either returns or stops on an exception. *)
Definition outcome : Type := (page * result unit)%type.

(** *** [updateDependentCells] *)

(** The body of the [forEach], for one key. *)
Definition update_one (updatedCellId : string) (p : page) (cellId : string) : outcome :=
  match get (cells p) cellId with
  | None => (p, TypeError)
  | Some record =>
      match formula record with
      | None => (p, TypeError)
      | Some formula =>
          if includes formula updatedCellId then
            match ('(col, row) <- parseCellId cellId ;;
                   evaluateExpression (cells p) (substring_from 1 formula)) with
            | Ok evaluatedValue =>
                let c := {| formula := Some formula; updatedFormula := None;
                            value := evaluatedValue |} in
                (write_text cellId evaluatedValue (write_cell cellId c p), Ok tt)
            | TypeError => (p, TypeError)
            end
          else (p, Ok tt)
      end
  end.

(** [forEach] over a list of keys: an exception ends the loop. *)
Fixpoint for_each (body : page -> string -> outcome) (p : page) (ks : list string) : outcome :=
  match ks with
  | [] => (p, Ok tt)
  | k :: rest =>
      match body p k with
      | (p', Ok _) => for_each body p' rest
      | (p', TypeError) => (p', TypeError)
      end
  end.

Definition updateDependentCells (updatedCellId : string) (p : page) : outcome :=
  for_each (update_one updatedCellId) p (keys (cells p)).

(** *** [evaluateFormula], the handler of a cell's [blur] event

    [cellId] is the id of the cell element and [innerText] its text. *)
Definition evaluateFormula (cellId innerText : string) (p : page) : outcome :=
  let formula := toUpperCase (trim innerText) in
  let stored :=
    if startsWith formula "=" then
      let expression := substring_from 1 formula in
      match evaluateExpression (cells p) expression with
      | Ok evaluatedValue =>
          let c := {| formula := Some formula; updatedFormula := None;
                      value := evaluatedValue |} in
          (write_text cellId evaluatedValue (write_cell cellId c p), Ok tt)
      | TypeError => (p, TypeError)
      end
    else
      let c := {| formula := Some EmptyString; updatedFormula := None;
                  value := VString formula |} in
      (write_cell cellId c p, Ok tt) in
  match stored with
  | (p', Ok _) => updateDependentCells cellId p'
  | (p', TypeError) => (p', TypeError)
  end.

(** The same handler in the variant of the script in [part_000]: the text
    is put in upper case for a formula only, and a formula cell's record
    gets the property [updatedFormula]. *)
Definition evaluateFormula_part_000 (cellId innerText : string) (p : page) : outcome :=
  let formula := trim innerText in
  let stored :=
    if startsWith formula "=" then
      let updatedFormula := toUpperCase formula in
      let expression := substring_from 1 updatedFormula in
      match evaluateExpression (cells p) expression with
      | Ok evaluatedValue =>
          let c := {| formula := None; updatedFormula := Some updatedFormula;
                      value := evaluatedValue |} in
          (write_text cellId evaluatedValue (write_cell cellId c p), Ok tt)
      | TypeError => (p, TypeError)
      end
    else
      let c := {| formula := Some EmptyString; updatedFormula := None;
                  value := VString formula |} in
      (write_cell cellId c p, Ok tt) in
  match stored with
  | (p', Ok _) => updateDependentCells cellId p'
  | (p', TypeError) => (p', TypeError)
  end.

End Engine.

End Sheet.

Import Sheet.

(** ** Vocabulary of the statements *)

Module Shape.

Definition is_alnum (c : ascii) : bool := is_upper c || is_digit c.

(** A cell label: capital letters followed by digits. *)
Definition cell_label (m : string) : Prop :=
  exists l d, m = l ++ d
              /\ nonempty l = true /\ every is_upper l = true
              /\ nonempty d = true /\ every is_digit d = true.

(** The text of a function call the evaluator recognises:
    [name(a:b)] with [a] and [b] cell labels. *)
Definition call_text (name a b : string) : string :=
  name ++ String "(" (a ++ String ":" (b ++ String ")" EmptyString)).

(** The name of the function an expression calls, as the evaluator
    extracts it from the leftmost call in the text. *)
Definition called_function (expression : string) : option string :=
  option_map (fun functionMatch => replace (hd EmptyString (split "(" functionMatch)) "=" "")
             (Regex.first_match Regex.function_at expression).

(** [parseCellId] returns on [cellId]. *)
Definition parses (cellId : string) : Prop :=
  exists col row, parseCellId cellId = Ok (col, row).

(** A cell table as the script builds it: one record per key, every
    record with a [formula] property, every key a cell id. *)
Definition well_formed (cells : store) : Prop :=
  NoDup (keys cells)
  /\ Forall (fun kc => formula (snd kc) <> None /\ parses (fst kc)) cells.

(** The record [updateDependentCells] writes. *)
Definition recomputed (formula : string) (v : jsval) : cell :=
  {| formula := Some formula; updatedFormula := None; value := v |}.

(** Whether the record depends on [cellId]: its formula text contains it. *)
Definition depends_on (cellId : string) (c : cell) : bool :=
  match formula c with
  | Some f => includes f cellId
  | None => false
  end.

Definition empty_page : page := {| cells := []; rendered := [] |}.

(** Text of code units below U+0080. *)
Definition ascii_text (s : string) : bool := every (fun c => (code c <? 128)%nat) s.

Definition no_lower (s : string) : bool := every (fun c => negb (is_lower c)) s.

(** No run of more than 15 digits from here on, [run] digits of the
    current run being already passed. *)
Fixpoint digit_runs (run : nat) (s : string) : bool :=
  match s with
  | EmptyString => true
  | String c s' =>
      if is_digit c then (run <? 15)%nat && digit_runs (S run) s'
      else digit_runs 0 s'
  end.

(** A text in which every run of digits has at most 15 digits: every
    number the script reads from it with [parseInt] is below [10^15],
    hence a [safe_row]. *)
Definition safe_rows (s : string) : bool := digit_runs 0 s.

(** A text typed in a cell that the script handles within the bounds of
    this model: ASCII text that, when it is a formula, has safe rows. *)
Definition editable (innerText : string) : bool :=
  ascii_text innerText
  && (let formula := toUpperCase (trim innerText) in
      if startsWith formula "=" then safe_rows formula else true).

(** Every formula of the table has safe rows. *)
Definition safe_table (cells : store) : Prop :=
  Forall (fun kc => forall f, formula (snd kc) = Some f -> safe_rows f = true) cells.

(** The table as it is when the update of dependent cells reaches the
    key [k]: the records before [k] as in [new], the table the update
    leaves, and the records from [k] on as in [old], the table it
    started from. *)
Fixpoint table_at (k : string) (old new : store) : store :=
  match old, new with
  | (k0, r0) :: old', (_, r1) :: new' =>
      if String.eqb k0 k then old else (k0, r1) :: table_at k old' new'
  | _, _ => old
  end.

(** The writes to cell elements an update of the cells depending on
    [updated] makes, read off the table it leaves: one for each dependent
    record, in key order, with the record's new value. *)
Definition notifications (updated : string) (cells : store) : list (string * jsval) :=
  List.map (fun kc => (fst kc, value (snd kc)))
           (List.filter (fun kc => depends_on updated (snd kc)) cells).

(** The page once the handler has stored the edited cell's own record,
    before it updates the dependent cells. *)
Definition committed (js_eval : string -> completion) (cellId innerText : string)
    (p : page) : page :=
  let formula := toUpperCase (trim innerText) in
  if startsWith formula "=" then
    match evaluateExpression js_eval (cells p) (substring_from 1 formula) with
    | Ok v => write_text cellId v (write_cell cellId (recomputed formula v) p)
    | TypeError => p
    end
  else write_cell cellId (literal formula) p.

(** A sequence of edits, each handled by [evaluateFormula]. *)
Definition edits (js_eval : string -> completion) (l : list (string * string)) (p : page)
  : page :=
  fold_left (fun p e => fst (evaluateFormula js_eval (fst e) (snd e) p)) l p.

End Shape.

Import Shape.

(** ** The numbering the headers are meant to follow *)

Module Spec.

Definition letter (i : Z) : ascii := ascii_of_nat (Z.to_nat (65 + i)).

(** Bijective base 26, as the specification words it: take
    [(n-1) mod 26] as the next least-significant letter, continue with
    [floor((n-1)/26)], stop at 0. *)
Equations? bijective26 (n : Z) (label : string) : string by wf (Z.to_nat n) lt :=
  bijective26 n label with Z_le_gt_dec n 0 => {
    | left _ => label;
    | right _ => bijective26 ((n - 1) / 26) (String (letter ((n - 1) mod 26)) label) }.
Proof.
  assert ((n - 1) / 26 <= n - 1)%Z by (apply Z.div_le_upper_bound; lia).
  assert (0 <= (n - 1) / 26)%Z by (apply Z.div_pos; lia).
  lia.
Qed.

(** The label of the [n]-th column, [n] counted from 1. *)
Definition column_label (n : Z) : string := bijective26 n EmptyString.

(** The number a label denotes: letters [A]..[Z] are the digits 1..26. *)
Definition label_value (label : string) : Z :=
  fold_left (fun acc c => (26 * acc + (Z.of_nat (code c) - 64))%Z)
            (list_ascii_of_string label) 0%Z.

End Spec.

(** ** The rest of the script

    The functions around the engine: the next-column helper, the grid
    [generateSpreadsheet] builds and the refresh button's handler. *)

Module Page.

(** [headers.findIndex((colId) => colId === id)]: the first index at
    which [id] stands, [-1] when there is none. *)
Fixpoint findIndex (id : string) (headers : list string) : Z :=
  match headers with
  | [] => (-1)%Z
  | colId :: rest =>
      if String.eqb colId id then 0%Z
      else let i := findIndex id rest in
           if (i <? 0)%Z then (-1)%Z else (i + 1)%Z
  end.

(** [headers[i]]: [None] is the host's [undefined]. *)
Definition element (headers : list string) (i : Z) : option string :=
  if (i <? 0)%Z then None else nth_error headers (Z.to_nat i).

Definition getNextColumn (id : string) (headers : list string) : option string :=
  let index := findIndex id headers in
  if (index <? Z.of_nat (List.length headers) - 1)%Z
  then element headers (index + 1)
  else element headers 0.

(** [columnHeaders[col] + row], the id [generateSpreadsheet] gives to the
    cell element of column index [col] and row [row]. *)
Definition grid_cell_id (col row : nat) : string :=
  match nth_error columnHeaders col with
  | Some header => header ++ digits_of (N.of_nat row)
  | None => "NaN"
  end.

(** The ids of the editable elements [generateSpreadsheet] creates, in
    document order: rows 1 to [ROWS], and in each row the columns of
    index 0 to [COLUMNS - 1]. *)
Definition grid_ids : list string :=
  flat_map (fun row => List.map (fun col => grid_cell_id col row) (seq 0 COLUMNS))
           (seq 1 ROWS).

(** [refreshGrid]: the text of every cell element becomes empty. *)
Definition refreshGrid (p : page) : page :=
  fold_left (fun p cellId => write_text cellId (VString "") p) grid_ids p.

(** Some character of [s] satisfies [p]. *)
Fixpoint some_char (p : ascii -> bool) (s : string) : bool :=
  match s with
  | EmptyString => false
  | String c s' => p c || some_char p s'
  end.

(** Neither a capital letter nor a digit. *)
Definition is_other (c : ascii) : bool := negb (is_upper c) && negb (is_digit c).

(** Not the character [$], which [String.prototype.replace] treats
    specially in a replacement text. *)
Definition is_plain (c : ascii) : bool := negb (Ascii.eqb c "$").

Definition not_upper (c : ascii) : bool := negb (is_upper c).

(** The text that replaces the reference [reference] in an expression:
    the [value] of [cells[refCol + refRow] || 0], as a string. *)
Definition reference_text (cells : store) (reference : string) : string :=
  match parseCellId reference with
  | Ok (refCol, refRow) =>
      ToString (value_of (or_zero (get cells (refCol ++ digits_of refRow))))
  | TypeError => EmptyString
  end.

(** An expression as a sequence of references, each followed by the text
    up to the next one; [f] says what stands for a reference. *)
Fixpoint interleave (f : string -> string) (parts : list (string * string)) : string :=
  match parts with
  | [] => EmptyString
  | (reference, text) :: rest => f reference ++ text ++ interleave f rest
  end.

End Page.

Import Page.

(** * Properties *)

(** ** Column headers *)

Section ColumnHeaders.

Lemma header_loop_step (q : Z) (h : string) :
  (0 <= q)%Z ->
  header_loop q h = header_loop (q / 26 - 1) (String (fromCharCode (65 + q mod 26)) h).
Proof.
  intros Hq. rewrite header_loop_equation_1.
  destruct (Z_le_gt_dec 0 q) as [Hpos | Hneg]; [reflexivity | lia].
Qed.

Lemma header_loop_done (q : Z) (h : string) :
  (q < 0)%Z -> header_loop q h = h.
Proof.
  intros Hq. rewrite header_loop_equation_1.
  destruct (Z_le_gt_dec 0 q) as [Hpos | Hneg]; [lia | reflexivity].
Qed.

Lemma bijective26_step (n : Z) (l : string) :
  (0 < n)%Z ->
  Spec.bijective26 n l =
  Spec.bijective26 ((n - 1) / 26) (String (Spec.letter ((n - 1) mod 26)) l).
Proof.
  intros Hn. rewrite Spec.bijective26_equation_1.
  destruct (Z_le_gt_dec n 0) as [Hle | Hgt]; [lia | reflexivity].
Qed.

Lemma bijective26_stop (n : Z) (l : string) :
  (n <= 0)%Z -> Spec.bijective26 n l = l.
Proof.
  intros Hn. rewrite Spec.bijective26_equation_1.
  destruct (Z_le_gt_dec n 0) as [Hle | Hgt]; [reflexivity | lia].
Qed.

(** The script's loop on [quotient = n - 1] is the specification's
    recurrence on [n]. *)
Lemma header_loop_bijective26 (q : Z) :
  (-1 <= q)%Z -> forall h, header_loop q h = Spec.bijective26 (q + 1) h.
Proof.
  induction q as [q IH] using (well_founded_induction (Z.lt_wf (-1))).
  intros Hq h.
  destruct (Z_lt_le_dec q 0) as [Hneg | Hpos].
  - rewrite header_loop_done by lia. rewrite bijective26_stop by lia. reflexivity.
  - rewrite header_loop_step by lia. rewrite bijective26_step by lia.
    replace (q + 1 - 1)%Z with q by lia.
    assert (q / 26 <= q)%Z by (apply Z.div_le_upper_bound; lia).
    assert (0 <= q / 26)%Z by (apply Z.div_pos; lia).
    rewrite IH by lia.
    replace (q / 26 - 1 + 1)%Z with (q / 26)%Z by lia.
    reflexivity.
Qed.

Lemma getColumnHeaders_length (count : nat) : List.length (getColumnHeaders count) = count.
Proof. unfold getColumnHeaders. rewrite length_map, length_seq. reflexivity. Qed.

(** The labels of the recurrence denote the column numbers: the
    numbering is the bijective one in base 26. *)
Lemma fold_value_shift (l : list ascii) (a : Z) :
  fold_left (fun acc c => (26 * acc + (Z.of_nat (code c) - 64))%Z) l a
  = (a * 26 ^ Z.of_nat (List.length l)
     + fold_left (fun acc c => (26 * acc + (Z.of_nat (code c) - 64))%Z) l 0)%Z.
Proof.
  revert a. induction l as [| c l IH]; intros a.
  - cbn [fold_left List.length]. change (26 ^ Z.of_nat 0)%Z with 1%Z. lia.
  - cbn [fold_left List.length]. rewrite IH. rewrite (IH (26 * 0 + _)%Z).
    rewrite Nat2Z.inj_succ, Z.pow_succ_r by lia. lia.
Qed.

Lemma label_value_cons (c : ascii) (s : string) :
  Spec.label_value (String c s)
  = ((Z.of_nat (code c) - 64) * 26 ^ Z.of_nat (List.length (list_ascii_of_string s))
     + Spec.label_value s)%Z.
Proof.
  unfold Spec.label_value. cbn [list_ascii_of_string fold_left].
  rewrite fold_value_shift. reflexivity.
Qed.

Lemma code_letter (i : Z) :
  (0 <= i < 26)%Z -> Z.of_nat (code (Spec.letter i)) = (65 + i)%Z.
Proof.
  intros Hi. unfold code, Spec.letter.
  rewrite nat_ascii_embedding by lia. lia.
Qed.

Lemma bijective26_value (n : Z) :
  (0 <= n)%Z ->
  forall acc,
    Spec.label_value (Spec.bijective26 n acc)
    = (n * 26 ^ Z.of_nat (List.length (list_ascii_of_string acc)) + Spec.label_value acc)%Z.
Proof.
  induction n as [n IH] using (well_founded_induction (Z.lt_wf 0)).
  intros Hn acc.
  destruct (Z_le_gt_dec n 0) as [Hz | Hpos].
  - rewrite bijective26_stop by lia. assert (n = 0)%Z by lia. subst n. lia.
  - rewrite bijective26_step by lia.
    assert (Hq : (0 <= (n - 1) / 26)%Z) by (apply Z.div_pos; lia).
    assert (Hlt : ((n - 1) / 26 <= n - 1)%Z) by (apply Z.div_le_upper_bound; lia).
    rewrite IH by lia.
    rewrite label_value_cons, code_letter by (apply Z.mod_pos_bound; lia).
    cbn [list_ascii_of_string List.length].
    rewrite Nat2Z.inj_succ, Z.pow_succ_r by lia.
    pose proof (Z.div_mod (n - 1) 26 ltac:(lia)) as Hdm.
    set (q := ((n - 1) / 26)%Z) in *. set (r := ((n - 1) mod 26)%Z) in *.
    replace n with (26 * q + r + 1)%Z at 3 by lia.
    lia.
Qed.

(** C5. For every [n], [getColumnHeaders n] is the list of the first [n]
    labels of the bijective base-26 numbering defined by the recurrence
    "letter [(k-1) mod 26], then [k := floor((k-1)/26)], until 0", the
    [k]-th label denoting [k]; [getColumnHeaders 1] is [["A"]], and the
    26th, 27th and 28th labels are [Z], [AA] and [AB]. *)
Theorem getColumnHeaders_bijective_base26 :
  (forall n : nat,
      getColumnHeaders n = List.map (fun k => Spec.column_label (Z.of_nat k)) (seq 1 n)
      /\ List.length (getColumnHeaders n) = n
      /\ Spec.label_value (Spec.column_label (Z.of_nat n)) = Z.of_nat n)
  /\ getColumnHeaders 1 = ["A"]
  /\ nth_error (getColumnHeaders 28) 25 = Some "Z"
  /\ nth_error (getColumnHeaders 28) 26 = Some "AA"
  /\ nth_error (getColumnHeaders 28) 27 = Some "AB".
Proof.
  split; [| repeat split; reflexivity].
  intros n. split; [| split; [apply getColumnHeaders_length |]].
  - unfold getColumnHeaders, Spec.column_label.
    apply map_ext_in. intros k Hk. apply in_seq in Hk.
    rewrite header_loop_bijective26 by lia.
    f_equal. lia.
  - unfold Spec.column_label. rewrite bijective26_value by lia.
    cbn [list_ascii_of_string List.length]. unfold Spec.label_value.
    cbn [list_ascii_of_string fold_left]. change (26 ^ Z.of_nat 0)%Z with 1%Z. lia.
Qed.

End ColumnHeaders.

(** ** The regular expressions on letters-then-digits text *)

Section Matching.

Lemma digit_not_upper (c : ascii) : is_digit c = true -> is_upper c = false.
Proof.
  unfold is_digit, is_upper. intros H.
  apply andb_true_iff in H. destruct H as [_ H]. apply Nat.leb_le in H.
  apply andb_false_iff. left. apply Nat.leb_gt. lia.
Qed.

Lemma upper_not_digit (c : ascii) : is_upper c = true -> is_digit c = false.
Proof.
  intros H. destruct (is_digit c) eqn:E; [| reflexivity].
  apply digit_not_upper in E. congruence.
Qed.

Lemma span_app (p : ascii -> bool) (a b : string) :
  every p a = true -> head_is p b = false -> span p (a ++ b) = (a, b).
Proof.
  induction a as [| c a IH]; simpl; intros Ha Hb.
  - destruct b as [| d b]; [reflexivity |]. simpl in *. rewrite Hb. reflexivity.
  - apply andb_true_iff in Ha. destruct Ha as [Hc Ha].
    rewrite Hc, (IH Ha Hb). reflexivity.
Qed.

Lemma span_every (p : ascii -> bool) (a : string) :
  every p a = true -> span p a = (a, EmptyString).
Proof.
  induction a as [| c a IH]; simpl; intros Ha; [reflexivity |].
  apply andb_true_iff in Ha. destruct Ha as [Hc Ha].
  rewrite Hc, (IH Ha). reflexivity.
Qed.

Lemma span_head_fails (p : ascii -> bool) (s : string) :
  head_is p s = false -> span p s = (EmptyString, s).
Proof.
  destruct s as [| c s]; simpl; intros H; [reflexivity | rewrite H; reflexivity].
Qed.

Lemma span_sound (p : ascii -> bool) (s a b : string) :
  span p s = (a, b) -> s = a ++ b /\ every p a = true /\ head_is p b = false.
Proof.
  revert a b. induction s as [| c s IH]; simpl; intros a b H.
  - inversion H; subst. auto.
  - destruct (p c) eqn:Hc.
    + destruct (span p s) as [a' b'] eqn:E. inversion H; subst.
      destruct (IH a' b eq_refl) as (-> & Ha & Hb).
      simpl. rewrite Hc. auto.
    + inversion H; subst. simpl. auto.
Qed.

Lemma search_found {A : Type} (m : string -> option A) (s : string) (r : A) :
  m s = Some r -> search m s = Some r.
Proof. intros H. destruct s; simpl; rewrite H; reflexivity. Qed.

Lemma search_skip {A : Type} (m : string -> option A) (c : ascii) (s : string) :
  m (String c s) = None -> search m (String c s) = search m s.
Proof. intros H. simpl. rewrite H. reflexivity. Qed.

Lemma head_is_app_nonempty (p : ascii -> bool) (a b : string) :
  nonempty a = true -> head_is p (a ++ b) = head_is p a.
Proof. destruct a; simpl; [discriminate | reflexivity]. Qed.

Lemma head_every (p q : ascii -> bool) (a : string) :
  (forall c, p c = true -> q c = false) ->
  every p a = true -> head_is q a = false.
Proof.
  intros Hpq. destruct a as [| c a]; simpl; [reflexivity |].
  intros H. apply andb_true_iff in H. destruct H as [Hc _]. auto.
Qed.

(** [/[A-Z]+/] on letters followed by text that does not start with a
    capital: the letters. *)
Lemma letters_at_run (l rest : string) :
  nonempty l = true -> every is_upper l = true -> head_is is_upper rest = false ->
  Regex.letters_at (l ++ rest) = Some (l, rest).
Proof.
  intros Hne Hl Hr. unfold Regex.letters_at.
  rewrite (span_app _ _ _ Hl Hr), Hne. reflexivity.
Qed.

Lemma digits_at_run (d rest : string) :
  nonempty d = true -> every is_digit d = true -> head_is is_digit rest = false ->
  Regex.digits_at (d ++ rest) = Some (d, rest).
Proof.
  intros Hne Hd Hr. unfold Regex.digits_at.
  rewrite (span_app _ _ _ Hd Hr), Hne. reflexivity.
Qed.

Lemma digits_at_fails (s : string) :
  head_is is_digit s = false -> Regex.digits_at s = None.
Proof.
  intros H. unfold Regex.digits_at. rewrite (span_head_fails _ _ H). reflexivity.
Qed.

Lemma letters_at_fails (s : string) :
  head_is is_upper s = false -> Regex.letters_at s = None.
Proof.
  intros H. unfold Regex.letters_at. rewrite (span_head_fails _ _ H). reflexivity.
Qed.

(** The search for [/\d+/] passes over a run of capitals. *)
Lemma first_digits_after_letters (l rest : string) :
  every is_upper l = true ->
  Regex.first_match Regex.digits_at (l ++ rest) = Regex.first_match Regex.digits_at rest.
Proof.
  unfold Regex.first_match.
  induction l as [| c l IH]; simpl append; intros Hl; [reflexivity |].
  simpl in Hl. apply andb_true_iff in Hl. destruct Hl as [Hc Hl].
  rewrite search_skip; [auto |].
  rewrite digits_at_fails; [reflexivity |].
  simpl. apply upper_not_digit. exact Hc.
Qed.

Lemma append_empty_r (s : string) : s ++ EmptyString = s.
Proof. induction s as [| c s IH]; simpl; [reflexivity | rewrite IH; reflexivity]. Qed.

Lemma append_assoc (a b c : string) : (a ++ b) ++ c = a ++ (b ++ c).
Proof. induction a as [| x a IH]; simpl; [reflexivity | rewrite IH; reflexivity]. Qed.

(** [parseCellId] on capitals followed by digits and then by text that
    starts with neither. *)
Lemma parseCellId_prefix (l d rest : string) :
  nonempty l = true -> every is_upper l = true ->
  nonempty d = true -> every is_digit d = true ->
  head_is is_digit rest = false ->
  parseCellId (l ++ d ++ rest) = Ok (l, parseInt d).
Proof.
  intros Hl Ul Hd Dd Hr. unfold parseCellId.
  assert (Hhead : head_is is_upper (d ++ rest) = false).
  { rewrite head_is_app_nonempty by exact Hd.
    apply (head_every is_digit); [apply digit_not_upper | exact Dd]. }
  unfold Regex.first_match at 1.
  rewrite (search_found _ _ l);
    [| rewrite (letters_at_run _ _ Hl Ul Hhead); reflexivity].
  cbn [first_of bind].
  rewrite first_digits_after_letters by exact Ul.
  unfold Regex.first_match.
  rewrite (search_found _ _ d);
    [| rewrite (digits_at_run _ _ Hd Dd Hr); reflexivity].
  reflexivity.
Qed.

Lemma parseCellId_letters_digits (l d : string) :
  nonempty l = true -> every is_upper l = true ->
  nonempty d = true -> every is_digit d = true ->
  parseCellId (l ++ d) = Ok (l, parseInt d).
Proof.
  intros Hl Ul Hd Dd.
  rewrite <- (append_empty_r d) at 1.
  apply parseCellId_prefix; auto.
Qed.

End Matching.

(** ** Cell ids *)

Section CellIds.

(** C9, as the script has it.  [parseCellId] splits a label made of capital
    letters followed by digits into the letters, returned as the column
    label itself (a string, not an index), and the number the digits
    denote; [parseCellId "B12"] is the pair of ["B"] and 12, and ["B"] is
    the header at index 1, counted from 0, of the generated headers. *)
Theorem parseCellId_label_and_row (col digits : string) :
  nonempty col = true -> every is_upper col = true ->
  nonempty digits = true -> every is_digit digits = true ->
  parseCellId (col ++ digits) = Ok (col, digits_value digits)
  /\ parseCellId_array (col ++ digits) = Ok [VString col; VNumber (of_N (digits_value digits))]
  /\ parseCellId "B12" = Ok ("B", 12%N)
  /\ nth_error columnHeaders 1 = Some "B".
Proof.
  intros Hl Ul Hd Dd.
  assert (H := parseCellId_letters_digits col digits Hl Ul Hd Dd).
  unfold parseCellId_array. rewrite H.
  repeat split; reflexivity.
Qed.

Lemma parseCellId_label_and_row_witness :
  parseCellId ("B" ++ "12") = Ok ("B", 12%N)
  /\ parseCellId_array ("B" ++ "12") = Ok [VString "B"; VNumber (of_N 12)].
Proof.
  destruct (parseCellId_label_and_row "B" "12") as (H1 & H2 & _);
    [reflexivity | reflexivity | reflexivity | reflexivity |].
  split; [exact H1 | exact H2].
Defined.

(** C9 as stated fails: the first component of [parseCellId "B12"] is the
    string ["B"], not the number 1. *)
Lemma parseCellId_column_is_not_an_index :
  parseCellId_array "B12" = Ok [VString "B"; VNumber (of_N 12)]
  /\ ~ (exists row, parseCellId_array "B12" = Ok [VNumber (of_N 1); row]).
Proof.
  split; [reflexivity |].
  intros [row H]. vm_compute in H. discriminate H.
Qed.

End CellIds.

(** ** The range function *)

Section SumRange.

Lemma fold_left_flat_map {A B C : Type} (f : A -> C -> A) (g : B -> list C)
    (l : list B) (a : A) :
  fold_left f (flat_map g l) a = fold_left (fun acc x => fold_left f (g x) acc) l a.
Proof.
  revert a. induction l as [| x l IH]; intros a; simpl; [reflexivity |].
  rewrite fold_left_app. apply IH.
Qed.

Lemma fold_left_map {A B C : Type} (f : A -> C -> A) (h : B -> C) (l : list B) (a : A) :
  fold_left f (List.map h l) a = fold_left (fun acc x => f acc (h x)) l a.
Proof.
  revert a. induction l as [| x l IH]; intros a; simpl; [reflexivity | apply IH].
Qed.

Lemma fold_left_ext_eq {A B : Type} (f g : A -> B -> A) (l : list B) (a : A) :
  (forall acc x, f acc x = g acc x) -> fold_left f l a = fold_left g l a.
Proof.
  intros H. revert a. induction l as [| x l IH]; intros a; simpl; [reflexivity |].
  rewrite H. apply IH.
Qed.

(** The two nested loops add one term for each id of [sumRange_lookups],
    in that order. *)
Lemma sumRange_fold (cells : store) (startCol : string) (startRow : N)
    (endCol : string) (endRow : N) :
  sumRange cells startCol startRow endCol endRow =
  fold_left (fun sum cellId => add sum (lookup_term cells cellId))
            (sumRange_lookups startCol startRow endCol endRow) zero.
Proof.
  unfold sumRange, sumRange_lookups.
  rewrite fold_left_flat_map.
  apply fold_left_ext_eq. intros acc row.
  rewrite fold_left_map. reflexivity.
Qed.

Lemma add_NaN_r (x : number) : add x NaN = NaN.
Proof. destruct x; reflexivity. Qed.

Lemma add_NaN_l (x : number) : add NaN x = NaN.
Proof. destruct x; reflexivity. Qed.

Lemma fold_add_NaN (cells : store) (ids : list string) :
  fold_left (fun sum cellId => add sum (lookup_term cells cellId)) ids NaN = NaN.
Proof.
  induction ids as [| id ids IH]; cbn [fold_left]; [reflexivity |].
  rewrite add_NaN_l. exact IH.
Qed.

Lemma lookup_term_missing (cells : store) (cellId : string) :
  get cells cellId = None -> lookup_term cells cellId = NaN.
Proof. intros H. unfold lookup_term. rewrite H. reflexivity. Qed.

(** C1, what the script does.  If one of the ids [sumRange] looks up has
    no record, the sum is [NaN]: [cells[cellId] || 0] is the number 0, whose
    [value] property is [undefined], and [parseFloat(undefined)] is [NaN]. *)
Theorem sumRange_unset_cell_is_NaN (cells : store) (startCol : string) (startRow : N)
    (endCol : string) (endRow : N) (cellId : string) :
  In cellId (sumRange_lookups startCol startRow endCol endRow) ->
  get cells cellId = None ->
  sumRange cells startCol startRow endCol endRow = NaN.
Proof.
  intros Hin Hnone. rewrite sumRange_fold.
  apply in_split in Hin. destruct Hin as (l1 & l2 & ->).
  rewrite fold_left_app. cbn [fold_left].
  rewrite (lookup_term_missing _ _ Hnone), add_NaN_r.
  apply fold_add_NaN.
Qed.

Lemma sumRange_unset_cell_is_NaN_witness :
  sumRange [("A1", literal "1"); ("A3", literal "3")] "A" 1 "A" 3 = NaN
  /\ sumRange [] "A" 1 "A" 3 = NaN
  /\ sumRange [("A1", literal "1"); ("A2", literal "2"); ("A3", literal "3")] "A" 1 "A" 3
     = of_Z 6.
Proof.
  split; [| split].
  - apply (sumRange_unset_cell_is_NaN _ "A" 1%N "A" 3%N "A2").
    + vm_compute. auto.
    + reflexivity.
  - apply (sumRange_unset_cell_is_NaN _ "A" 1%N "A" 3%N "A1").
    + vm_compute. auto.
    + reflexivity.
  - vm_compute. reflexivity.
Defined.

(** C10. The column loop runs over the character codes of the first
    characters of the two column labels only: for row numbers up to
    [MAX_SAFE_INTEGER], the ids looked up for labels [c1 r1] and [c2 r2]
    are the one-letter ids of the codes from [c1] to [c2], the sum is the
    same as for the one-letter labels [c1] and [c2], and [SUM(AA1:AB2)]
    looks up [A1] and [A2]. *)
Theorem sumRange_first_letter_only (c1 c2 : ascii) (r1 r2 : string) (startRow endRow : N) :
  safe_row startRow = true -> safe_row endRow = true ->
  sumRange_lookups (String c1 r1) startRow (String c2 r2) endRow
  = flat_map (fun row =>
                List.map (fun col => String (ascii_of_nat col) (digits_of row))
                         (seq (code c1) (S (code c2) - code c1)))
             (row_numbers startRow endRow)
  /\ sumRange_lookups (String c1 r1) startRow (String c2 r2) endRow
     = sumRange_lookups (String c1 EmptyString) startRow (String c2 EmptyString) endRow
  /\ (forall cells : store,
        sumRange cells (String c1 r1) startRow (String c2 r2) endRow
        = sumRange cells (String c1 EmptyString) startRow (String c2 EmptyString) endRow
        /\ sumRange cells (String c1 r1) startRow (String c2 r2) endRow
           = fold_left (fun sum cellId => add sum (lookup_term cells cellId))
               (sumRange_lookups (String c1 r1) startRow (String c2 r2) endRow) zero)
  /\ sumRange_lookups "AA" 1 "AB" 2 = ["A1"; "A2"]
  /\ (forall cells : store,
        evaluateFunction cells "SUM(AA1:AB2)" "SUM"
        = Ok (VNumber (fold_left (fun sum cellId => add sum (lookup_term cells cellId))
                                 ["A1"; "A2"] zero))).
Proof.
  intros _ _.
  split; [reflexivity |].
  split; [reflexivity |].
  split; [intros cells; split; [reflexivity | apply sumRange_fold] |].
  split; [reflexivity |].
  intros cells.
  change (evaluateFunction cells "SUM(AA1:AB2)" "SUM")
    with (Ok (A := jsval) (VNumber (sumRange cells "AA" 1 "AB" 2))).
  rewrite sumRange_fold. reflexivity.
Qed.

Lemma sumRange_first_letter_only_witness :
  sumRange_lookups "BZ" 3 "DA" 4 = ["B3"; "C3"; "D3"; "B4"; "C4"; "D4"]
  /\ sumRange [("B3", literal "1"); ("C3", literal "2"); ("D3", literal "3");
               ("B4", literal "4"); ("C4", literal "5"); ("D4", literal "6");
               ("BZ3", literal "100"); ("DA4", literal "100")] "BZ" 3 "DA" 4
     = of_Z 21.
Proof.
  destruct (sumRange_first_letter_only "B" "D" "Z" "A" 3 4 eq_refl eq_refl)
    as (H1 & _ & H3 & _).
  split; [rewrite H1; reflexivity |].
  rewrite (proj2 (H3 _)), H1. vm_compute. reflexivity.
Defined.

End SumRange.

(** ** The evaluator returns *)

Section EvaluatorReturns.

Lemma every_app (p : ascii -> bool) (a b : string) :
  every p (a ++ b) = every p a && every p b.
Proof.
  induction a as [| c a IH]; simpl; [reflexivity |].
  rewrite IH, andb_assoc. reflexivity.
Qed.

Lemma every_weaken (p q : ascii -> bool) (s : string) :
  (forall c, p c = true -> q c = true) -> every p s = true -> every q s = true.
Proof.
  intros Hpq. induction s as [| c s IH]; simpl; [reflexivity |].
  intros H. apply andb_true_iff in H. destruct H as [Hc Hs].
  rewrite (Hpq _ Hc), (IH Hs). reflexivity.
Qed.

Lemma cell_label_alnum (m : string) : cell_label m -> every is_alnum m = true.
Proof.
  intros (l & d & -> & _ & Ul & _ & Dd). rewrite every_app.
  apply andb_true_iff. split.
  - apply (every_weaken is_upper); [| exact Ul].
    intros c Hc. unfold is_alnum. rewrite Hc. reflexivity.
  - apply (every_weaken is_digit); [| exact Dd].
    intros c Hc. unfold is_alnum. rewrite Hc. apply orb_true_r.
Qed.

Lemma cell_label_parses (m : string) : cell_label m -> parses m.
Proof.
  intros (l & d & -> & Hl & Ul & Hd & Dd).
  exists l, (parseInt d). apply parseCellId_letters_digits; assumption.
Qed.

Lemma nonempty_app_l (a b : string) : nonempty a = true -> nonempty (a ++ b) = true.
Proof. destruct a; simpl; [discriminate | reflexivity]. Qed.

(** What an anchored match of [/[A-Z]+\d+/] returns. *)
Lemma cellref_at_sound (s m r : string) :
  Regex.cellref_at s = Some (m, r) ->
  cell_label m /\ s = m ++ r /\ head_is is_digit r = false.
Proof.
  unfold Regex.cellref_at, Regex.letters_at, Regex.digits_at.
  destruct (span is_upper s) as [l r1] eqn:El.
  destruct (nonempty l) eqn:Hl; [| discriminate].
  destruct (span is_digit r1) as [d r2] eqn:Ed.
  destruct (nonempty d) eqn:Hd; [| discriminate].
  intros H. inversion H; subst.
  apply span_sound in El. destruct El as (-> & Ul & _).
  apply span_sound in Ed. destruct Ed as (-> & Dd & Hr).
  split; [exists l, d; auto |].
  split; [symmetry; apply append_assoc | exact Hr].
Qed.

Lemma cellref_at_label (m rest : string) :
  cell_label m -> head_is is_digit rest = false ->
  Regex.cellref_at (m ++ rest) = Some (m, rest).
Proof.
  intros (l & d & -> & Hl & Ul & Hd & Dd) Hr.
  unfold Regex.cellref_at. rewrite append_assoc.
  rewrite letters_at_run; [| exact Hl | exact Ul |].
  - rewrite digits_at_run by assumption. reflexivity.
  - rewrite head_is_app_nonempty by exact Hd.
    apply (head_every is_digit); [apply digit_not_upper | exact Dd].
Qed.

(** Every reference the global match finds is a cell label. *)
Lemma scan_cell_labels (s : string) :
  forall skip, Forall cell_label (Regex.scan Regex.cellref_at skip s).
Proof.
  induction s as [| c s IH]; intros skip; simpl; [constructor |].
  destruct skip as [| k]; [| apply IH].
  destruct (Regex.cellref_at (String c s)) as [[m r] |] eqn:E; [| apply IH].
  constructor; [| apply IH].
  apply cellref_at_sound in E. tauto.
Qed.

Lemma substitute_references_returns (cells : store) (refs : list string) :
  Forall cell_label refs ->
  forall e, exists e', fold_left (substitute_reference cells) refs (Ok e) = Ok e'.
Proof.
  induction 1 as [| m refs Hm _ IH]; intros e; simpl; [eauto |].
  destruct (cell_label_parses _ Hm) as (col & row & Hp).
  rewrite Hp. cbn [bind]. apply IH.
Qed.

Lemma search_sound {A : Type} (m : string -> option A) (s : string) (r : A) :
  search m s = Some r -> exists t, m t = Some r.
Proof.
  induction s as [| c s IH]; simpl.
  - destruct (m EmptyString) eqn:E; [| discriminate].
    intros H; inversion H; subst. eauto.
  - destruct (m (String c s)) eqn:E.
    + intros H; inversion H; subst. eauto.
    + exact IH.
Qed.

Lemma char_at_sound (c : ascii) (s r : string) :
  Regex.char_at c s = Some r -> s = String c r.
Proof.
  destruct s as [| c' s]; simpl; [discriminate |].
  destruct (Ascii.eqb c' c) eqn:E; [| discriminate].
  apply Ascii.eqb_eq in E. intros H; inversion H; subst. reflexivity.
Qed.

Lemma range_at_sound (s rg r : string) :
  Regex.range_at s = Some (rg, r) ->
  exists a b, rg = a ++ String ":" b /\ cell_label a /\ cell_label b.
Proof.
  unfold Regex.range_at.
  destruct (Regex.cellref_at s) as [[a r0] |] eqn:Ea; [| discriminate].
  destruct (Regex.char_at ":" r0) as [r1 |] eqn:Ec; [| discriminate].
  destruct (Regex.cellref_at r1) as [[b r2] |] eqn:Eb; [| discriminate].
  intros H; inversion H; subst.
  apply cellref_at_sound in Ea. apply cellref_at_sound in Eb.
  exists a, b. simpl. tauto.
Qed.

(** What an anchored match of the function pattern returns. *)
Lemma function_at_sound (s fm r : string) :
  Regex.function_at s = Some (fm, r) ->
  exists name a b, fm = call_text name a b
                   /\ nonempty name = true /\ every is_upper name = true
                   /\ cell_label a /\ cell_label b.
Proof.
  unfold Regex.function_at, Regex.letters_at.
  destruct (span is_upper s) as [name r0] eqn:En.
  destruct (nonempty name) eqn:Hn; [| discriminate].
  destruct (Regex.char_at "(" r0) as [r1 |] eqn:Ec; [| discriminate].
  destruct (Regex.range_at r1) as [[rg r2] |] eqn:Er; [| discriminate].
  destruct (Regex.char_at ")" r2) as [r3 |] eqn:Ed; [| discriminate].
  intros H; inversion H; subst.
  apply span_sound in En. destruct En as (_ & Un & _).
  apply range_at_sound in Er. destruct Er as (a & b & -> & La & Lb).
  exists name, a, b. unfold call_text. simpl.
  rewrite append_assoc. simpl. auto.
Qed.

Lemma first_function_sound (expression fm : string) :
  Regex.first_match Regex.function_at expression = Some fm ->
  exists name a b, fm = call_text name a b
                   /\ nonempty name = true /\ every is_upper name = true
                   /\ cell_label a /\ cell_label b.
Proof.
  unfold Regex.first_match. intros H.
  apply search_sound in H. destruct H as [t Ht].
  destruct (Regex.function_at t) as [[fm' r] |] eqn:E; [| discriminate].
  simpl in Ht. inversion Ht; subst.
  eapply function_at_sound. exact E.
Qed.

Lemma range_at_call_tail (a b : string) :
  cell_label a -> cell_label b ->
  Regex.range_at (a ++ String ":" (b ++ String ")" EmptyString))
  = Some (a ++ String ":" b, String ")" EmptyString).
Proof.
  intros La Lb. unfold Regex.range_at.
  rewrite (cellref_at_label a _ La) by reflexivity.
  cbn [Regex.char_at]. rewrite Ascii.eqb_refl.
  rewrite (cellref_at_label b _ Lb) by reflexivity.
  reflexivity.
Qed.

Lemma range_at_not_at_paren (rest : string) :
  Regex.range_at (String "(" rest) = None.
Proof. reflexivity. Qed.

Lemma range_at_not_in_name (name rest : string) :
  nonempty name = true -> every is_upper name = true ->
  Regex.range_at (name ++ String "(" rest) = None.
Proof.
  intros Hn Un. unfold Regex.range_at, Regex.cellref_at.
  rewrite letters_at_run; [| exact Hn | exact Un | reflexivity].
  rewrite digits_at_fails by reflexivity. reflexivity.
Qed.

(** The range inside the text of a call is found after the name. *)
Lemma first_range_in_call (name a b : string) :
  every is_upper name = true -> cell_label a -> cell_label b ->
  Regex.first_match Regex.range_at (call_text name a b) = Some (a ++ String ":" b).
Proof.
  intros Un La Lb. unfold Regex.first_match, call_text.
  induction name as [| c name IH]; simpl append.
  - destruct a as [| x a'] eqn:Ea.
    + destruct La as (l & d & E & Hl & _). destruct l; discriminate.
    + rewrite <- Ea in *. clear Ea.
      rewrite search_skip by (rewrite range_at_not_at_paren; reflexivity).
      apply search_found. rewrite range_at_call_tail by assumption. reflexivity.
  - rewrite search_skip.
    + apply IH. simpl in Un. apply andb_true_iff in Un. tauto.
    + change (String c (name ++ String "(" (a ++ String ":" (b ++ String ")" EmptyString))))
        with ((String c name) ++ String "(" (a ++ String ":" (b ++ String ")" EmptyString))).
      rewrite range_at_not_in_name; [reflexivity | reflexivity | exact Un].
Qed.

Lemma split_before (sep : ascii) (p : ascii -> bool) (a rest : string) :
  p sep = false -> every p a = true ->
  split sep (a ++ String sep rest) = a :: split sep rest.
Proof.
  intros Hsep. induction a as [| c a IH]; simpl; intros Ha.
  - rewrite Ascii.eqb_refl. reflexivity.
  - apply andb_true_iff in Ha. destruct Ha as [Hc Ha].
    destruct (Ascii.eqb c sep) eqn:E.
    + apply Ascii.eqb_eq in E. subst. congruence.
    + rewrite (IH Ha). reflexivity.
Qed.

Lemma split_none (sep : ascii) (p : ascii -> bool) (a : string) :
  p sep = false -> every p a = true -> split sep a = [a].
Proof.
  intros Hsep. induction a as [| c a IH]; simpl; intros Ha; [reflexivity |].
  apply andb_true_iff in Ha. destruct Ha as [Hc Ha].
  destruct (Ascii.eqb c sep) eqn:E.
  - apply Ascii.eqb_eq in E. subst. congruence.
  - rewrite (IH Ha). reflexivity.
Qed.

Lemma evaluateFunction_call (cells : store) (name a b functionName : string) :
  every is_upper name = true -> cell_label a -> cell_label b ->
  exists v, evaluateFunction cells (call_text name a b) functionName = Ok v.
Proof.
  intros Un La Lb. unfold evaluateFunction.
  rewrite first_range_in_call by assumption. cbn [first_of bind].
  rewrite (split_before ":" is_alnum) by (reflexivity || apply cell_label_alnum; exact La).
  rewrite (split_none ":" is_alnum) by (reflexivity || apply cell_label_alnum; exact Lb).
  destruct (cell_label_parses _ La) as (ca & ra & ->).
  destruct (cell_label_parses _ Lb) as (cb & rb & ->).
  cbn [bind].
  destruct (own_property SUPPORTED_FUNCTIONS functionName); eauto.
Qed.

Lemma find_first_absent (p : ascii -> bool) (c : ascii) (s : string) :
  p c = false -> every p s = true -> find_first (String c EmptyString) s = None.
Proof.
  intros Hc. induction s as [| x s IH]; simpl; intros Hs; [reflexivity |].
  apply andb_true_iff in Hs. destruct Hs as [Hx Hs].
  destruct (Ascii.ascii_dec c x) as [-> | Hne]; [congruence |].
  destruct (Ascii.ascii_dec x c) as [-> | _]; [congruence |].
  destruct (Ascii.ascii_dec c x); [congruence |].
  rewrite (IH Hs). reflexivity.
Qed.

(** The name the evaluator extracts from the text of a call. *)
Lemma function_name_of_call (name a b : string) :
  every is_upper name = true ->
  replace (hd EmptyString (split "(" (call_text name a b))) "=" "" = name.
Proof.
  intros Un. unfold call_text.
  rewrite (split_before "(" is_upper) by (reflexivity || exact Un).
  cbn [hd]. unfold replace.
  rewrite (find_first_absent is_upper) by (reflexivity || exact Un).
  reflexivity.
Qed.

End EvaluatorReturns.

(** ** The evaluator's results *)

Section Evaluator.

Variable js_eval : string -> completion.

Lemma supported_is_SUM (name : string) :
  hasOwnProperty SUPPORTED_FUNCTIONS name = String.eqb "SUM" name.
Proof.
  unfold hasOwnProperty, SUPPORTED_FUNCTIONS. cbn [own_property].
  destruct (String.eqb "SUM" name); reflexivity.
Qed.

(** The substitution always returns; it returns no text exactly when the
    expression calls a function other than [SUM]. *)
Lemma substituted_returns (cells : store) (expression : string) :
  exists text, substituted cells expression = Ok text
    /\ (text = None <->
        exists name, called_function expression = Some name /\ name <> "SUM").
Proof.
  unfold substituted, called_function.
  destruct (Regex.first_match Regex.function_at expression) as [fm |] eqn:Ef.
  - cbn [option_map]. rewrite supported_is_SUM.
    destruct (String.eqb "SUM" _) eqn:Es.
    + destruct (first_function_sound _ _ Ef) as (name & a & b & -> & _ & Un & La & Lb).
      destruct (evaluateFunction_call cells name a b
                  (replace (hd EmptyString (split "(" (call_text name a b))) "=" "")
                  Un La Lb) as [v ->].
      cbn [bind]. eexists. split; [reflexivity |].
      split; [discriminate |].
      intros (n & Hn & Hne). inversion Hn; subst.
      apply String.eqb_eq in Es. congruence.
    + exists None. split; [reflexivity |].
      split; [| reflexivity]. intros _. eexists. split; [reflexivity |].
      apply String.eqb_neq in Es. congruence.
  - destruct (substitute_references_returns cells _
                (scan_cell_labels expression 0) expression) as [e' He'].
    unfold Regex.match_all. rewrite He'. cbn [bind].
    eexists. split; [reflexivity |].
    split; [discriminate |].
    intros (n & Hn & _). discriminate Hn.
Qed.

Lemma evaluateExpression_returns (cells : store) (expression : string) :
  exists v, evaluateExpression js_eval cells expression = Ok v.
Proof.
  unfold evaluateExpression.
  destruct (substituted_returns cells expression) as (text & -> & _).
  cbn [bind]. destruct text; eauto.
Qed.

(** C2, what the script does.  A reference to a cell that has no record
    is replaced by the text [undefined] ([cells[cellId] || 0] is the number
    0, which has no [value]); ["Z99+1"] becomes ["undefined+1"], whose value
    is [NaN], and the evaluator returns [""]. *)
Theorem evaluateExpression_unset_reference (cells : store)
    (cellReference refCol : string) (refRow : N) :
  evaluates_arithmetic js_eval ->
  parseCellId cellReference = Ok (refCol, refRow) ->
  get cells (refCol ++ digits_of refRow) = None ->
  get cells "Z99" = None ->
  (forall expression,
      substitute_reference cells (Ok expression) cellReference
      = Ok (replace expression cellReference "undefined"))
  /\ substituted cells "Z99+1" = Ok (Some "undefined+1")
  /\ evaluateExpression js_eval cells "Z99+1" = Ok (VString "").
Proof.
  intros Hev Hparse Hunset Hnone.
  assert (Hstep : forall ref col row expression,
             parseCellId ref = Ok (col, row) ->
             get cells (col ++ digits_of row) = None ->
             substitute_reference cells (Ok expression) ref
             = Ok (replace expression ref "undefined")).
  { intros ref col row e Hp Hg. unfold substitute_reference. cbn [bind].
    rewrite Hp. cbn [bind]. rewrite Hg. reflexivity. }
  assert (Hsub : substituted cells "Z99+1" = Ok (Some "undefined+1")).
  { unfold substituted.
    change (Regex.first_match Regex.function_at "Z99+1") with (@None string).
    change (Regex.match_all Regex.cellref_at "Z99+1") with ["Z99"].
    cbn [fold_left]. rewrite (Hstep "Z99" "Z" 99%N) by (reflexivity || exact Hnone).
    reflexivity. }
  split; [intros e; eapply Hstep; eassumption |]. split; [exact Hsub |].
  unfold evaluateExpression. rewrite Hsub. cbn [bind].
  unfold evaluate_text. rewrite (Hev "undefined+1" (VNumber NaN)) by reflexivity.
  reflexivity.
Qed.

End Evaluator.

Lemma arith_only_evaluates_arithmetic : evaluates_arithmetic arith_only.
Proof. intros s v H. unfold arith_only. rewrite H. reflexivity. Qed.

Lemma evaluateExpression_unset_reference_witness :
  substituted [] "Z99+1" = Ok (Some "undefined+1")
  /\ evaluateExpression arith_only [] "Z99+1" = Ok (VString "").
Proof.
  destruct (evaluateExpression_unset_reference arith_only [] "Z99" "Z" 99%N
              arith_only_evaluates_arithmetic eq_refl eq_refl eq_refl) as (_ & H1 & H2).
  split; [exact H1 | exact H2].
Defined.

(** ** The cell table *)

Section Store.

Lemma get_set_same (cells : store) (k : string) (c : cell) :
  get (set cells k c) k = Some c.
Proof.
  induction cells as [| [k' c'] rest IH]; simpl.
  - rewrite String.eqb_refl. reflexivity.
  - destruct (String.eqb k' k) eqn:E; simpl; rewrite E; [reflexivity | exact IH].
Qed.

Lemma get_set_other (cells : store) (k k' : string) (c : cell) :
  k <> k' -> get (set cells k c) k' = get cells k'.
Proof.
  intros Hne. induction cells as [| [k0 c0] rest IH]; simpl.
  - apply String.eqb_neq in Hne. rewrite Hne. reflexivity.
  - destruct (String.eqb k0 k) eqn:E; simpl.
    + apply String.eqb_eq in E. subst k0.
      apply String.eqb_neq in Hne. rewrite Hne. reflexivity.
    + destruct (String.eqb k0 k'); [reflexivity | exact IH].
Qed.

Lemma get_app_not_in (done rest : store) (k : string) :
  ~ In k (keys done) -> get (done ++ rest)%list k = get rest k.
Proof.
  induction done as [| [k0 c0] done IH]; simpl; intros Hnin; [reflexivity |].
  destruct (String.eqb k0 k) eqn:E.
  - apply String.eqb_eq in E. tauto.
  - apply IH. tauto.
Qed.

Lemma set_app_not_in (done rest : store) (k : string) (c : cell) :
  ~ In k (keys done) -> set (done ++ rest)%list k c = (done ++ set rest k c)%list.
Proof.
  induction done as [| [k0 c0] done IH]; simpl; intros Hnin; [reflexivity |].
  destruct (String.eqb k0 k) eqn:E.
  - apply String.eqb_eq in E. tauto.
  - rewrite IH by tauto. reflexivity.
Qed.

Lemma get_some_in_keys (cells : store) (k : string) (c : cell) :
  get cells k = Some c -> In k (keys cells).
Proof.
  induction cells as [| [k0 c0] rest IH]; simpl; [discriminate |].
  destruct (String.eqb k0 k) eqn:E.
  - apply String.eqb_eq in E. auto.
  - auto.
Qed.

Lemma keys_set_present (cells : store) (k : string) (c : cell) :
  In k (keys cells) -> keys (set cells k c) = keys cells.
Proof.
  induction cells as [| [k0 c0] rest IH]; simpl; [tauto |].
  destruct (String.eqb k0 k) eqn:E; [reflexivity |].
  intros [-> | Hin]; [rewrite String.eqb_refl in E; discriminate |].
  simpl. rewrite (IH Hin). reflexivity.
Qed.

Lemma keys_set_absent (cells : store) (k : string) (c : cell) :
  ~ In k (keys cells) -> set cells k c = (cells ++ [(k, c)])%list.
Proof.
  induction cells as [| [k0 c0] rest IH]; simpl; [reflexivity |].
  intros Hnin. destruct (String.eqb k0 k) eqn:E.
  - apply String.eqb_eq in E. tauto.
  - rewrite IH by tauto. reflexivity.
Qed.

Lemma includes_empty (cellId : string) :
  nonempty cellId = true -> includes EmptyString cellId = false.
Proof. destruct cellId; [discriminate | reflexivity]. Qed.

End Store.

(** ** What an update leaves alone *)

Section Frame.

Variable js_eval : string -> completion.

(** One round of the loop writes at most the record of its own key, and
    only when that record's formula contains the updated id. *)
Lemma update_one_frame (updated : string) (p : page) (k : string) :
  forall k' r,
    get (cells p) k' = Some r ->
    depends_on updated r = false ->
    get (cells (fst (update_one js_eval updated p k))) k' = Some r.
Proof.
  intros k' r Hget Hdep. unfold update_one.
  destruct (get (cells p) k) as [record |] eqn:Ek; [| exact Hget].
  destruct (formula record) as [f |] eqn:Ef; [| exact Hget].
  destruct (includes f updated) eqn:Ei; [| exact Hget].
  destruct (bind (parseCellId k) _) as [v |]; [| exact Hget].
  cbn [fst write_text write_cell cells].
  destruct (String.eqb k k') eqn:E.
  - apply String.eqb_eq in E. subst k'.
    rewrite Hget in Ek. inversion Ek; subst.
    unfold depends_on in Hdep. rewrite Ef in Hdep. congruence.
  - apply String.eqb_neq in E. rewrite get_set_other by exact E. exact Hget.
Qed.

Lemma for_each_frame (updated : string) (ks : list string) :
  forall p k' r,
    get (cells p) k' = Some r ->
    depends_on updated r = false ->
    get (cells (fst (for_each (update_one js_eval updated) p ks))) k' = Some r.
Proof.
  induction ks as [| k ks IH]; intros p k' r Hget Hdep; [exact Hget |].
  cbn [for_each].
  pose proof (update_one_frame updated p k k' r Hget Hdep) as H1.
  destruct (update_one js_eval updated p k) as [p1 [[] |]]; cbn [fst] in *.
  - apply IH; assumption.
  - exact H1.
Qed.

Lemma updateDependentCells_frame (updated : string) (p : page) (k' : string) (r : cell) :
  get (cells p) k' = Some r ->
  depends_on updated r = false ->
  get (cells (fst (updateDependentCells js_eval updated p))) k' = Some r.
Proof. apply for_each_frame. Qed.

(** One round of the loop keeps the [formula] of every record. *)
Lemma update_one_formula (updated : string) (p : page) (k : string) :
  forall k',
    option_map formula (get (cells (fst (update_one js_eval updated p k))) k')
    = option_map formula (get (cells p) k').
Proof.
  intros k'. unfold update_one.
  destruct (get (cells p) k) as [record |] eqn:Ek; [| reflexivity].
  destruct (formula record) as [f |] eqn:Ef; [| reflexivity].
  destruct (includes f updated); [| reflexivity].
  destruct (bind (parseCellId k) _) as [v |]; [| reflexivity].
  cbn [fst write_text write_cell cells].
  destruct (String.eqb k k') eqn:E.
  - apply String.eqb_eq in E. subst k'.
    rewrite get_set_same, Ek. cbn [option_map formula]. congruence.
  - apply String.eqb_neq in E. rewrite get_set_other by exact E. reflexivity.
Qed.

Lemma for_each_formula (updated : string) (ks : list string) :
  forall p k',
    option_map formula (get (cells (fst (for_each (update_one js_eval updated) p ks))) k')
    = option_map formula (get (cells p) k').
Proof.
  induction ks as [| k ks IH]; intros p k'; [reflexivity |].
  cbn [for_each].
  pose proof (update_one_formula updated p k k') as H1.
  destruct (update_one js_eval updated p k) as [p1 [[] |]]; cbn [fst] in *.
  - rewrite IH. exact H1.
  - exact H1.
Qed.

(** The page after the handler has stored the edited cell's own record,
    before the dependent cells are updated. *)
Lemma evaluateFormula_unfold (cellId innerText : string) (p : page) :
  let formula := toUpperCase (trim innerText) in
  evaluateFormula js_eval cellId innerText p =
  if startsWith formula "=" then
    match evaluateExpression js_eval (cells p) (substring_from 1 formula) with
    | Ok v =>
        updateDependentCells js_eval cellId
          (write_text cellId v (write_cell cellId (recomputed formula v) p))
    | TypeError => (p, TypeError)
    end
  else updateDependentCells js_eval cellId (write_cell cellId (literal formula) p).
Proof.
  cbv zeta. unfold evaluateFormula.
  destruct (startsWith (toUpperCase (trim innerText)) "="); [| reflexivity].
  destruct (evaluateExpression js_eval (cells p) _); reflexivity.
Qed.

End Frame.

(** ** Tables and notifications *)

Section Tables.

Lemma page_eta (p : page) : p = {| cells := cells p; rendered := rendered p |}.
Proof. destruct p; reflexivity. Qed.

Lemma keys_app (a b : store) : keys (a ++ b)%list = (keys a ++ keys b)%list.
Proof. unfold keys. apply map_app. Qed.

Lemma notifications_cons_skip (updated : string) (k : string) (r : cell) (rest : store) :
  depends_on updated r = false ->
  notifications updated ((k, r) :: rest) = notifications updated rest.
Proof. intros H. unfold notifications. cbn [filter snd]. rewrite H. reflexivity. Qed.

Lemma notifications_cons_dep (updated : string) (k : string) (r : cell) (rest : store) :
  depends_on updated r = true ->
  notifications updated ((k, r) :: rest) = (k, value r) :: notifications updated rest.
Proof. intros H. unfold notifications. cbn [filter snd]. rewrite H. reflexivity. Qed.

Lemma NoDup_keys_set (cells : store) (k : string) (c : cell) :
  NoDup (keys cells) -> NoDup (keys (set cells k c)).
Proof.
  intros Hnd. destruct (in_dec string_dec k (keys cells)) as [Hin | Hnin].
  - rewrite keys_set_present by exact Hin. exact Hnd.
  - rewrite keys_set_absent by exact Hnin. rewrite keys_app. cbn [keys List.map fst].
    apply NoDup_app; [exact Hnd | repeat constructor; intros [] |].
    intros x Hx [<- | []]. exact (Hnin Hx).
Qed.

Lemma well_formed_set (cells : store) (k : string) (c : cell) :
  well_formed cells -> formula c <> None -> parses k ->
  well_formed (set cells k c).
Proof.
  intros [Hnd Hall] Hf Hp. split; [apply NoDup_keys_set; exact Hnd |].
  clear Hnd. induction Hall as [| [k0 c0] rest Hx Hrest IH]; cbn [set].
  - constructor; [split; assumption | constructor].
  - destruct (String.eqb k0 k) eqn:E.
    + constructor; [split; [exact Hf | exact (proj2 Hx)] | exact Hrest].
    + constructor; [exact Hx | exact IH].
Qed.

Lemma NoDup_get (cells : store) (k : string) (r : cell) :
  NoDup (keys cells) -> In (k, r) cells -> get cells k = Some r.
Proof.
  induction cells as [| [k0 c0] rest IH]; cbn [keys List.map fst get]; intros Hnd Hin.
  - destruct Hin.
  - inversion Hnd as [| ? ? Hnin Hnd']; subst.
    destruct Hin as [E | Hin].
    + inversion E; subst. rewrite String.eqb_refl. reflexivity.
    + destruct (String.eqb k0 k) eqn:E.
      * apply String.eqb_eq in E. subst k0. exfalso. apply Hnin.
        apply (in_map fst) in Hin. exact Hin.
      * apply IH; assumption.
Qed.

Lemma get_in (cells : store) (k : string) (r : cell) :
  get cells k = Some r -> In (k, r) cells.
Proof.
  induction cells as [| [k0 c0] rest IH]; cbn [get]; [discriminate |].
  destruct (String.eqb k0 k) eqn:E.
  - apply String.eqb_eq in E. subst k0. intros H; inversion H; subst. left. reflexivity.
  - intros H. right. apply IH. exact H.
Qed.

Lemma in_notifications (updated : string) (cells : store) (k : string) (v : jsval) :
  In (k, v) (notifications updated cells) <->
  exists r, In (k, r) cells /\ depends_on updated r = true /\ value r = v.
Proof.
  unfold notifications. rewrite in_map_iff. split.
  - intros ([k0 r] & E & Hin). cbn [fst snd] in E. inversion E; subst.
    apply filter_In in Hin. cbn [snd] in Hin. exists r. tauto.
  - intros (r & Hin & Hdep & <-). exists (k, r). split; [reflexivity |].
    apply filter_In. cbn [snd]. tauto.
Qed.

Lemma notifications_keys (updated : string) (cells : store) (k : string) :
  In k (List.map fst (notifications updated cells)) -> In k (keys cells).
Proof.
  rewrite in_map_iff. intros ([k0 v] & E & Hin). cbn [fst] in E. subst k0.
  apply in_notifications in Hin. destruct Hin as (r & Hin & _).
  apply (in_map fst) in Hin. exact Hin.
Qed.

Lemma NoDup_notifications (updated : string) (cells : store) :
  NoDup (keys cells) -> NoDup (List.map fst (notifications updated cells)).
Proof.
  induction cells as [| [k r] rest IH]; cbn [keys List.map fst]; intros Hnd.
  - constructor.
  - inversion Hnd as [| ? ? Hnin Hnd']; subst.
    destruct (depends_on updated r) eqn:E.
    + rewrite notifications_cons_dep by exact E. cbn [List.map fst].
      constructor; [| apply IH; exact Hnd'].
      intros Hin. apply Hnin. eapply notifications_keys. exact Hin.
    + rewrite notifications_cons_skip by exact E. apply IH. exact Hnd'.
Qed.

(** [table_at] at a key of the old table: the records before it from
    the new table, the others from the old one. *)
Lemma table_at_split (k : string) (r : cell) (before after : store) :
  forall new : store,
    ~ In k (keys before) ->
    keys new = keys (before ++ (k, r) :: after)%list ->
    table_at k (before ++ (k, r) :: after)%list new
    = (firstn (List.length before) new ++ (k, r) :: after)%list.
Proof.
  induction before as [| [k0 r0] before IH]; intros new Hnin Hkeys.
  - cbn [app List.length firstn table_at]. destruct new as [| [k1 r1] new'];
      [reflexivity |]. rewrite String.eqb_refl. reflexivity.
  - destruct new as [| [k1 r1] new']; [discriminate Hkeys |].
    cbn [app keys List.map fst] in Hkeys. inversion Hkeys; subst k1.
    cbn [app List.length firstn table_at].
    destruct (String.eqb k0 k) eqn:E.
    + apply String.eqb_eq in E. subst k0. elim Hnin. left. reflexivity.
    + f_equal. apply IH.
      * intros Hin. apply Hnin. right. exact Hin.
      * assumption.
Qed.

End Tables.

(** ** The update of dependent cells *)

Section Propagation.

Variable js_eval : string -> completion.

(** The loop over the keys still to visit, [done] being the part of the
    table already visited: it returns, keeps the keys, and for each record
    either leaves it or replaces its value by the value of its formula in
    the table as it is at that moment (the records before it as the loop
    leaves them, the record itself and those after it as they were). *)
Lemma for_each_pass (updated : string) (todo : store) :
  forall (done : store) (rend : list (string * jsval)),
    NoDup (keys (done ++ todo)%list) ->
    Forall (fun kc => formula (snd kc) <> None /\ parses (fst kc)) todo ->
    exists todo',
      for_each (update_one js_eval updated)
               {| cells := (done ++ todo)%list; rendered := rend |} (keys todo)
      = ({| cells := (done ++ todo')%list;
            rendered := (rend ++ notifications updated todo')%list |}, Ok tt)
      /\ keys todo' = keys todo
      /\ forall before k r after,
          todo = (before ++ (k, r) :: after)%list ->
          if depends_on updated r then
            exists f v,
              formula r = Some f
              /\ evaluateExpression js_eval
                   (done ++ firstn (List.length before) todo' ++ (k, r) :: after)%list
                   (substring_from 1 f) = Ok v
              /\ get (done ++ todo')%list k = Some (recomputed f v)
          else get (done ++ todo')%list k = Some r.
Proof.
  induction todo as [| [k r] todo IH]; intros done rend Hnd Hok.
  - exists []. cbn [keys List.map for_each notifications filter].
    rewrite !app_nil_r. split; [reflexivity |]. split; [reflexivity |].
    intros before k r after H. destruct before; discriminate H.
  - inversion Hok as [| ? ? [Hf Hp] Hok']; subst. cbn [fst snd] in Hf, Hp.
    assert (Hnin : ~ In k (keys done)).
    { rewrite keys_app in Hnd. apply NoDup_remove_2 in Hnd.
      intros Hin. apply Hnd. apply in_or_app. left. exact Hin. }
    assert (Hget : get (done ++ (k, r) :: todo)%list k = Some r).
    { rewrite get_app_not_in by exact Hnin. cbn [get]. rewrite String.eqb_refl. reflexivity. }
    destruct (formula r) as [f |] eqn:Ef; [| congruence].
    destruct Hp as (col & row & Hparse).
    cbn [keys List.map fst for_each]. unfold update_one at 1. cbn [cells].
    rewrite Hget, Ef.
    destruct (includes f updated) eqn:Ei.
    + (* the record depends on the updated cell *)
      rewrite Hparse. cbn [bind].
      destruct (evaluateExpression_returns js_eval (done ++ (k, r) :: todo)%list
                  (substring_from 1 f)) as [v Hv].
      rewrite Hv. unfold write_text, write_cell. cbn [cells rendered].
      rewrite set_app_not_in by exact Hnin. cbn [set]. rewrite String.eqb_refl.
      destruct (IH (done ++ [(k, recomputed f v)])%list (rend ++ [(k, v)])%list)
        as (todo' & Hrun & Hkeys & Hpos).
      { rewrite <- app_assoc. rewrite keys_app in *. exact Hnd. }
      { exact Hok'. }
      rewrite <- !app_assoc in Hrun. cbn [app] in Hrun.
      exists ((k, recomputed f v) :: todo').
      split.
      { fold (keys todo). unfold recomputed in *. rewrite Hrun.
        rewrite notifications_cons_dep
          by (unfold depends_on; cbn [formula]; exact Ei).
        cbn [value]. reflexivity. }
      split; [cbn [keys List.map fst] in *; fold (keys todo'); fold (keys todo); congruence |].
      intros before k0 r0 after Hsplit.
      destruct before as [| b before].
      * cbn [app] in Hsplit. inversion Hsplit; subst.
        unfold depends_on. rewrite Ef, Ei.
        exists f, v. split; [reflexivity |]. cbn [List.length firstn app].
        split; [exact Hv |].
        rewrite get_app_not_in by exact Hnin. cbn [get]. rewrite String.eqb_refl.
        reflexivity.
      * cbn [app] in Hsplit. inversion Hsplit; subst.
        specialize (Hpos before k0 r0 after eq_refl).
        cbn [List.length firstn app].
        rewrite <- !app_assoc in Hpos. cbn [app] in Hpos. exact Hpos.
    + (* the record does not depend on it *)
      destruct (IH (done ++ [(k, r)])%list rend) as (todo' & Hrun & Hkeys & Hpos).
      { rewrite <- app_assoc. exact Hnd. }
      { exact Hok'. }
      rewrite <- !app_assoc in Hrun. cbn [app] in Hrun.
      exists ((k, r) :: todo').
      split.
      { fold (keys todo). rewrite Hrun.
        rewrite notifications_cons_skip
          by (unfold depends_on; rewrite Ef; exact Ei).
        reflexivity. }
      split; [cbn [keys List.map fst] in *; fold (keys todo'); fold (keys todo); congruence |].
      intros before k0 r0 after Hsplit.
      destruct before as [| b before].
      * cbn [app] in Hsplit. inversion Hsplit; subst.
        unfold depends_on. rewrite Ef, Ei.
        rewrite get_app_not_in by exact Hnin. cbn [get]. rewrite String.eqb_refl.
        reflexivity.
      * cbn [app] in Hsplit. inversion Hsplit; subst.
        specialize (Hpos before k0 r0 after eq_refl).
        cbn [List.length firstn app].
        rewrite <- !app_assoc in Hpos. cbn [app] in Hpos. exact Hpos.
Qed.

Lemma evaluateFormula_committed (cellId innerText : string) (p : page) :
  evaluateFormula js_eval cellId innerText p
  = updateDependentCells js_eval cellId (committed js_eval cellId innerText p).
Proof.
  rewrite evaluateFormula_unfold. unfold committed. cbv zeta.
  destruct (startsWith _ "="); [| reflexivity].
  destruct (evaluateExpression_returns js_eval (cells p)
              (substring_from 1 (toUpperCase (trim innerText)))) as [v ->].
  reflexivity.
Qed.

Lemma well_formed_committed (cellId innerText : string) (p : page) :
  well_formed (cells p) -> parses cellId ->
  well_formed (cells (committed js_eval cellId innerText p)).
Proof.
  intros Hwf Hp. unfold committed. cbv zeta.
  destruct (startsWith _ "=").
  - destruct (evaluateExpression js_eval (cells p) _); [| exact Hwf].
    cbn [write_text write_cell cells].
    apply well_formed_set; [exact Hwf | discriminate | exact Hp].
  - cbn [write_cell cells].
    apply well_formed_set; [exact Hwf | discriminate | exact Hp].
Qed.

Lemma evaluate_text_arith (t : string) (v : jsval) :
  evaluates_arithmetic js_eval -> arith_eval t = Some v ->
  evaluate_text js_eval t = if isNaN v then VString "" else v.
Proof. intros Hev Ht. unfold evaluate_text. rewrite (Hev t v Ht). reflexivity. Qed.

End Propagation.

(** ** Edits *)

Section Edits.

Variable js_eval : string -> completion.

(** What the update after an edit does to the table the edit's own write
    leaves. *)
Lemma evaluateFormula_pass (cellId innerText : string) (p : page) :
  well_formed (cells p) -> parses cellId ->
  let p0 := committed js_eval cellId innerText p in
  exists cells',
    evaluateFormula js_eval cellId innerText p
    = ({| cells := cells';
          rendered := (rendered p0 ++ notifications cellId cells')%list |}, Ok tt)
    /\ keys cells' = keys (cells p0)
    /\ NoDup (keys cells')
    /\ forall before k r after,
        cells p0 = (before ++ (k, r) :: after)%list ->
        if depends_on cellId r then
          exists f v,
            formula r = Some f
            /\ evaluateExpression js_eval
                 (firstn (List.length before) cells' ++ (k, r) :: after)%list
                 (substring_from 1 f) = Ok v
            /\ get cells' k = Some (recomputed f v)
        else get cells' k = Some r.
Proof.
  intros Hwf Hp p0.
  pose proof (well_formed_committed js_eval cellId innerText p Hwf Hp) as [Hnd Hall].
  fold p0 in Hnd, Hall.
  rewrite evaluateFormula_committed. fold p0. unfold updateDependentCells.
  destruct (for_each_pass js_eval cellId (cells p0) [] (rendered p0) Hnd Hall)
    as (cells' & Hrun & Hkeys & Hpos).
  cbn [app] in Hrun, Hpos. rewrite <- page_eta in Hrun.
  exists cells'. split; [exact Hrun |]. split; [exact Hkeys |].
  split; [rewrite Hkeys; exact Hnd | exact Hpos].
Qed.

Lemma in_keys_get (cells : store) (k : string) :
  In k (keys cells) -> exists r, get cells k = Some r.
Proof.
  induction cells as [| [k0 c0] rest IH]; cbn [keys List.map fst get]; [intros [] |].
  destruct (String.eqb k0 k) eqn:E; [eauto |].
  intros [-> | Hin]; [rewrite String.eqb_refl in E; discriminate | auto].
Qed.

(** An edit keeps the table well formed. *)
Lemma evaluateFormula_well_formed (cellId innerText : string) (p : page) :
  well_formed (cells p) -> parses cellId ->
  well_formed (cells (fst (evaluateFormula js_eval cellId innerText p))).
Proof.
  intros Hwf Hp.
  pose proof (well_formed_committed js_eval cellId innerText p Hwf Hp) as [Hnd0 Hall0].
  destruct (evaluateFormula_pass cellId innerText p Hwf Hp)
    as (cells' & Hrun & Hkeys & Hnd & _).
  assert (Hform : forall k,
             option_map formula (get cells' k)
             = option_map formula (get (cells (committed js_eval cellId innerText p)) k)).
  { intros k. rewrite evaluateFormula_committed in Hrun.
    pose proof (for_each_formula js_eval cellId
                  (keys (cells (committed js_eval cellId innerText p)))
                  (committed js_eval cellId innerText p) k) as H.
    unfold updateDependentCells in Hrun. rewrite Hrun in H. exact H. }
  rewrite Hrun. cbn [fst cells]. split; [exact Hnd |].
  rewrite Forall_forall in *. intros [k r] Hin. cbn [fst snd].
  assert (Hk : In k (keys (cells (committed js_eval cellId innerText p)))).
  { rewrite <- Hkeys. apply (in_map fst) in Hin. exact Hin. }
  destruct (in_keys_get _ _ Hk) as [r0 Hr0].
  pose proof (Hall0 (k, r0) (get_in _ _ _ Hr0)) as [Hf0 Hp0]. cbn [fst snd] in Hf0, Hp0.
  split; [| exact Hp0].
  specialize (Hform k). rewrite (NoDup_get _ _ _ Hnd Hin), Hr0 in Hform.
  cbn [option_map] in Hform. congruence.
Qed.

Lemma empty_well_formed : well_formed (cells empty_page).
Proof. split; constructor. Qed.

(** Every table reached from a well-formed one by edits of cell
    elements is well formed. *)
Lemma edits_well_formed (l : list (string * string)) :
  Forall (fun e => parses (fst e)) l ->
  forall p, well_formed (cells p) -> well_formed (cells (edits js_eval l p)).
Proof.
  induction 1 as [| [cellId innerText] l Hp _ IH]; intros p Hwf; [exact Hwf |].
  unfold edits. cbn [fold_left fst snd]. apply IH.
  apply evaluateFormula_well_formed; [exact Hwf | exact Hp].
Qed.

Lemma safe_table_get (cells : store) (k : string) (r : cell) (f : string) :
  safe_table cells -> get cells k = Some r -> formula r = Some f -> safe_rows f = true.
Proof.
  intros Hs Hget Hf. unfold safe_table in Hs. rewrite Forall_forall in Hs.
  exact (Hs (k, r) (get_in _ _ _ Hget) f Hf).
Qed.

(** The record the edit's own write leaves under a key is the old one,
    or has for formula the text of the edit or the empty text. *)
Lemma committed_formula (cellId innerText : string) (p : page) (k : string) (r : cell) :
  get (cells (committed js_eval cellId innerText p)) k = Some r ->
  get (cells p) k = Some r
  \/ (startsWith (toUpperCase (trim innerText)) "=" = true
      /\ formula r = Some (toUpperCase (trim innerText)))
  \/ formula r = Some EmptyString.
Proof.
  unfold committed. cbv zeta.
  destruct (startsWith _ "=").
  - destruct (evaluateExpression js_eval (cells p) _) as [v |]; [| auto].
    cbn [write_text write_cell cells].
    destruct (string_dec cellId k) as [-> | Hne].
    + rewrite get_set_same. intros H; inversion H; subst. right. left.
      split; reflexivity.
    + rewrite get_set_other by exact Hne. auto.
  - cbn [write_cell cells].
    destruct (string_dec cellId k) as [-> | Hne].
    + rewrite get_set_same. intros H; inversion H; subst. right. right. reflexivity.
    + rewrite get_set_other by exact Hne. auto.
Qed.

(** An edit of text with safe rows keeps the rows of the table's formulas
    safe. *)
Lemma evaluateFormula_safe_table (cellId innerText : string) (p : page) :
  well_formed (cells p) -> parses cellId ->
  safe_table (cells p) ->
  (startsWith (toUpperCase (trim innerText)) "=" = true ->
   safe_rows (toUpperCase (trim innerText)) = true) ->
  safe_table (cells (fst (evaluateFormula js_eval cellId innerText p))).
Proof.
  intros Hwf Hp Hsafe Htext.
  destruct (evaluateFormula_pass cellId innerText p Hwf Hp)
    as (cells' & Hrun & Hkeys & Hnd & _).
  assert (Hform : forall k,
             option_map formula (get cells' k)
             = option_map formula (get (cells (committed js_eval cellId innerText p)) k)).
  { intros k. rewrite evaluateFormula_committed in Hrun.
    pose proof (for_each_formula js_eval cellId
                  (keys (cells (committed js_eval cellId innerText p)))
                  (committed js_eval cellId innerText p) k) as H.
    unfold updateDependentCells in Hrun. rewrite Hrun in H. exact H. }
  rewrite Hrun. cbn [fst cells]. unfold safe_table.
  rewrite Forall_forall. intros [k r] Hin f Hf. cbn [snd] in Hf.
  specialize (Hform k). rewrite (NoDup_get _ _ _ Hnd Hin) in Hform.
  cbn [option_map] in Hform.
  destruct (get (cells (committed js_eval cellId innerText p)) k) as [r0 |] eqn:E0;
    [| discriminate Hform].
  cbn [option_map] in Hform.
  assert (Hf0 : formula r0 = Some f) by congruence.
  destruct (committed_formula _ _ _ _ _ E0) as [Hold | [[Hstart Hnew] | Hempty]].
  - exact (safe_table_get _ _ _ _ Hsafe Hold Hf0).
  - assert (f = toUpperCase (trim innerText)) by congruence. subst f.
    exact (Htext Hstart).
  - assert (f = EmptyString) by congruence. subst f. reflexivity.
Qed.

Lemma editable_parts (innerText : string) :
  editable innerText = true ->
  ascii_text innerText = true
  /\ (startsWith (toUpperCase (trim innerText)) "=" = true ->
      safe_rows (toUpperCase (trim innerText)) = true).
Proof.
  unfold editable. cbv zeta. intros H. apply andb_true_iff in H.
  destruct H as [Ha Hs]. split; [exact Ha |].
  intros Hstart. rewrite Hstart in Hs. exact Hs.
Qed.

(** Every table reached from a well-formed table with safe rows by edits
    of editable text in cell elements is such a table. *)
Lemma edits_safe_table (l : list (string * string)) :
  Forall (fun e => parses (fst e) /\ editable (snd e) = true) l ->
  forall p, well_formed (cells p) -> safe_table (cells p) ->
            well_formed (cells (edits js_eval l p))
            /\ safe_table (cells (edits js_eval l p)).
Proof.
  induction 1 as [| [cellId innerText] l [Hp He] _ IH]; intros p Hwf Hsafe; [auto |].
  cbn [fst snd] in Hp, He. unfold edits. cbn [fold_left fst snd]. apply IH.
  - apply evaluateFormula_well_formed; assumption.
  - apply evaluateFormula_safe_table; try assumption.
    apply editable_parts. exact He.
Qed.

Lemma empty_safe_table : safe_table (cells empty_page).
Proof. constructor. Qed.

(** C4. After an edit of [cellId] with editable text, in a well-formed
    table with safe rows, the handler returns, and every record
    of the table whose formula text contains [cellId] has been given the
    value of its formula in the table as it was at that moment of the pass
    (the records before it already updated, the others not yet), with one
    write of that value to the cell's element; the other records are as
    the edit's own write left them, and the table is again well formed
    with safe rows.  With A1 = 5, A2 = 3 and A3 = "=A1+A2"
    (value 8), the edit of A1 to "10" makes A3's value 13. *)
Theorem evaluateFormula_updates_dependents (cellId innerText : string) (p : page) :
  evaluates_arithmetic js_eval ->
  well_formed (cells p) -> safe_table (cells p) -> parses cellId ->
  editable innerText = true ->
  let p0 := committed js_eval cellId innerText p in
  (exists cells',
      evaluateFormula js_eval cellId innerText p
      = ({| cells := cells';
            rendered := (rendered p0 ++ notifications cellId cells')%list |}, Ok tt)
      /\ keys cells' = keys (cells p0)
      /\ well_formed cells'
      /\ safe_table cells'
      /\ NoDup (List.map fst (notifications cellId cells'))
      /\ forall before k r after,
          cells p0 = (before ++ (k, r) :: after)%list ->
          if depends_on cellId r then
            exists f v,
              formula r = Some f
              /\ evaluateExpression js_eval
                   (firstn (List.length before) cells' ++ (k, r) :: after)%list
                   (substring_from 1 f) = Ok v
              /\ get cells' k = Some (recomputed f v)
              /\ In (k, v) (notifications cellId cells')
          else get cells' k = Some r
               /\ ~ In k (List.map fst (notifications cellId cells')))
  /\ (let p3 := edits js_eval [("A1", "5"); ("A2", "3"); ("A3", "=A1+A2")] empty_page in
      let p4 := fst (evaluateFormula js_eval "A1" "10" p3) in
      get (cells p3) "A3" = Some (recomputed "=A1+A2" (VNumber (of_Z 8)))
      /\ get (cells p4) "A3" = Some (recomputed "=A1+A2" (VNumber (of_Z 13)))
      /\ rendered p4 = (rendered p3 ++ [("A3", VNumber (of_Z 13))])%list).
Proof.
  intros Hev Hwf Hsafe Hp Hedit p0. split.
  - destruct (evaluateFormula_pass cellId innerText p Hwf Hp)
      as (cells' & Hrun & Hkeys & Hnd & Hpos).
    fold p0 in Hrun, Hkeys, Hpos.
    exists cells'. split; [exact Hrun |]. split; [exact Hkeys |].
    split.
    { pose proof (evaluateFormula_well_formed cellId innerText p Hwf Hp) as H.
      rewrite Hrun in H. exact H. }
    split.
    { pose proof (evaluateFormula_safe_table cellId innerText p Hwf Hp Hsafe
                    (proj2 (editable_parts _ Hedit))) as H.
      rewrite Hrun in H. exact H. }
    split; [apply NoDup_notifications; exact Hnd |].
    intros before k r after Hsplit. specialize (Hpos before k r after Hsplit).
    destruct (depends_on cellId r) eqn:Hdep.
    + destruct Hpos as (f & v & Hf & Hv & Hget).
      exists f, v. repeat split; try assumption.
      apply in_notifications. exists (recomputed f v).
      split; [apply get_in; exact Hget |].
      split; [| reflexivity].
      unfold depends_on in *. rewrite Hf in Hdep. exact Hdep.
    + split; [exact Hpos |].
      intros Hin. apply in_map_iff in Hin. destruct Hin as ([k0 v] & E & Hin).
      cbn [fst] in E. subst k0.
      apply in_notifications in Hin. destruct Hin as (r' & Hin & Hdep' & _).
      apply (NoDup_get _ _ _ Hnd) in Hin. congruence.
  - cbv -[evaluate_text].
    rewrite (evaluate_text_arith js_eval "5+3" (VNumber (of_Z 8)) Hev)
      by (vm_compute; reflexivity).
    rewrite (evaluate_text_arith js_eval "10+3" (VNumber (of_Z 13)) Hev)
      by (vm_compute; reflexivity).
    repeat split; vm_compute; reflexivity.
Qed.

(** C7. In a well-formed table with safe rows, with [B]'s formula
    containing [A] and [C]'s formula containing [B] but not [A], an edit
    of [A] with editable text re-evaluates [B]: [B]'s record gets the
    value of its formula in the table as it is when the update reaches
    [B], and that value is written to [B]'s element.  It leaves [C]'s
    record, like the record of every other cell whose formula does not
    contain [A], exactly as it was: the update does not cascade. *)
Theorem evaluateFormula_single_level (A innerText : string) (p : page)
    (B C : string) (rB rC : cell) :
  well_formed (cells p) -> safe_table (cells p) -> parses A ->
  editable innerText = true ->
  B <> A -> C <> A ->
  get (cells p) B = Some rB -> depends_on A rB = true ->
  get (cells p) C = Some rC -> depends_on B rC = true -> depends_on A rC = false ->
  let p0 := committed js_eval A innerText p in
  let p' := fst (evaluateFormula js_eval A innerText p) in
  (exists f v, formula rB = Some f
               /\ evaluateExpression js_eval (table_at B (cells p0) (cells p'))
                                     (substring_from 1 f) = Ok v
               /\ get (cells p') B = Some (recomputed f v)
               /\ In (B, v) (rendered p'))
  /\ get (cells p') C = Some rC
  /\ ~ In C (List.map fst (notifications A (cells p')))
  /\ (forall other r,
         other <> A -> get (cells p) other = Some r -> depends_on A r = false ->
         get (cells p') other = Some r).
Proof.
  intros Hwf Hsafe Hp Hedit HBA HCA HB HdB HC HdCB HdCA p0 p'.
  assert (Hframe : forall other r,
             other <> A -> get (cells p) other = Some r -> depends_on A r = false ->
             get (cells p') other = Some r).
  { intros other r Hne Hget Hdep. unfold p'.
    rewrite evaluateFormula_unfold. cbv zeta.
    assert (Hne' : A <> other) by congruence.
    destruct (startsWith _ "=").
    - destruct (evaluateExpression js_eval (cells p) _) as [v |]; [| exact Hget].
      apply updateDependentCells_frame; [| exact Hdep].
      cbn [write_text write_cell cells]. rewrite get_set_other by exact Hne'. exact Hget.
    - apply updateDependentCells_frame; [| exact Hdep].
      cbn [write_cell cells]. rewrite get_set_other by exact Hne'. exact Hget. }
  destruct (evaluateFormula_pass A innerText p Hwf Hp)
    as (cells' & Hrun & Hkeys & Hnd & Hpos).
  fold p0 in Hrun, Hkeys, Hpos.
  assert (Hcells : cells p' = cells').
  { unfold p'. rewrite Hrun. reflexivity. }
  assert (Hrend : rendered p' = (rendered p0 ++ notifications A cells')%list).
  { unfold p'. rewrite Hrun. reflexivity. }
  assert (HB0 : get (cells p0) B = Some rB).
  { unfold p0, committed. cbv zeta.
    assert (Hne' : A <> B) by congruence.
    destruct (startsWith _ "=").
    - destruct (evaluateExpression js_eval (cells p) _); [| exact HB].
      cbn [write_text write_cell cells]. rewrite get_set_other by exact Hne'. exact HB.
    - cbn [write_cell cells]. rewrite get_set_other by exact Hne'. exact HB. }
  split.
  - pose proof HB0 as HB1.
    apply get_in in HB1. apply in_split in HB1. destruct HB1 as (before & after & Hsplit).
    specialize (Hpos before B rB after Hsplit). rewrite HdB in Hpos.
    destruct Hpos as (f & v & Hf & Hv & Hget).
    assert (Hnin : ~ In B (keys before)).
    { pose proof Hnd as Hnd1.
      rewrite Hkeys, Hsplit, keys_app in Hnd1. cbn [keys List.map fst] in Hnd1.
      apply NoDup_remove_2 in Hnd1. intros Hin. apply Hnd1.
      apply in_or_app. left. exact Hin. }
    exists f, v. rewrite Hcells, Hrend. split; [exact Hf |].
    split.
    { rewrite Hsplit, table_at_split; [exact Hv | exact Hnin |].
      rewrite Hkeys, Hsplit. reflexivity. }
    split; [exact Hget |].
    apply in_or_app. right. apply in_notifications.
    exists (recomputed f v). split; [apply get_in; exact Hget |].
    split; [| reflexivity].
    unfold depends_on in *. rewrite Hf in HdB. exact HdB.
  - split; [apply Hframe; assumption |].
    split; [| exact Hframe].
    rewrite Hcells. intros Hin. apply in_map_iff in Hin.
    destruct Hin as ([k0 v] & E & Hin). cbn [fst] in E. subst k0.
    apply in_notifications in Hin. destruct Hin as (r' & Hin & Hdep' & _).
    apply (NoDup_get _ _ _ Hnd) in Hin.
    rewrite <- Hcells in Hin. rewrite (Hframe C rC HCA HC HdCA) in Hin. congruence.
Qed.

End Edits.

(** ** What an edit stores *)

Section Commit.

Variable js_eval : string -> completion.

Lemma upper_char_equals (c : ascii) :
  Ascii.eqb (upper_char c) "=" = Ascii.eqb c "=".
Proof. destruct c as [[] [] [] [] [] [] [] []]; reflexivity. Qed.

Lemma startsWith_equals (s : string) :
  startsWith s "=" = head_is (fun c => Ascii.eqb c "=") s.
Proof.
  unfold startsWith. destruct s as [| c s]; [reflexivity |].
  cbn [String.prefix head_is].
  destruct (Ascii.ascii_dec "=" c) as [<- | Hne].
  - destruct s; reflexivity.
  - symmetry. apply Ascii.eqb_neq. congruence.
Qed.

Lemma startsWith_toUpperCase (s : string) :
  startsWith (toUpperCase s) "=" = startsWith s "=".
Proof.
  rewrite !startsWith_equals. destruct s as [| c s]; [reflexivity |].
  cbn [toUpperCase head_is]. apply upper_char_equals.
Qed.

Lemma trimEnd_cons_nonspace (c : ascii) (s : string) :
  is_space c = false -> trimEnd (String c s) = String c (trimEnd s).
Proof.
  intros Hc. cbn [trimEnd]. destruct (trimEnd s); [rewrite Hc |]; reflexivity.
Qed.

(** Text that starts with [=] still does once trimmed and put in upper
    case, and what follows the [=] is the upper case of what followed it. *)
Lemma formula_text_shape (innerText : string) :
  startsWith innerText "=" = true ->
  startsWith (toUpperCase (trim innerText)) "=" = true
  /\ toUpperCase (trim innerText)
     = String "=" (toUpperCase (substring_from 1 (trim innerText))).
Proof.
  rewrite startsWith_equals. destruct innerText as [| c rest]; [discriminate |].
  cbn [head_is]. intros Hc. apply Ascii.eqb_eq in Hc. subst c.
  unfold trim. cbn [trimStart]. change (is_space "=") with false. cbv iota.
  rewrite trimEnd_cons_nonspace by reflexivity.
  split; [rewrite startsWith_equals |]; reflexivity.
Qed.

Lemma evaluateFormula_part_000_unfold (cellId innerText : string) (p : page) :
  let formula := trim innerText in
  evaluateFormula_part_000 js_eval cellId innerText p =
  if startsWith formula "=" then
    match evaluateExpression js_eval (cells p) (substring_from 1 (toUpperCase formula)) with
    | Ok v =>
        updateDependentCells js_eval cellId
          (write_text cellId v
             (write_cell cellId
                {| Sheet.formula := None; updatedFormula := Some (toUpperCase formula);
                   value := v |} p))
    | TypeError => (p, TypeError)
    end
  else updateDependentCells js_eval cellId (write_cell cellId (literal formula) p).
Proof.
  cbv zeta. unfold evaluateFormula_part_000.
  destruct (startsWith (trim innerText) "="); [| reflexivity].
  destruct (evaluateExpression js_eval (cells p) _); reflexivity.
Qed.

Lemma literal_independent (cellId text : string) :
  nonempty cellId = true -> depends_on cellId (literal text) = false.
Proof. intros H. unfold depends_on, literal. cbn [formula]. apply includes_empty. exact H. Qed.

Lemma upper_char_idempotent (c : ascii) : upper_char (upper_char c) = upper_char c.
Proof. destruct c as [[] [] [] [] [] [] [] []]; reflexivity. Qed.

Lemma toUpperCase_idempotent (s : string) : toUpperCase (toUpperCase s) = toUpperCase s.
Proof.
  induction s as [| c s IH]; [reflexivity |].
  cbn [toUpperCase]. rewrite upper_char_idempotent, IH. reflexivity.
Qed.

Lemma toUpperCase_no_lower (s : string) : no_lower s = true -> toUpperCase s = s.
Proof.
  unfold no_lower. induction s as [| c s IH]; [reflexivity |].
  cbn [every toUpperCase]. intros H. apply andb_true_iff in H. destruct H as [Hc Hs].
  apply negb_true_iff in Hc. unfold upper_char. rewrite Hc, (IH Hs). reflexivity.
Qed.

Lemma parses_computed (cellId col : string) (row : N) :
  parseCellId cellId = Ok (col, row) -> parses cellId.
Proof. intros H. exists col, row. exact H. Qed.

Lemma parses_nonempty (cellId : string) : parses cellId -> nonempty cellId = true.
Proof.
  intros (col & row & H). destruct cellId; [discriminate H | reflexivity].
Qed.

(** C3, as the script has it.  When the text of a cell element, in a
    table with safe rows, is ASCII text
    that, trimmed of surrounding white space, does not start with [=],
    the edit stores a record with the empty formula whose value is a
    string: the trimmed text itself in the variant of [part_000], and in
    [script.js] a text equal to it up to the case of its letters, the
    trimmed text itself when it has no lower-case letter.  The update that
    follows does not touch the record. *)
Theorem evaluateFormula_literal (cellId innerText : string) (p : page) :
  parses cellId ->
  safe_table (cells p) ->
  ascii_text innerText = true ->
  startsWith (trim innerText) "=" = false ->
  (exists v,
      get (cells (fst (evaluateFormula js_eval cellId innerText p))) cellId
      = Some {| formula := Some EmptyString; updatedFormula := None;
                value := VString v |}
      /\ toUpperCase v = toUpperCase (trim innerText)
      /\ (no_lower (trim innerText) = true -> v = trim innerText))
  /\ get (cells (fst (evaluateFormula_part_000 js_eval cellId innerText p))) cellId
     = Some {| formula := Some EmptyString; updatedFormula := None;
               value := VString (trim innerText) |}.
Proof.
  intros Hp _ _ Hlit. pose proof (parses_nonempty _ Hp) as Hid. split.
  - exists (toUpperCase (trim innerText)).
    split; [| split; [apply toUpperCase_idempotent | apply toUpperCase_no_lower]].
    rewrite evaluateFormula_unfold. cbv zeta.
    rewrite startsWith_toUpperCase, Hlit.
    apply updateDependentCells_frame; [| apply literal_independent; exact Hid].
    cbn [write_cell cells]. apply get_set_same.
  - rewrite evaluateFormula_part_000_unfold. cbv zeta. rewrite Hlit.
    apply updateDependentCells_frame; [| apply literal_independent; exact Hid].
    cbn [write_cell cells]. apply get_set_same.
Qed.

(** C8, as the script has it.  An edit of a cell element whose text is
    editable and starts with [=], in a table with safe rows, stores a
    record whose [formula]
    is the whole text, trimmed and in upper case, the leading [=] included
    (the handler strips it only from the text it evaluates, and so does
    the update of dependent cells); the update of dependent cells and the
    edits of other cells keep every record's [formula]. *)
Theorem evaluateFormula_stores_formula_text (cellId innerText : string) (p : page) :
  parses cellId ->
  safe_table (cells p) ->
  editable innerText = true ->
  startsWith innerText "=" = true ->
  let text := toUpperCase (trim innerText) in
  text = String "=" (toUpperCase (substring_from 1 (trim innerText)))
  /\ (exists r, get (cells (fst (evaluateFormula js_eval cellId innerText p))) cellId = Some r
                /\ formula r = Some text)
  /\ (forall updated q k,
         safe_table (cells q) ->
         option_map formula (get (cells (fst (updateDependentCells js_eval updated q))) k)
         = option_map formula (get (cells q) k))
  /\ (forall other otherText q,
         other <> cellId ->
         safe_table (cells q) -> editable otherText = true ->
         option_map formula
           (get (cells (fst (evaluateFormula js_eval other otherText q))) cellId)
         = option_map formula (get (cells q) cellId)).
Proof.
  intros _ _ _ Heq text.
  destruct (formula_text_shape innerText Heq) as [Hstart Hshape].
  split; [exact Hshape |].
  assert (Hupd : forall updated q k,
             option_map formula (get (cells (fst (updateDependentCells js_eval updated q))) k)
             = option_map formula (get (cells q) k)).
  { intros updated q k. apply for_each_formula. }
  split; [| split; [intros updated q k _; apply Hupd |]].
  - assert (H : option_map formula
                  (get (cells (fst (evaluateFormula js_eval cellId innerText p))) cellId)
                = Some (Some text)).
    { rewrite evaluateFormula_unfold. cbv zeta. rewrite Hstart. fold text.
      destruct (evaluateExpression_returns js_eval (cells p) (substring_from 1 text))
        as [v ->].
      rewrite Hupd. cbn [write_text write_cell cells].
      rewrite get_set_same. reflexivity. }
    destruct (get (cells (fst (evaluateFormula js_eval cellId innerText p))) cellId)
      as [r |]; [| discriminate H].
    exists r. split; [reflexivity |]. cbn [option_map] in H. congruence.
  - intros other otherText q Hne _ _.
    rewrite evaluateFormula_unfold. cbv zeta.
    destruct (startsWith (toUpperCase (trim otherText)) "=").
    + destruct (evaluateExpression js_eval (cells q) _) as [v |]; [| reflexivity].
      rewrite Hupd. cbn [write_text write_cell cells].
      rewrite get_set_other by exact Hne. reflexivity.
    + rewrite Hupd. cbn [write_cell cells].
      rewrite get_set_other by exact Hne. reflexivity.
Qed.

(** In the variant of [part_000] the record of a formula cell has no
    [formula] property, so the update that follows the edit stops on a
    [TypeError] when it reaches that record. *)
Lemma for_each_stops (updated : string) (ks : list string) :
  forall p k r,
    In k ks -> get (cells p) k = Some r -> formula r = None ->
    snd (for_each (update_one js_eval updated) p ks) = TypeError.
Proof.
  induction ks as [| k0 ks IH]; intros p k r Hin Hget Hnone; [destruct Hin |].
  cbn [for_each].
  assert (Hdep : depends_on updated r = false) by (unfold depends_on; rewrite Hnone; reflexivity).
  pose proof (update_one_frame js_eval updated p k0 k r Hget Hdep) as Hkeep.
  destruct (string_dec k0 k) as [-> | Hne].
  - unfold update_one. rewrite Hget, Hnone. reflexivity.
  - destruct Hin as [E | Hin]; [congruence |].
    destruct (update_one js_eval updated p k0) as [p1 [[] |]]; cbn [fst snd] in *.
    + eapply IH; eassumption.
    + reflexivity.
Qed.

Lemma evaluateFormula_part_000_formula_throws (cellId innerText : string) (p : page) :
  startsWith (trim innerText) "=" = true ->
  snd (evaluateFormula_part_000 js_eval cellId innerText p) = TypeError
  /\ exists v,
      get (cells (fst (evaluateFormula_part_000 js_eval cellId innerText p))) cellId
      = Some {| formula := None; updatedFormula := Some (toUpperCase (trim innerText));
                value := v |}.
Proof.
  intros Hstart. rewrite evaluateFormula_part_000_unfold. cbv zeta. rewrite Hstart.
  destruct (evaluateExpression_returns js_eval (cells p)
              (substring_from 1 (toUpperCase (trim innerText)))) as [v ->].
  set (c := {| formula := None; updatedFormula := Some (toUpperCase (trim innerText));
               value := v |}).
  assert (Hget : get (cells (write_text cellId v (write_cell cellId c p))) cellId = Some c).
  { cbn [write_text write_cell cells]. apply get_set_same. }
  split.
  - unfold updateDependentCells.
    apply (for_each_stops cellId _ _ cellId c); [| exact Hget | reflexivity].
    eapply get_some_in_keys. exact Hget.
  - exists v. apply updateDependentCells_frame; [exact Hget | reflexivity].
Qed.

End Commit.

(** ** The statements on the arithmetic evaluator and a concrete sheet *)

Section Instances.

Lemma evaluateFormula_literal_witness :
  get (cells (fst (evaluateFormula arith_only "A1" " 5 K " empty_page))) "A1"
  = Some (literal "5 K")
  /\ get (cells (fst (evaluateFormula_part_000 arith_only "A1" " abc " empty_page))) "A1"
     = Some (literal "abc").
Proof.
  split.
  - destruct (evaluateFormula_literal arith_only "A1" " 5 K " empty_page
                (parses_computed "A1" "A" 1%N eq_refl)
                empty_safe_table eq_refl eq_refl) as ((v & Hget & _ & Hv) & _).
    rewrite Hget, (Hv eq_refl). reflexivity.
  - exact (proj2 (evaluateFormula_literal arith_only "A1" " abc " empty_page
                    (parses_computed "A1" "A" 1%N eq_refl)
                    empty_safe_table eq_refl eq_refl)).
Defined.

(** C3 as stated fails: the text ["abc"] does not start with [=], and the
    record stored for it holds ["ABC"]; the text [" 5"] is stored as ["5"]. *)
Lemma literal_commit_is_not_verbatim :
  startsWith "abc" "=" = false
  /\ get (cells (fst (evaluateFormula arith_only "A1" "abc" empty_page))) "A1"
     = Some (literal "ABC")
  /\ literal "ABC" <> literal "abc"
  /\ startsWith " 5" "=" = false
  /\ get (cells (fst (evaluateFormula arith_only "A1" " 5" empty_page))) "A1"
     = Some (literal "5")
  /\ get (cells (fst (evaluateFormula_part_000 arith_only "A1" " 5" empty_page))) "A1"
     = Some (literal "5")
  /\ literal "5" <> literal " 5".
Proof.
  repeat split; try reflexivity; discriminate.
Qed.

Lemma evaluateFormula_stores_formula_text_witness :
  toUpperCase (trim "=a1+a2") = "=A1+A2"
  /\ exists r,
      get (cells (fst (evaluateFormula arith_only "A3" "=a1+a2" empty_page))) "A3" = Some r
      /\ formula r = Some "=A1+A2".
Proof.
  destruct (evaluateFormula_stores_formula_text arith_only "A3" "=a1+a2" empty_page
              (parses_computed "A3" "A" 3%N eq_refl) empty_safe_table eq_refl eq_refl)
    as (H1 & H2 & _).
  split; [reflexivity | exact H2].
Defined.

(** C8 as stated fails: for the text ["=a1+a2"] the stored [formula] is
    ["=A1+A2"], not the text ["A1+A2"] without the leading [=]. *)
Lemma stored_formula_keeps_equals_sign :
  startsWith "=a1+a2" "=" = true
  /\ option_map formula
       (get (cells (fst (evaluateFormula arith_only "A3" "=a1+a2" empty_page))) "A3")
     = Some (Some "=A1+A2")
  /\ toUpperCase (substring_from 1 "=a1+a2") = "A1+A2"
  /\ "=A1+A2" <> "A1+A2".
Proof.
  repeat split; try reflexivity; discriminate.
Qed.

Lemma evaluateFormula_updates_dependents_witness :
  let p3 := edits arith_only [("A1", "5"); ("A2", "3"); ("A3", "=A1+A2")] empty_page in
  let p4 := fst (evaluateFormula arith_only "A1" "10" p3) in
  well_formed (cells p3)
  /\ safe_table (cells p3)
  /\ get (cells p3) "A3" = Some (recomputed "=A1+A2" (VNumber (of_Z 8)))
  /\ get (cells p4) "A3" = Some (recomputed "=A1+A2" (VNumber (of_Z 13)))
  /\ rendered p4 = (rendered p3 ++ [("A3", VNumber (of_Z 13))])%list.
Proof.
  intros p3 p4.
  destruct (edits_safe_table arith_only [("A1", "5"); ("A2", "3"); ("A3", "=A1+A2")])
    with (p := empty_page) as [Hwf Hsafe].
  { repeat (apply Forall_cons;
            [split; [eapply parses_computed; reflexivity | reflexivity] |]).
    apply Forall_nil. }
  { apply empty_well_formed. }
  { apply empty_safe_table. }
  split; [exact Hwf |]. split; [exact Hsafe |].
  exact (proj2 (evaluateFormula_updates_dependents arith_only "A1" "10" p3
                  arith_only_evaluates_arithmetic Hwf Hsafe
                  (parses_computed "A1" "A" 1%N eq_refl) eq_refl)).
Defined.

Lemma evaluateFormula_single_level_witness :
  let p := edits arith_only [("A1", "5"); ("B1", "=A1+1"); ("C1", "=B1+1")] empty_page in
  let p' := fst (evaluateFormula arith_only "A1" "10" p) in
  get (cells p) "B1" = Some (recomputed "=A1+1" (VNumber (of_Z 6)))
  /\ get (cells p) "C1" = Some (recomputed "=B1+1" (VNumber (of_Z 7)))
  /\ get (cells p') "B1" = Some (recomputed "=A1+1" (VNumber (of_Z 11)))
  /\ In ("B1", VNumber (of_Z 11)) (rendered p')
  /\ get (cells p') "C1" = Some (recomputed "=B1+1" (VNumber (of_Z 7))).
Proof.
  intros p p'.
  destruct (edits_safe_table arith_only [("A1", "5"); ("B1", "=A1+1"); ("C1", "=B1+1")])
    with (p := empty_page) as [Hwf Hsafe].
  { repeat (apply Forall_cons;
            [split; [eapply parses_computed; reflexivity | reflexivity] |]).
    apply Forall_nil. }
  { apply empty_well_formed. }
  { apply empty_safe_table. }
  assert (HB : get (cells p) "B1" = Some (recomputed "=A1+1" (VNumber (of_Z 6))))
    by (vm_compute; reflexivity).
  assert (HC : get (cells p) "C1" = Some (recomputed "=B1+1" (VNumber (of_Z 7))))
    by (vm_compute; reflexivity).
  assert (HBA : "B1" <> "A1") by discriminate.
  assert (HCA : "C1" <> "A1") by discriminate.
  destruct (evaluateFormula_single_level arith_only "A1" "10" p "B1" "C1" _ _
              Hwf Hsafe (parses_computed "A1" "A" 1%N eq_refl) eq_refl HBA HCA
              HB eq_refl HC eq_refl eq_refl)
    as ((f & v & Hf & Hv & HB' & Hin) & HC' & _).
  assert (Ef : f = "=A1+1") by (cbn in Hf; congruence). subst f.
  assert (Ev : Ok v = Ok (VNumber (of_Z 11)))
    by (rewrite <- Hv; vm_compute; reflexivity).
  injection Ev as ->.
  split; [exact HB |]. split; [exact HC |].
  split; [exact HB' |]. split; [exact Hin | exact HC'].
Defined.

End Instances.

(** * Further properties of the script *)

(** ** Cell ids, whatever surrounds the letters and the digits *)

Section ParseCellIdMore.

Lemma search_pass {A : Type} (m : string -> option A) (p : ascii -> bool) (a s : string) :
  (forall c t, p c = true -> m (String c t) = None) ->
  every p a = true -> search m (a ++ s) = search m s.
Proof.
  intros Hm. induction a as [| c a IH]; simpl append; intros Ha; [reflexivity |].
  simpl in Ha. apply andb_true_iff in Ha. destruct Ha as [Hc Ha].
  rewrite search_skip by (apply Hm; exact Hc). apply IH. exact Ha.
Qed.

Lemma first_letters_pass (a s : string) :
  every (fun c => negb (is_upper c)) a = true ->
  Regex.first_match Regex.letters_at (a ++ s) = Regex.first_match Regex.letters_at s.
Proof.
  intros Ha. unfold Regex.first_match.
  apply (search_pass _ (fun c => negb (is_upper c))); [| exact Ha].
  intros c t Hc. rewrite letters_at_fails; [reflexivity |].
  simpl. apply negb_true_iff. exact Hc.
Qed.

Lemma first_digits_pass (a s : string) :
  every (fun c => negb (is_digit c)) a = true ->
  Regex.first_match Regex.digits_at (a ++ s) = Regex.first_match Regex.digits_at s.
Proof.
  intros Ha. unfold Regex.first_match.
  apply (search_pass _ (fun c => negb (is_digit c))); [| exact Ha].
  intros c t Hc. rewrite digits_at_fails; [reflexivity |].
  simpl. apply negb_true_iff. exact Hc.
Qed.

Lemma other_not_upper (s : string) :
  every is_other s = true -> every (fun c => negb (is_upper c)) s = true.
Proof.
  apply every_weaken. intros c H. unfold is_other in H.
  apply andb_true_iff in H. tauto.
Qed.

Lemma other_not_digit (s : string) :
  every is_other s = true -> every (fun c => negb (is_digit c)) s = true.
Proof.
  apply every_weaken. intros c H. unfold is_other in H.
  apply andb_true_iff in H. tauto.
Qed.

Lemma digits_not_upper (s : string) :
  every is_digit s = true -> every (fun c => negb (is_upper c)) s = true.
Proof.
  apply every_weaken. intros c H. apply negb_true_iff. apply digit_not_upper. exact H.
Qed.

Lemma letters_not_digit (s : string) :
  every is_upper s = true -> every (fun c => negb (is_digit c)) s = true.
Proof.
  apply every_weaken. intros c H. apply negb_true_iff. apply upper_not_digit. exact H.
Qed.

Lemma first_letters_run (l rest : string) :
  nonempty l = true -> every is_upper l = true -> head_is is_upper rest = false ->
  Regex.first_match Regex.letters_at (l ++ rest) = Some l.
Proof.
  intros Hl Ul Hr. unfold Regex.first_match.
  apply search_found. rewrite letters_at_run by assumption. reflexivity.
Qed.

Lemma first_digits_run (d rest : string) :
  nonempty d = true -> every is_digit d = true -> head_is is_digit rest = false ->
  Regex.first_match Regex.digits_at (d ++ rest) = Some d.
Proof.
  intros Hd Dd Hr. unfold Regex.first_match.
  apply search_found. rewrite digits_at_run by assumption. reflexivity.
Qed.

Lemma head_is_app (p : ascii -> bool) (a b : string) :
  head_is p (a ++ b) = if nonempty a then head_is p a else head_is p b.
Proof. destruct a; reflexivity. Qed.

Lemma head_other (p : ascii -> bool) (a b : string) :
  (forall c, is_other c = true -> p c = false) ->
  every is_other a = true -> head_is p b = false -> head_is p (a ++ b) = false.
Proof.
  intros Hp Ha Hb. rewrite head_is_app. destruct a as [| c a]; [exact Hb |].
  simpl in *. apply andb_true_iff in Ha. apply Hp. tauto.
Qed.

Lemma other_is_not_upper (c : ascii) : is_other c = true -> is_upper c = false.
Proof. unfold is_other. intros H. apply andb_true_iff in H. apply negb_true_iff. tauto. Qed.

Lemma other_is_not_digit (c : ascii) : is_other c = true -> is_digit c = false.
Proof. unfold is_other. intros H. apply andb_true_iff in H. apply negb_true_iff. tauto. Qed.

(** X1. [parseCellId] takes the first run of capitals and the first run
    of digits of its argument independently of each other: whatever text
    without capitals or digits stands before, between and after them, and
    whether the letters or the digits come first, the result is the pair
    of those letters and of the number the digits denote. *)
Theorem parseCellId_any_order (j1 l j2 d j3 : string) :
  every is_other j1 = true -> every is_other j2 = true -> every is_other j3 = true ->
  nonempty l = true -> every is_upper l = true ->
  nonempty d = true -> every is_digit d = true ->
  parseCellId (j1 ++ l ++ j2 ++ d ++ j3) = Ok (l, parseInt d)
  /\ parseCellId (j1 ++ d ++ j2 ++ l ++ j3) = Ok (l, parseInt d).
Proof.
  intros H1 H2 H3 Hl Ul Hd Dd.
  assert (Hd_up : head_is is_upper d = false)
    by (apply (head_every is_digit); [apply digit_not_upper | exact Dd]).
  assert (Hl_dg : head_is is_digit l = false)
    by (apply (head_every is_upper); [apply upper_not_digit | exact Ul]).
  assert (H3u : head_is is_upper j3 = false)
    by (apply (head_every is_other); [apply other_is_not_upper | exact H3]).
  assert (H3d : head_is is_digit j3 = false)
    by (apply (head_every is_other); [apply other_is_not_digit | exact H3]).
  split; unfold parseCellId.
  - rewrite first_letters_pass by (apply other_not_upper; exact H1).
    rewrite first_letters_run; [| exact Hl | exact Ul |].
    2:{ apply (head_other is_upper); [apply other_is_not_upper | exact H2 |].
        rewrite head_is_app, Hd. exact Hd_up. }
    cbn [first_of bind].
    rewrite first_digits_pass by (apply other_not_digit; exact H1).
    rewrite first_digits_pass by (apply letters_not_digit; exact Ul).
    rewrite first_digits_pass by (apply other_not_digit; exact H2).
    rewrite first_digits_run by assumption.
    reflexivity.
  - rewrite first_letters_pass by (apply other_not_upper; exact H1).
    rewrite first_letters_pass by (apply digits_not_upper; exact Dd).
    rewrite first_letters_pass by (apply other_not_upper; exact H2).
    rewrite first_letters_run by assumption.
    cbn [first_of bind].
    rewrite first_digits_pass by (apply other_not_digit; exact H1).
    rewrite first_digits_run; [reflexivity | exact Hd | exact Dd |].
    apply (head_other is_digit); [apply other_is_not_digit | exact H2 |].
    rewrite head_is_app, Hl. exact Hl_dg.
Qed.

Lemma parseCellId_any_order_witness :
  parseCellId ("$" ++ "AB" ++ "-" ++ "07" ++ "!") = Ok ("AB", 7%N)
  /\ parseCellId ("$" ++ "07" ++ "-" ++ "AB" ++ "!") = Ok ("AB", 7%N).
Proof.
  exact (parseCellId_any_order "$" "AB" "-" "07" "!"
           eq_refl eq_refl eq_refl eq_refl eq_refl eq_refl eq_refl).
Defined.

Lemma first_letters_none (s : string) :
  Regex.first_match Regex.letters_at s = None <-> some_char is_upper s = false.
Proof.
  unfold Regex.first_match. induction s as [| c s IH].
  - simpl. split; reflexivity.
  - cbn [some_char]. destruct (is_upper c) eqn:Hc.
    + split; [| discriminate]. intros H. exfalso.
      cbn [search] in H. unfold Regex.letters_at in H. cbn [span] in H.
      rewrite Hc in H. destruct (span is_upper s). cbn in H. discriminate H.
    + rewrite search_skip; [exact IH |].
      rewrite letters_at_fails; [reflexivity | exact Hc].
Qed.

Lemma first_digits_none (s : string) :
  Regex.first_match Regex.digits_at s = None <-> some_char is_digit s = false.
Proof.
  unfold Regex.first_match. induction s as [| c s IH].
  - simpl. split; reflexivity.
  - cbn [some_char]. destruct (is_digit c) eqn:Hc.
    + split; [| discriminate]. intros H. exfalso.
      cbn [search] in H. unfold Regex.digits_at in H. cbn [span] in H.
      rewrite Hc in H. destruct (span is_digit s). cbn in H. discriminate H.
    + rewrite search_skip; [exact IH |].
      rewrite digits_at_fails; [reflexivity | exact Hc].
Qed.

(** X2. [parseCellId] stops on a [TypeError] exactly when its argument
    has no capital letter or has no digit; otherwise it returns. *)
Theorem parseCellId_throws_iff (cellId : string) :
  (parseCellId cellId = TypeError
   <-> some_char is_upper cellId && some_char is_digit cellId = false)
  /\ (parses cellId
      <-> some_char is_upper cellId && some_char is_digit cellId = true).
Proof.
  pose proof (first_letters_none cellId) as HL.
  pose proof (first_digits_none cellId) as HD.
  unfold parses, parseCellId.
  destruct (Regex.first_match Regex.letters_at cellId) as [l |];
    destruct (Regex.first_match Regex.digits_at cellId) as [d |];
    destruct (some_char is_upper cellId); destruct (some_char is_digit cellId);
    cbn [first_of bind andb];
    try (exfalso; (destruct HL as [HL1 HL2]; destruct HD as [HD1 HD2];
                   first [ discriminate (HL1 eq_refl) | discriminate (HL2 eq_refl)
                         | discriminate (HD1 eq_refl) | discriminate (HD2 eq_refl) ]));
    (split; split; try discriminate; try reflexivity; eauto;
     try (intros (col & row & H); discriminate H)).
Qed.

End ParseCellIdMore.

(** ** Column headers and the grid *)

Section Headers.

Lemma code_fromCharCode (n : Z) :
  (0 <= n < 256)%Z -> Z.of_nat (code (fromCharCode n)) = n.
Proof.
  intros Hn. unfold code, fromCharCode. rewrite nat_ascii_embedding by lia. lia.
Qed.

Lemma header_letter_upper (r : Z) :
  (0 <= r < 26)%Z -> is_upper (fromCharCode (65 + r)) = true.
Proof.
  intros Hr. pose proof (code_fromCharCode (65 + r) ltac:(lia)) as Hc.
  unfold is_upper. apply andb_true_iff. split; apply Nat.leb_le; lia.
Qed.

Lemma header_loop_upper (q : Z) :
  (-1 <= q)%Z ->
  forall h, every is_upper h = true -> every is_upper (header_loop q h) = true.
Proof.
  induction q as [q IH] using (well_founded_induction (Z.lt_wf (-1))).
  intros Hq h Hh.
  destruct (Z_lt_le_dec q 0) as [Hneg | Hpos].
  - rewrite header_loop_done by lia. exact Hh.
  - rewrite header_loop_step by lia.
    assert (q / 26 <= q)%Z by (apply Z.div_le_upper_bound; lia).
    assert (0 <= q / 26)%Z by (apply Z.div_pos; lia).
    apply IH; [lia | lia |].
    cbn [every]. rewrite header_letter_upper by (apply Z.mod_pos_bound; lia).
    exact Hh.
Qed.

Lemma header_loop_nonempty (q : Z) :
  (-1 <= q)%Z ->
  forall h, nonempty h = true -> nonempty (header_loop q h) = true.
Proof.
  induction q as [q IH] using (well_founded_induction (Z.lt_wf (-1))).
  intros Hq h Hh.
  destruct (Z_lt_le_dec q 0) as [Hneg | Hpos].
  - rewrite header_loop_done by lia. exact Hh.
  - rewrite header_loop_step by lia.
    assert (q / 26 <= q)%Z by (apply Z.div_le_upper_bound; lia).
    assert (0 <= q / 26)%Z by (apply Z.div_pos; lia).
    apply IH; [lia | lia | reflexivity].
Qed.

Lemma header_of_column (k : nat) :
  (1 <= k)%nat ->
  let h := header_loop (Z.of_nat k - 1) EmptyString in
  nonempty h = true /\ every is_upper h = true /\ Spec.label_value h = Z.of_nat k.
Proof.
  intros Hk h. unfold h. split; [| split].
  - rewrite header_loop_step by lia. apply header_loop_nonempty; [| reflexivity].
    assert (0 <= (Z.of_nat k - 1) / 26)%Z by (apply Z.div_pos; lia). lia.
  - apply header_loop_upper; [lia | reflexivity].
  - rewrite header_loop_bijective26 by lia.
    replace (Z.of_nat k - 1 + 1)%Z with (Z.of_nat k) by lia.
    rewrite bijective26_value by lia.
    cbn [list_ascii_of_string List.length]. unfold Spec.label_value.
    cbn [list_ascii_of_string fold_left]. change (26 ^ Z.of_nat 0)%Z with 1%Z. lia.
Qed.

Lemma headers_values (count : nat) :
  List.map Spec.label_value (getColumnHeaders count) = List.map Z.of_nat (seq 1 count).
Proof.
  unfold getColumnHeaders. rewrite map_map. apply map_ext_in.
  intros k Hk. apply in_seq in Hk. apply header_of_column. lia.
Qed.

Lemma NoDup_map_injective {A B : Type} (f : A -> B) (l : list A) :
  (forall a b, In a l -> In b l -> f a = f b -> a = b) ->
  NoDup l -> NoDup (List.map f l).
Proof.
  intros Hinj Hnd. induction Hnd as [| x l Hnin _ IH]; cbn [List.map]; constructor.
  - intros Hin. apply in_map_iff in Hin. destruct Hin as (y & Hy & Hin).
    apply Hnin. rewrite (Hinj x y); [exact Hin | left; reflexivity | right; exact Hin | auto].
  - apply IH. intros a b Ha Hb. apply Hinj; right; assumption.
Qed.

Lemma headers_NoDup (count : nat) : NoDup (getColumnHeaders count).
Proof.
  apply (NoDup_map_inv Spec.label_value). rewrite headers_values.
  apply NoDup_map_injective; [| apply seq_NoDup].
  intros a b _ _ H. lia.
Qed.

Lemma headers_capitals (count : nat) :
  Forall (fun h => nonempty h = true /\ every is_upper h = true) (getColumnHeaders count).
Proof.
  apply Forall_forall. intros h Hin. unfold getColumnHeaders in Hin.
  apply in_map_iff in Hin. destruct Hin as (k & <- & Hk). apply in_seq in Hk.
  destruct (header_of_column k ltac:(lia)) as (H1 & H2 & _). split; assumption.
Qed.

Lemma headers_firstn (m n : nat) :
  (m <= n)%nat -> firstn m (getColumnHeaders n) = getColumnHeaders m.
Proof.
  intros Hmn. unfold getColumnHeaders. rewrite firstn_map. f_equal.
  replace n with (m + (n - m))%nat by lia.
  rewrite seq_app, firstn_app, length_seq, Nat.sub_diag. cbn [firstn].
  rewrite app_nil_r. apply firstn_all2. rewrite length_seq. lia.
Qed.

(** X3. The headers [getColumnHeaders] returns are non-empty words of
    capital letters, no two of them equal, and the headers for a smaller
    count are the first headers for a larger one. *)
Theorem getColumnHeaders_distinct_capitals (count : nat) :
  NoDup (getColumnHeaders count)
  /\ Forall (fun h => nonempty h = true /\ every is_upper h = true)
            (getColumnHeaders count)
  /\ (forall m, firstn (Nat.min m count) (getColumnHeaders count)
                = getColumnHeaders (Nat.min m count)).
Proof.
  split; [apply headers_NoDup |]. split; [apply headers_capitals |].
  intros m. apply headers_firstn. lia.
Qed.

End Headers.

Section NextColumn.

Lemma findIndex_range (id : string) (headers : list string) :
  (-1 <= findIndex id headers < Z.of_nat (List.length headers))%Z
  \/ (headers = [] /\ findIndex id headers = (-1)%Z).
Proof.
  induction headers as [| h rest IH]; [right; auto |]. left.
  cbn [findIndex List.length]. destruct (String.eqb h id); [lia |].
  destruct (findIndex id rest <? 0)%Z eqn:E.
  - lia.
  - apply Z.ltb_ge in E. destruct IH as [IH | [-> IH]]; [lia |].
    cbn in E. lia.
Qed.

Lemma findIndex_absent (id : string) (headers : list string) :
  ~ In id headers -> findIndex id headers = (-1)%Z.
Proof.
  induction headers as [| h rest IH]; intros Hnin; [reflexivity |].
  cbn [findIndex]. destruct (String.eqb h id) eqn:E.
  - apply String.eqb_eq in E. subst. exfalso. apply Hnin. left. reflexivity.
  - rewrite IH by (intros Hin; apply Hnin; right; exact Hin). reflexivity.
Qed.

Lemma findIndex_position (headers : list string) :
  NoDup headers ->
  forall i id, nth_error headers i = Some id -> findIndex id headers = Z.of_nat i.
Proof.
  induction 1 as [| h rest Hnin _ IH]; intros i id Hi.
  - destruct i; discriminate Hi.
  - destruct i as [| i]; cbn [nth_error] in Hi.
    + inversion Hi; subst. cbn [findIndex]. rewrite String.eqb_refl. reflexivity.
    + cbn [findIndex]. destruct (String.eqb h id) eqn:E.
      * apply String.eqb_eq in E. subst. exfalso. apply Hnin.
        eapply nth_error_In. exact Hi.
      * rewrite (IH i id Hi).
        destruct (Z.of_nat i <? 0)%Z eqn:E'; [apply Z.ltb_lt in E'; lia | lia].
Qed.

Lemma element_nat (headers : list string) (i : nat) :
  element headers (Z.of_nat i) = nth_error headers i.
Proof.
  unfold element. destruct (Z.of_nat i <? 0)%Z eqn:E; [apply Z.ltb_lt in E; lia |].
  rewrite Nat2Z.id. reflexivity.
Qed.

(** X4. For headers without repetition, [getNextColumn] returns the
    header that follows [id], and the first header when [id] is the last
    one; it also returns the first header when [id] is not a header at
    all, and [undefined] only when there is no header.  On the generated
    headers the column after the [k]-th is the [(k+1)]-th, and the column
    after the last is [A]. *)
Theorem getNextColumn_wraps (headers : list string) (i : nat) (id : string) :
  NoDup headers ->
  nth_error headers i = Some id ->
  getNextColumn id headers
  = (if (S i <? List.length headers)%nat then nth_error headers (S i)
     else nth_error headers 0)
  /\ (forall other, ~ In other headers ->
        getNextColumn other headers = nth_error headers 0)
  /\ (forall other, getNextColumn other [] = None)
  /\ (forall n k, (1 <= k <= n)%nat ->
        getNextColumn (Spec.column_label (Z.of_nat k)) (getColumnHeaders n)
        = Some (if (k <? n)%nat then Spec.column_label (Z.of_nat (S k)) else "A")).
Proof.
  intros Hnd Hi.
  assert (Hfound : forall l j x, NoDup l -> nth_error l j = Some x ->
            getNextColumn x l
            = if (S j <? List.length l)%nat then nth_error l (S j) else nth_error l 0).
  { intros l j x Hl Hj. unfold getNextColumn. rewrite (findIndex_position l Hl j x Hj).
    assert (Hlt : (j < List.length l)%nat) by (apply nth_error_Some; congruence).
    destruct (S j <? List.length l)%nat eqn:E.
    - apply Nat.ltb_lt in E.
      destruct (Z.of_nat j <? Z.of_nat (List.length l) - 1)%Z eqn:E';
        [| apply Z.ltb_ge in E'; lia].
      replace (Z.of_nat j + 1)%Z with (Z.of_nat (S j)) by lia. apply element_nat.
    - apply Nat.ltb_ge in E.
      destruct (Z.of_nat j <? Z.of_nat (List.length l) - 1)%Z eqn:E';
        [apply Z.ltb_lt in E'; lia |].
      apply (element_nat l 0). }
  split; [apply Hfound; assumption |].
  split.
  { intros other Hnin. unfold getNextColumn. rewrite findIndex_absent by exact Hnin.
    destruct headers as [| h rest]; [reflexivity |].
    cbn [List.length]. destruct (-1 <? Z.of_nat (S (List.length rest)) - 1)%Z eqn:E;
      [| apply Z.ltb_ge in E; lia].
    apply (element_nat (h :: rest) 0). }
  split; [reflexivity |].
  intros n k Hk.
  assert (Hnth : forall j, (1 <= j <= n)%nat ->
            nth_error (getColumnHeaders n) (j - 1) = Some (Spec.column_label (Z.of_nat j))).
  { intros j Hj. unfold getColumnHeaders.
    rewrite nth_error_map, nth_error_seq.
    destruct (j - 1 <? n)%nat eqn:E; [| apply Nat.ltb_ge in E; lia].
    cbn [option_map]. f_equal. unfold Spec.column_label.
    rewrite header_loop_bijective26 by lia. f_equal. lia. }
  rewrite (Hfound (getColumnHeaders n) (k - 1)%nat _ (headers_NoDup n) (Hnth k Hk)).
  rewrite getColumnHeaders_length.
  replace (S (k - 1)) with k by lia.
  destruct (k <? n)%nat eqn:E.
  - apply Nat.ltb_lt in E.
    replace k with (S k - 1)%nat at 1 by lia. apply Hnth. lia.
  - apply (Hnth 1%nat). lia.
Qed.

Lemma getNextColumn_wraps_witness :
  getNextColumn "Z" (getColumnHeaders 28) = Some "AA"
  /\ getNextColumn "AB" (getColumnHeaders 28) = Some "A"
  /\ getNextColumn "A1" (getColumnHeaders 28) = Some "A".
Proof.
  destruct (getNextColumn_wraps (getColumnHeaders 28) 25 "Z"
              (headers_NoDup 28) eq_refl) as (H1 & H2 & _).
  split; [exact H1 |]. split; [reflexivity |].
  apply H2. vm_compute. intuition discriminate.
Defined.

End NextColumn.

Section Grid.

Lemma digits_fold_uint (d : Decimal.uint) (acc : N) :
  fold_left (fun a c => (10 * a + digit_value c)%N)
            (list_ascii_of_string (NilEmpty.string_of_uint d)) acc
  = (DecimalPos.Unsigned.of_lu (Decimal.rev d)
     + acc * 10 ^ DecimalPos.Unsigned.usize d)%N.
Proof.
  revert acc.
  induction d as [| d IH | d IH | d IH | d IH | d IH | d IH | d IH | d IH | d IH | d IH];
    intros acc; [cbn; lia | ..];
    cbn [NilEmpty.string_of_uint list_ascii_of_string fold_left];
    rewrite IH;
    match goal with
    | |- context [Decimal.rev (?D d)] =>
        change (Decimal.rev (D d)) with (Decimal.revapp d (D Decimal.Nil));
        rewrite (DecimalPos.Unsigned.of_lu_revapp d (D Decimal.Nil))
    end;
    cbn [DecimalPos.Unsigned.usize DecimalPos.Unsigned.of_lu];
    rewrite N.pow_succ_r';
    match goal with
    | |- context [digit_value ?c] =>
        let v := eval vm_compute in (digit_value c) in
        change (digit_value c) with v
    end;
    set (P := (10 ^ _)%N); set (R := DecimalPos.Unsigned.of_lu _); lia.
Qed.

(** The digits printed for a row number denote that number. *)
Lemma digits_value_digits_of (n : N) : digits_value (digits_of n) = n.
Proof.
  unfold digits_value, digits_of, NilZero.string_of_uint.
  destruct (N.to_uint n) as [| | | | | | | | | |] eqn:E;
    try (rewrite <- E; rewrite digits_fold_uint;
         rewrite <- DecimalPos.Unsigned.of_uint_alt;
         change (Pos.of_uint (N.to_uint n)) with (N.of_uint (N.to_uint n));
         rewrite DecimalN.Unsigned.of_to; lia).
  rewrite <- (DecimalN.Unsigned.of_to n), E. reflexivity.
Qed.

Lemma string_of_uint_digits (d : Decimal.uint) :
  every is_digit (NilEmpty.string_of_uint d) = true.
Proof. induction d; cbn [NilEmpty.string_of_uint every]; try rewrite IHd; reflexivity. Qed.

Lemma digits_of_digits (n : N) :
  nonempty (digits_of n) = true /\ every is_digit (digits_of n) = true.
Proof.
  unfold digits_of, NilZero.string_of_uint.
  destruct (N.to_uint n) eqn:E; split; try reflexivity;
    rewrite <- E at 1; apply string_of_uint_digits.
Qed.

(** The id of a row of a header parses back to the header and the row. *)
Lemma parseCellId_header_row (header : string) (row : N) :
  nonempty header = true -> every is_upper header = true ->
  parseCellId (header ++ digits_of row) = Ok (header, row).
Proof.
  intros Hh Uh. destruct (digits_of_digits row) as [Hd Dd].
  rewrite parseCellId_letters_digits by assumption.
  unfold parseInt. rewrite digits_value_digits_of. reflexivity.
Qed.

Lemma map_by_index {A B : Type} (g : option A -> B) (l : list A) :
  List.map (fun i => g (nth_error l i)) (seq 0 (List.length l))
  = List.map (fun x => g (Some x)) l.
Proof.
  induction l as [| x l IH]; [reflexivity |].
  cbn [List.length seq List.map nth_error]. f_equal.
  rewrite <- seq_shift, map_map. exact IH.
Qed.

(** A row of the grid: the headers in order, each followed by the row. *)
Lemma grid_row (row : nat) :
  List.map (fun col => grid_cell_id col row) (seq 0 COLUMNS)
  = List.map (fun header => header ++ digits_of (N.of_nat row)) columnHeaders.
Proof.
  unfold grid_cell_id.
  rewrite <- (getColumnHeaders_length COLUMNS) at 1. fold columnHeaders.
  apply (map_by_index
           (fun o => match o with
                     | Some header => header ++ digits_of (N.of_nat row)
                     | None => "NaN"
                     end)).
Qed.

Lemma in_grid_ids (cellId : string) :
  In cellId grid_ids <->
  exists header row, In header columnHeaders /\ (1 <= row <= ROWS)%nat
                     /\ cellId = header ++ digits_of (N.of_nat row).
Proof.
  unfold grid_ids. rewrite in_flat_map. split.
  - intros (row & Hrow & Hin). rewrite grid_row in Hin.
    apply in_map_iff in Hin. destruct Hin as (h & <- & Hh).
    apply in_seq in Hrow. exists h, row. split; [exact Hh |]. split; [lia | reflexivity].
  - intros (h & row & Hh & Hrow & ->). exists row. split; [apply in_seq; lia |].
    rewrite grid_row.
    apply (in_map (fun header => header ++ digits_of (N.of_nat row))). exact Hh.
Qed.

Lemma header_in_columnHeaders (header : string) :
  In header columnHeaders -> nonempty header = true /\ every is_upper header = true.
Proof.
  intros Hin. pose proof (headers_capitals COLUMNS) as H.
  rewrite Forall_forall in H. apply H. exact Hin.
Qed.

Lemma NoDup_flat_map {A B : Type} (f : A -> list B) (l : list A) :
  NoDup l ->
  (forall a, In a l -> NoDup (f a)) ->
  (forall a a' b, In a l -> In a' l -> In b (f a) -> In b (f a') -> a = a') ->
  NoDup (flat_map f l).
Proof.
  intros Hnd. induction Hnd as [| x l Hnin _ IH]; intros Hf Hdisj; [constructor |].
  cbn [flat_map]. apply NoDup_app.
  - apply Hf. left. reflexivity.
  - apply IH.
    + intros a Ha. apply Hf. right. exact Ha.
    + intros a a' b Ha Ha'. apply Hdisj; right; assumption.
  - intros b Hb Hb'. apply in_flat_map in Hb'. destruct Hb' as (a' & Ha' & Hb').
    apply Hnin. rewrite (Hdisj x a' b); [exact Ha' | left; reflexivity | right; exact Ha' | | ];
      assumption.
Qed.

(** X5. The grid has [ROWS * COLUMNS] cell elements with pairwise
    different ids, and the id of the element in the column of a header
    and in a row parses back to exactly that header and that row. *)
Theorem grid_ids_parse_back :
  List.length grid_ids = (ROWS * COLUMNS)%nat
  /\ NoDup grid_ids
  /\ Forall (fun cellId =>
               exists header row,
                 In header columnHeaders /\ (1 <= row <= ROWS)%nat
                 /\ cellId = header ++ digits_of (N.of_nat row)
                 /\ parseCellId cellId = Ok (header, N.of_nat row))
            grid_ids.
Proof.
  split; [| split].
  - unfold grid_ids.
    assert (H : forall rows,
               List.length
                 (flat_map (fun row => List.map (fun col => grid_cell_id col row)
                                                (seq 0 COLUMNS)) rows)
               = (List.length rows * COLUMNS)%nat).
    { induction rows as [| r rows IH]; [reflexivity |].
      cbn [flat_map List.length]. rewrite length_app, length_map, length_seq, IH.
      reflexivity. }
    rewrite H, length_seq. reflexivity.
  - unfold grid_ids. apply NoDup_flat_map; [apply seq_NoDup | |].
    + intros row _. rewrite grid_row.
      apply NoDup_map_injective; [| apply headers_NoDup].
      intros a b Ha Hb E.
      destruct (header_in_columnHeaders a Ha) as [Ha1 Ha2].
      destruct (header_in_columnHeaders b Hb) as [Hb1 Hb2].
      pose proof (parseCellId_header_row a (N.of_nat row) Ha1 Ha2) as Pa.
      pose proof (parseCellId_header_row b (N.of_nat row) Hb1 Hb2) as Pb.
      rewrite E in Pa. congruence.
    + intros row row' b _ _ Hb Hb'. rewrite grid_row in Hb, Hb'.
      apply in_map_iff in Hb. destruct Hb as (h & <- & Hh).
      apply in_map_iff in Hb'. destruct Hb' as (h' & E & Hh').
      destruct (header_in_columnHeaders h Hh) as [H1 H2].
      destruct (header_in_columnHeaders h' Hh') as [H1' H2'].
      pose proof (parseCellId_header_row h (N.of_nat row) H1 H2) as P.
      pose proof (parseCellId_header_row h' (N.of_nat row') H1' H2') as P'.
      rewrite E in P'. rewrite P in P'. inversion P'. lia.
  - apply Forall_forall. intros cellId Hin.
    apply in_grid_ids in Hin. destruct Hin as (h & row & Hh & Hrow & ->).
    exists h, row. repeat split; try assumption; try lia.
    destruct (header_in_columnHeaders h Hh) as [H1 H2].
    apply parseCellId_header_row; assumption.
Qed.

Lemma grid_id_parses (cellId : string) : In cellId grid_ids -> parses cellId.
Proof.
  intros Hin. apply in_grid_ids in Hin. destruct Hin as (h & row & Hh & _ & ->).
  destruct (header_in_columnHeaders h Hh) as [H1 H2].
  exists h, (N.of_nat row). apply parseCellId_header_row; assumption.
Qed.

End Grid.

(** ** Edits of the grid *)

Section GridEdits.

Variable js_eval : string -> completion.

Lemma update_one_keys (updated : string) (p : page) (k : string) :
  keys (cells (fst (update_one js_eval updated p k))) = keys (cells p).
Proof.
  unfold update_one.
  destruct (get (cells p) k) as [record |] eqn:Ek; [| reflexivity].
  destruct (formula record) as [f |]; [| reflexivity].
  destruct (includes f updated); [| reflexivity].
  destruct (bind (parseCellId k) _) as [v |]; [| reflexivity].
  cbn [fst write_text write_cell cells].
  apply keys_set_present. eapply get_some_in_keys. exact Ek.
Qed.

Lemma for_each_keys (updated : string) (ks : list string) :
  forall p, keys (cells (fst (for_each (update_one js_eval updated) p ks))) = keys (cells p).
Proof.
  induction ks as [| k ks IH]; intros p; [reflexivity |].
  cbn [for_each].
  pose proof (update_one_keys updated p k) as H1.
  destruct (update_one js_eval updated p k) as [p1 [[] |]]; cbn [fst] in *.
  - rewrite IH. exact H1.
  - exact H1.
Qed.

Lemma committed_cells (cellId innerText : string) (p : page) :
  exists c, cells (committed js_eval cellId innerText p) = set (cells p) cellId c.
Proof.
  unfold committed. cbv zeta.
  destruct (startsWith (toUpperCase (trim innerText)) "=").
  - destruct (evaluateExpression_returns js_eval (cells p)
                (substring_from 1 (toUpperCase (trim innerText)))) as [v ->].
    eexists. reflexivity.
  - eexists. reflexivity.
Qed.

Lemma evaluateFormula_keys_set (cellId innerText : string) (p : page) :
  exists c,
    keys (cells (fst (evaluateFormula js_eval cellId innerText p)))
    = keys (set (cells p) cellId c).
Proof.
  rewrite evaluateFormula_committed. unfold updateDependentCells. rewrite for_each_keys.
  destruct (committed_cells cellId innerText p) as [c ->].
  exists c. reflexivity.
Qed.

(** X6. In a well-formed table with safe rows, an edit of editable text
    in a cell whose id parses never removes a key of the cell table and
    never changes the order of the keys: the keys after the edit are the
    keys before it, followed by the edited id when it had no record yet. *)
Theorem evaluateFormula_keys (cellId innerText : string) (p : page) :
  well_formed (cells p) -> safe_table (cells p) -> parses cellId ->
  editable innerText = true ->
  keys (cells (fst (evaluateFormula js_eval cellId innerText p)))
  = if existsb (String.eqb cellId) (keys (cells p))
    then keys (cells p)
    else (keys (cells p) ++ [cellId])%list.
Proof.
  intros _ _ _ _.
  destruct (evaluateFormula_keys_set cellId innerText p) as [c ->].
  destruct (existsb (String.eqb cellId) (keys (cells p))) eqn:E.
  - apply keys_set_present. apply existsb_exists in E.
    destruct E as (k & Hk & Ek). apply String.eqb_eq in Ek. subst. exact Hk.
  - rewrite keys_set_absent.
    + rewrite keys_app. reflexivity.
    + intros Hin. assert (existsb (String.eqb cellId) (keys (cells p)) = true).
      { apply existsb_exists. exists cellId. split; [exact Hin | apply String.eqb_refl]. }
      congruence.
Qed.

Lemma edits_keys_in_grid (l : list (string * string)) :
  Forall (fun e => In (fst e) grid_ids) l ->
  forall p, Forall (fun k => In k grid_ids) (keys (cells p)) ->
            Forall (fun k => In k grid_ids) (keys (cells (edits js_eval l p))).
Proof.
  induction 1 as [| [cellId innerText] l Hin _ IH]; intros p Hp; [exact Hp |].
  unfold edits. cbn [fold_left fst snd]. apply IH.
  destruct (evaluateFormula_keys_set cellId innerText p) as [c ->].
  destruct (in_dec string_dec cellId (keys (cells p))) as [Hk | Hk].
  - rewrite keys_set_present by exact Hk. exact Hp.
  - rewrite keys_set_absent by exact Hk. rewrite keys_app.
    apply Forall_app. split; [exact Hp | constructor; [exact Hin | constructor]].
Qed.

(** X7. Starting from the empty table, after any sequence of edits of
    editable text in cell elements of the grid the table is well formed,
    its formulas have safe rows and its keys are ids of the grid, and the
    handler returns on every further such edit without raising an
    exception. *)
Theorem grid_edits_return (l : list (string * string)) (cellId innerText : string) :
  Forall (fun e => In (fst e) grid_ids /\ editable (snd e) = true) l ->
  In cellId grid_ids ->
  editable innerText = true ->
  let p := edits js_eval l empty_page in
  well_formed (cells p)
  /\ safe_table (cells p)
  /\ Forall (fun k => In k grid_ids) (keys (cells p))
  /\ snd (evaluateFormula js_eval cellId innerText p) = Ok tt.
Proof.
  intros Hl Hin Hedit p.
  destruct (edits_safe_table js_eval l) with (p := empty_page) as [Hwf Hsafe].
  { eapply Forall_impl; [| exact Hl]. intros e He. cbv beta in He |- *.
    destruct He as [He1 He2]. split; [apply grid_id_parses; exact He1 | exact He2]. }
  { apply empty_well_formed. }
  { apply empty_safe_table. }
  split; [exact Hwf |]. split; [exact Hsafe |].
  split.
  { apply edits_keys_in_grid; [| constructor].
    eapply Forall_impl; [| exact Hl]. intros e He. cbv beta in He |- *.
    destruct He as [He1 _]. exact He1. }
  destruct (evaluateFormula_pass js_eval cellId innerText p Hwf (grid_id_parses _ Hin))
    as (cells' & Hrun & _).
  rewrite Hrun. reflexivity.
Qed.

(** X8. In the variant of [part_000], in a table with safe rows, an edit
    whose text is editable and, trimmed, starts with [=] stores a record
    without a [formula] property, and the update of dependent cells that
    follows stops on a [TypeError]; so does the update after every later
    edit of editable text in another cell. *)
Theorem part_000_formula_edit_throws (cellId innerText : string) (p : page) :
  parses cellId ->
  safe_table (cells p) ->
  editable innerText = true ->
  startsWith (trim innerText) "=" = true ->
  let p' := fst (evaluateFormula_part_000 js_eval cellId innerText p) in
  snd (evaluateFormula_part_000 js_eval cellId innerText p) = TypeError
  /\ (exists v, get (cells p') cellId
                = Some {| formula := None;
                          updatedFormula := Some (toUpperCase (trim innerText));
                          value := v |})
  /\ (forall other otherText,
         other <> cellId ->
         editable otherText = true ->
         snd (evaluateFormula_part_000 js_eval other otherText p') = TypeError).
Proof.
  intros _ _ _ Hstart p'.
  destruct (evaluateFormula_part_000_formula_throws js_eval cellId innerText p Hstart)
    as (Hthrow & v & Hget).
  split; [exact Hthrow |]. split; [exists v; exact Hget |].
  intros other otherText Hne _. fold p' in Hget.
  set (c := {| formula := None; updatedFormula := Some (toUpperCase (trim innerText));
               value := v |}) in *.
  assert (Hne' : other <> cellId) by exact Hne.
  rewrite evaluateFormula_part_000_unfold. cbv zeta.
  assert (Hstop : forall q, get (cells q) cellId = Some c ->
                            snd (updateDependentCells js_eval other q) = TypeError).
  { intros q Hq. unfold updateDependentCells.
    apply (for_each_stops js_eval other _ _ cellId c); [| exact Hq | reflexivity].
    eapply get_some_in_keys. exact Hq. }
  destruct (startsWith (trim otherText) "=").
  - destruct (evaluateExpression_returns js_eval (cells p')
                (substring_from 1 (toUpperCase (trim otherText)))) as [w ->].
    apply Hstop. cbn [write_text write_cell cells].
    rewrite get_set_other by exact Hne'. exact Hget.
  - apply Hstop. cbn [write_cell cells].
    rewrite get_set_other by exact Hne'. exact Hget.
Qed.

End GridEdits.

Lemma grid_edits_return_witness :
  In "A1" grid_ids /\ In "B2" grid_ids
  /\ snd (evaluateFormula arith_only "B2" "=A1+1"
            (edits arith_only [("A1", "5")] empty_page)) = Ok tt.
Proof.
  assert (HA : In "A1" grid_ids).
  { apply in_grid_ids. exists "A", 1%nat. repeat split; try (vm_compute; lia).
    vm_compute. auto. }
  assert (HB : In "B2" grid_ids).
  { apply in_grid_ids. exists "B", 2%nat. repeat split; try (vm_compute; lia).
    vm_compute. auto. }
  split; [exact HA |]. split; [exact HB |].
  assert (Hl : Forall (fun e : string * string =>
                         In (fst e) grid_ids /\ editable (snd e) = true) [("A1", "5")]).
  { apply Forall_cons; [split; [exact HA | reflexivity] | apply Forall_nil]. }
  exact (proj2 (proj2 (proj2
           (grid_edits_return arith_only [("A1", "5")] "B2" "=A1+1" Hl HB eq_refl)))).
Defined.

Lemma evaluateFormula_keys_witness :
  keys (cells (fst (evaluateFormula arith_only "B2" "=A1+1"
                      (edits arith_only [("A1", "5"); ("C3", "7")] empty_page))))
  = ["A1"; "C3"; "B2"]
  /\ keys (cells (fst (evaluateFormula arith_only "A1" "6"
                        (edits arith_only [("A1", "5"); ("C3", "7")] empty_page))))
     = ["A1"; "C3"].
Proof.
  destruct (edits_safe_table arith_only [("A1", "5"); ("C3", "7")])
    with (p := empty_page) as [Hwf Hsafe].
  { repeat (apply Forall_cons;
            [split; [eapply parses_computed; reflexivity | reflexivity] |]).
    apply Forall_nil. }
  { apply empty_well_formed. }
  { apply empty_safe_table. }
  split.
  - rewrite (evaluateFormula_keys arith_only "B2" "=A1+1" _ Hwf Hsafe
               (parses_computed "B2" "B" 2%N eq_refl) eq_refl).
    reflexivity.
  - rewrite (evaluateFormula_keys arith_only "A1" "6" _ Hwf Hsafe
               (parses_computed "A1" "A" 1%N eq_refl) eq_refl).
    reflexivity.
Defined.

Lemma part_000_formula_edit_throws_witness :
  snd (evaluateFormula_part_000 arith_only "A3" "=1+2" empty_page) = TypeError
  /\ snd (evaluateFormula_part_000 arith_only "A1" "5"
            (fst (evaluateFormula_part_000 arith_only "A3" "=1+2" empty_page)))
     = TypeError.
Proof.
  destruct (part_000_formula_edit_throws arith_only "A3" "=1+2" empty_page
              (parses_computed "A3" "A" 3%N eq_refl) empty_safe_table eq_refl eq_refl)
    as (H1 & _ & H3).
  split; [exact H1 |]. apply H3; [discriminate | reflexivity].
Defined.

(** ** Text search and replacement *)

Section Replace.

Lemma prefix_empty (s : string) : String.prefix EmptyString s = true.
Proof. destruct s; reflexivity. Qed.

Lemma prefix_app (pat s : string) : String.prefix pat (pat ++ s) = true.
Proof.
  induction pat as [| c pat IH]; [apply prefix_empty |].
  simpl. destruct (Ascii.ascii_dec c c); [exact IH | congruence].
Qed.


Lemma drop_app_length (pat s : string) : drop (String.length pat) (pat ++ s) = s.
Proof. induction pat as [| c pat IH]; [reflexivity | exact IH]. Qed.




Lemma find_first_here (pat post : string) :
  find_first pat (pat ++ post) = Some (EmptyString, post).
Proof.
  destruct (pat ++ post) as [| x r] eqn:E; cbn [find_first];
    rewrite <- E, prefix_app, drop_app_length; reflexivity.
Qed.

(** The search for a text that starts with a capital passes over text
    without capitals. *)
Lemma find_first_after (c : ascii) (pat pre s : string) :
  is_upper c = true -> every not_upper pre = true ->
  find_first (String c pat) (pre ++ String c pat ++ s) = Some (pre, s).
Proof.
  intros Hc. induction pre as [| x pre IH]; intros Hpre.
  - apply (find_first_here (String c pat) s).
  - simpl in Hpre. apply andb_true_iff in Hpre. destruct Hpre as [Hx Hpre].
    simpl append. cbn [find_first String.prefix].
    destruct (Ascii.ascii_dec c x) as [<- | Hne].
    + unfold not_upper in Hx. rewrite Hc in Hx. discriminate Hx.
    + change (String c (pat ++ s)) with (String c pat ++ s).
      rewrite (IH Hpre). reflexivity.
Qed.

Lemma getSubstitution_plain (matched preceding following template : string) :
  every is_plain template = true ->
  getSubstitution matched preceding following template = template.
Proof.
  induction template as [| c t IH]; [reflexivity |].
  cbn [every getSubstitution]. intros H. apply andb_true_iff in H. destruct H as [Hc Ht].
  unfold is_plain in Hc. apply negb_true_iff in Hc. rewrite Hc, (IH Ht). reflexivity.
Qed.

Lemma digit_is_plain (c : ascii) : is_digit c = true -> is_plain c = true.
Proof.
  intros H. unfold is_plain. destruct (Ascii.eqb c "$") eqn:E; [| reflexivity].
  apply Ascii.eqb_eq in E. subst. discriminate H.
Qed.

Lemma digits_of_plain (n : N) : every is_plain (digits_of n) = true.
Proof.
  apply (every_weaken is_digit); [apply digit_is_plain | apply digits_of_digits].
Qed.

Lemma zeros_plain (k : nat) : every is_plain (zeros k) = true.
Proof. induction k as [| k IH]; [reflexivity | exact IH]. Qed.

Lemma take_every (p : ascii -> bool) (k : nat) (s : string) :
  every p s = true -> every p (take k s) = true.
Proof.
  revert s. induction k as [| k IH]; intros s H; [reflexivity |].
  destruct s as [| c s]; [reflexivity |].
  cbn [take every] in *. apply andb_true_iff in H. destruct H as [Hc Hs].
  rewrite Hc, (IH s Hs). reflexivity.
Qed.

Lemma drop_every (p : ascii -> bool) (k : nat) (s : string) :
  every p s = true -> every p (drop k s) = true.
Proof.
  revert s. induction k as [| k IH]; intros s H; [exact H |].
  destruct s as [| c s]; [reflexivity |].
  cbn [drop every] in *. apply andb_true_iff in H. apply IH. tauto.
Qed.

Lemma exponent_suffix_plain (n : Z) : every is_plain (exponent_suffix n) = true.
Proof.
  unfold exponent_suffix. cbv zeta. destruct (n - 1 <? 0)%Z;
    cbn [append every]; rewrite digits_of_plain; reflexivity.
Qed.

Lemma layout_plain (ds : string) (n : Z) :
  every is_plain ds = true -> every is_plain (layout ds n) = true.
Proof.
  intros H. unfold layout. cbv zeta.
  repeat match goal with
         | |- context [if ?b then _ else _] => destruct b
         end;
    repeat (rewrite every_app || cbn [append every]);
    rewrite ?H, ?zeros_plain, ?exponent_suffix_plain, ?take_every, ?drop_every by exact H;
    reflexivity.
Qed.

(** The text printed for a number has no [$]. *)
Lemma toString_plain (x : number) : every is_plain (toString x) = true.
Proof.
  assert (Hpos : forall m e, every is_plain (positive_toString m e) = true).
  { intros m e. unfold positive_toString.
    destruct (fraction m e) as [p q].
    destruct (shortest 17 _ p q _ 1) as [s0 t0].
    destruct (strip_zeros 400 s0 t0) as [s t].
    apply layout_plain. apply digits_of_plain. }
  destruct x as [sg | sg | | sg m e]; try destruct sg; try reflexivity.
  - cbn [toString append every]. rewrite Hpos. reflexivity.
  - apply Hpos.
Qed.

End Replace.

(** ** More on the range function *)

Section SumRangeMore.

Lemma fold_left_same {A B : Type} (l : list B) (a : A) :
  fold_left (fun acc _ => acc) l a = a.
Proof. induction l as [| x l IH]; [reflexivity | exact IH]. Qed.

(** X9. For row numbers up to [MAX_SAFE_INTEGER]: when the end row is
    smaller than the start row, or the first character of the end column
    comes before the first character of the start column, [sumRange] looks
    up no cell and returns 0. *)
Theorem sumRange_empty_range (cells : store) (c1 c2 : ascii) (r1 r2 : string)
    (startRow endRow : N) :
  safe_row startRow = true -> safe_row endRow = true ->
  (endRow < startRow)%N \/ (code c2 < code c1)%nat ->
  sumRange_lookups (String c1 r1) startRow (String c2 r2) endRow = []
  /\ sumRange cells (String c1 r1) startRow (String c2 r2) endRow = zero.
Proof.
  intros _ _ H.
  assert (Hl : sumRange_lookups (String c1 r1) startRow (String c2 r2) endRow = []).
  { unfold sumRange_lookups, row_numbers, col_codes. cbn [charCodeAt0].
    destruct H as [Hrow | Hcol].
    - replace (N.to_nat (endRow + 1 - startRow)) with 0%nat by lia. reflexivity.
    - replace (S (code c2) - code c1)%nat with 0%nat by lia. cbn [seq List.map].
      induction (List.map _ (seq 0 _)) as [| x l IH]; [reflexivity | exact IH]. }
  split; [exact Hl |]. rewrite sumRange_fold, Hl. reflexivity.
Qed.

Lemma sumRange_empty_range_witness :
  sumRange_lookups "A" 3 "A" 1 = []
  /\ sumRange [("A1", literal "1"); ("A2", literal "2")] "A" 3 "A" 1 = zero
  /\ sumRange [("A1", literal "1"); ("B1", literal "2")] "B" 1 "A" 1 = zero.
Proof.
  destruct (sumRange_empty_range [("A1", literal "1"); ("A2", literal "2")]
              "A" "A" "" "" 3 1 eq_refl eq_refl (or_introl eq_refl)) as [H1 H2].
  split; [exact H1 |]. split; [exact H2 |].
  apply (sumRange_empty_range _ "B" "A" "" "" 1 1 eq_refl eq_refl).
  right. vm_compute. lia.
Defined.

(** X10. For row numbers up to [MAX_SAFE_INTEGER]: if one of the cells
    [sumRange] looks up holds a value that [parseFloat] does not read as a
    number, such as the texts ["N/A"] and [""] the evaluator returns for a
    failed formula, the sum is [NaN]. *)
Theorem sumRange_non_numeric_is_NaN (cells : store) (startCol : string) (startRow : N)
    (endCol : string) (endRow : N) (cellId : string) (r : cell) :
  safe_row startRow = true -> safe_row endRow = true ->
  In cellId (sumRange_lookups startCol startRow endCol endRow) ->
  get cells cellId = Some r ->
  parseFloat (value r) = NaN ->
  sumRange cells startCol startRow endCol endRow = NaN.
Proof.
  intros _ _ Hin Hget Hnan. rewrite sumRange_fold.
  apply in_split in Hin. destruct Hin as (l1 & l2 & ->).
  assert (Hterm : lookup_term cells cellId = NaN).
  { unfold lookup_term. rewrite Hget. exact Hnan. }
  rewrite fold_left_app. cbn [fold_left].
  rewrite Hterm, add_NaN_r. apply fold_add_NaN.
Qed.

Lemma sumRange_non_numeric_is_NaN_witness :
  parseFloat (VString "N/A") = NaN
  /\ parseFloat (VString "") = NaN
  /\ sumRange [("A1", literal "1"); ("A2", recomputed "=FOO(B1:B2)" (VString "N/A"))]
              "A" 1 "A" 2 = NaN
  /\ sumRange [("A1", literal "1"); ("A2", literal "")] "A" 1 "A" 2 = NaN.
Proof.
  split; [reflexivity |]. split; [reflexivity |]. split.
  - apply (sumRange_non_numeric_is_NaN _ "A" 1%N "A" 2%N "A2"
             (recomputed "=FOO(B1:B2)" (VString "N/A")) eq_refl eq_refl);
      [vm_compute; auto | reflexivity | reflexivity].
  - apply (sumRange_non_numeric_is_NaN _ "A" 1%N "A" 2%N "A2" (literal "")
             eq_refl eq_refl);
      [vm_compute; auto | reflexivity | reflexivity].
Defined.

End SumRangeMore.

(** ** A call of [SUM] inside an expression *)

Section SumCall.

Variable js_eval : string -> completion.

Lemma range_at_call_rest (a b post : string) :
  cell_label a -> cell_label b ->
  Regex.range_at (a ++ String ":" (b ++ String ")" post))
  = Some (a ++ String ":" b, String ")" post).
Proof.
  intros La Lb. unfold Regex.range_at.
  rewrite (cellref_at_label a _ La) by reflexivity.
  cbn [Regex.char_at]. rewrite Ascii.eqb_refl.
  rewrite (cellref_at_label b _ Lb) by reflexivity.
  reflexivity.
Qed.

Lemma call_text_app (name a b post : string) :
  call_text name a b ++ post
  = name ++ String "(" (a ++ String ":" (b ++ String ")" post)).
Proof.
  unfold call_text. rewrite append_assoc. cbn [append].
  rewrite append_assoc. cbn [append]. rewrite append_assoc. reflexivity.
Qed.

Lemma function_at_call (name a b post : string) :
  nonempty name = true -> every is_upper name = true ->
  cell_label a -> cell_label b ->
  Regex.function_at (call_text name a b ++ post) = Some (call_text name a b, post).
Proof.
  intros Hn Un La Lb. rewrite call_text_app. unfold Regex.function_at.
  rewrite letters_at_run; [| exact Hn | exact Un | reflexivity].
  cbn [Regex.char_at]. rewrite Ascii.eqb_refl.
  rewrite range_at_call_rest by assumption.
  cbn [Regex.char_at]. rewrite Ascii.eqb_refl.
  unfold call_text. do 2 f_equal. cbn [append]. rewrite append_assoc. reflexivity.
Qed.

Lemma function_at_not_upper (c : ascii) (t : string) :
  not_upper c = true -> Regex.function_at (String c t) = None.
Proof.
  intros Hc. unfold Regex.function_at. rewrite letters_at_fails; [reflexivity |].
  simpl. apply negb_true_iff. exact Hc.
Qed.

(** What [evaluateFunction] hands to the reducer. *)
Lemma evaluateFunction_on_call (cells : store) (name la da lb db functionName : string) :
  every is_upper name = true ->
  nonempty la = true -> every is_upper la = true ->
  nonempty da = true -> every is_digit da = true ->
  nonempty lb = true -> every is_upper lb = true ->
  nonempty db = true -> every is_digit db = true ->
  evaluateFunction cells (call_text name (la ++ da) (lb ++ db)) functionName
  = match own_property SUPPORTED_FUNCTIONS functionName with
    | Some getFunction => Ok (VNumber (getFunction cells la (parseInt da) lb (parseInt db)))
    | None => Ok (VString "")
    end.
Proof.
  intros Un Hla Ula Hda Dda Hlb Ulb Hdb Ddb.
  assert (La : cell_label (la ++ da)) by (exists la, da; auto).
  assert (Lb : cell_label (lb ++ db)) by (exists lb, db; auto).
  unfold evaluateFunction.
  rewrite first_range_in_call by assumption. cbn [first_of bind].
  rewrite (split_before ":" is_alnum) by (reflexivity || apply cell_label_alnum; exact La).
  rewrite (split_none ":" is_alnum) by (reflexivity || apply cell_label_alnum; exact Lb).
  rewrite !parseCellId_letters_digits by assumption. cbn [bind].
  reflexivity.
Qed.

(** X11. In an expression made of text without capital letters, a call
    [SUM(a:b)] with row numbers up to [MAX_SAFE_INTEGER] and any further
    text, the evaluator replaces the call by the printed sum of the range
    and hands the result to the host's evaluation; the text after the call
    is handed over as it stands, cell references included (they are not
    replaced by cell values). *)
Theorem evaluateExpression_SUM_call (cells : store) (pre la da lb db post : string) :
  every not_upper pre = true ->
  nonempty la = true -> every is_upper la = true ->
  nonempty da = true -> every is_digit da = true ->
  nonempty lb = true -> every is_upper lb = true ->
  nonempty db = true -> every is_digit db = true ->
  safe_row (parseInt da) = true -> safe_row (parseInt db) = true ->
  let sum := sumRange cells la (parseInt da) lb (parseInt db) in
  substituted cells (pre ++ call_text "SUM" (la ++ da) (lb ++ db) ++ post)
  = Ok (Some (pre ++ toString sum ++ post))
  /\ evaluateExpression js_eval cells
       (pre ++ call_text "SUM" (la ++ da) (lb ++ db) ++ post)
     = Ok (evaluate_text js_eval (pre ++ toString sum ++ post)).
Proof.
  intros Hpre Hla Ula Hda Dda Hlb Ulb Hdb Ddb _ _ sum.
  assert (La : cell_label (la ++ da)) by (exists la, da; auto).
  assert (Lb : cell_label (lb ++ db)) by (exists lb, db; auto).
  set (call := call_text "SUM" (la ++ da) (lb ++ db)).
  assert (Hsub : substituted cells (pre ++ call ++ post)
                 = Ok (Some (pre ++ toString sum ++ post))).
  { unfold substituted.
    assert (Hfirst : Regex.first_match Regex.function_at (pre ++ call ++ post) = Some call).
    { unfold Regex.first_match.
      rewrite (search_pass _ not_upper);
        [| intros c t Hc; rewrite function_at_not_upper by exact Hc; reflexivity
         | exact Hpre].
      apply search_found. unfold call.
      rewrite function_at_call by (reflexivity || assumption). reflexivity. }
    assert (Hname : replace (hd EmptyString (split "(" call)) "=" "" = "SUM")
      by (unfold call; apply function_name_of_call; reflexivity).
    assert (Hfun : evaluateFunction cells call "SUM" = Ok (VNumber sum)).
    { unfold call.
      rewrite (evaluateFunction_on_call cells "SUM" la da lb db "SUM")
        by (reflexivity || assumption).
      reflexivity. }
    rewrite Hfirst. cbv zeta. rewrite !Hname.
    change (hasOwnProperty SUPPORTED_FUNCTIONS "SUM") with true. cbv iota.
    rewrite Hfun. cbn [bind ToString].
    unfold replace.
    assert (Hfind : find_first call (pre ++ call ++ post) = Some (pre, post)).
    { change call
        with (String "S" (String "U" (String "M"
                (String "(" ((la ++ da) ++ String ":" ((lb ++ db) ++ String ")" EmptyString)))))).
      apply (find_first_after "S"); [reflexivity | exact Hpre]. }
    rewrite Hfind. rewrite getSubstitution_plain by apply toString_plain.
    reflexivity. }
  split; [exact Hsub |].
  unfold evaluateExpression. rewrite Hsub. reflexivity.
Qed.

End SumCall.

Lemma evaluateExpression_SUM_call_witness :
  substituted [("A1", literal "1"); ("A2", literal "2"); ("B1", literal "10")]
              ("2*" ++ call_text "SUM" ("A" ++ "1") ("A" ++ "2") ++ "+B1")
  = Ok (Some "2*3+B1").
Proof.
  exact (proj1 (evaluateExpression_SUM_call arith_only
                  [("A1", literal "1"); ("A2", literal "2"); ("B1", literal "10")]
                  "2*" "A" "1" "A" "2" "+B1"
                  eq_refl eq_refl eq_refl eq_refl eq_refl eq_refl eq_refl eq_refl eq_refl
                  eq_refl eq_refl)).
Defined.

(** ** Expressions without references, and references with leading zeros *)

Section References.

Variable js_eval : string -> completion.

Lemma cellref_at_not_upper (c : ascii) (t : string) :
  not_upper c = true -> Regex.cellref_at (String c t) = None.
Proof.
  intros Hc. unfold Regex.cellref_at. rewrite letters_at_fails; [reflexivity |].
  simpl. apply negb_true_iff. exact Hc.
Qed.

Lemma scan_no_capital (s : string) :
  every not_upper s = true -> forall skip, Regex.scan Regex.cellref_at skip s = [].
Proof.
  induction s as [| c s IH]; intros Hs skip; [reflexivity |].
  simpl in Hs. apply andb_true_iff in Hs. destruct Hs as [Hc Hs].
  cbn [Regex.scan]. destruct skip as [| k]; [| apply IH; exact Hs].
  rewrite cellref_at_not_upper by exact Hc. apply IH. exact Hs.
Qed.

Lemma first_function_no_capital (s : string) :
  every not_upper s = true -> Regex.first_match Regex.function_at s = None.
Proof.
  unfold Regex.first_match. induction s as [| c s IH]; intros Hs; [reflexivity |].
  simpl in Hs. apply andb_true_iff in Hs. destruct Hs as [Hc Hs].
  rewrite search_skip; [apply IH; exact Hs |].
  rewrite function_at_not_upper by exact Hc. reflexivity.
Qed.

(** X12. An expression without capital letters is handed to the host's
    evaluation exactly as it stands, whatever the cell table holds; when
    that evaluation yields a number the evaluator returns it, [Infinity]
    included, and returns [""] for [NaN]. *)
Theorem evaluateExpression_without_capitals (cells : store) (expression : string) :
  evaluates_arithmetic js_eval ->
  every not_upper expression = true ->
  substituted cells expression = Ok (Some expression)
  /\ evaluateExpression js_eval cells expression = Ok (evaluate_text js_eval expression)
  /\ (forall x, arith_eval expression = Some (VNumber x) ->
        evaluateExpression js_eval cells expression
        = Ok (if is_nan x then VString "" else VNumber x)).
Proof.
  intros Hev Hs.
  assert (Hsub : substituted cells expression = Ok (Some expression)).
  { unfold substituted, Regex.match_all.
    rewrite first_function_no_capital by exact Hs.
    rewrite scan_no_capital by exact Hs. reflexivity. }
  assert (Hval : evaluateExpression js_eval cells expression
                 = Ok (evaluate_text js_eval expression)).
  { unfold evaluateExpression. rewrite Hsub. reflexivity. }
  split; [exact Hsub |]. split; [exact Hval |].
  intros x Hx. rewrite Hval.
  rewrite (evaluate_text_arith js_eval expression (VNumber x) Hev Hx). reflexivity.
Qed.

End References.

Section LeadingZeros.

Lemma scan_skip_all (at_ : string -> option (string * string)) (s : string) :
  forall skip, (String.length s <= skip)%nat -> Regex.scan at_ skip s = [].
Proof.
  induction s as [| c s IH]; intros skip Hlen; [reflexivity |].
  cbn [Regex.scan]. cbn [String.length] in Hlen.
  destruct skip as [| k]; [lia |]. apply IH. lia.
Qed.

Lemma match_all_label (m : string) :
  cell_label m -> Regex.match_all Regex.cellref_at m = [m].
Proof.
  intros Lm. pose proof (cellref_at_label m EmptyString Lm eq_refl) as H.
  rewrite append_empty_r in H. unfold Regex.match_all.
  destruct m as [| c rest].
  - destruct Lm as (l & d & E & Hl & _). destruct l; discriminate.
  - cbn [Regex.scan]. rewrite H. f_equal.
    apply scan_skip_all. cbn [String.length]. lia.
Qed.

Lemma letters_at_sound (s l r : string) :
  Regex.letters_at s = Some (l, r) -> s = l ++ r.
Proof.
  unfold Regex.letters_at. destruct (span is_upper s) as [a b] eqn:E.
  destruct (nonempty a); [| discriminate].
  intros H. inversion H; subst. apply span_sound in E. tauto.
Qed.

Lemma function_at_alnum (s : string) :
  every is_alnum s = true -> Regex.function_at s = None.
Proof.
  intros Hs. unfold Regex.function_at.
  destruct (Regex.letters_at s) as [[name r] |] eqn:E; [| reflexivity].
  apply letters_at_sound in E. subst s. rewrite every_app in Hs.
  apply andb_true_iff in Hs. destruct Hs as [_ Hr].
  destruct r as [| c r]; [reflexivity |].
  cbn [Regex.char_at]. destruct (Ascii.eqb c "(") eqn:Ec; [| reflexivity].
  apply Ascii.eqb_eq in Ec. subst c. discriminate Hr.
Qed.

Lemma first_function_alnum (s : string) :
  every is_alnum s = true -> Regex.first_match Regex.function_at s = None.
Proof.
  unfold Regex.first_match. induction s as [| c s IH]; intros Hs; [reflexivity |].
  rewrite search_skip by (rewrite function_at_alnum by exact Hs; reflexivity).
  apply IH. simpl in Hs. apply andb_true_iff in Hs. tauto.
Qed.

Lemma digits_value_zeros (k : nat) (d : string) :
  digits_value (zeros k ++ d) = digits_value d.
Proof.
  unfold digits_value. induction k as [| k IH]; [reflexivity |].
  cbn [zeros append list_ascii_of_string fold_left]. exact IH.
Qed.

Lemma zeros_digits (k : nat) : every is_digit (zeros k) = true.
Proof. induction k as [| k IH]; [reflexivity | exact IH]. Qed.

(** X13. A reference written with leading zeros in its row number reads
    the record of the id without them: for a column [col] and a row [n]
    up to [MAX_SAFE_INTEGER], the expression [col 0...0 n] is replaced by
    the text of the value stored under [col n] (by that text itself when
    it has no [$], and by [undefined] when there is no such record). *)
Theorem reference_with_leading_zeros (cells : store) (col : string) (k : nat) (n : N) :
  nonempty col = true -> every is_upper col = true ->
  safe_row n = true ->
  let reference := col ++ zeros k ++ digits_of n in
  let text := ToString (value_of (or_zero (get cells (col ++ digits_of n)))) in
  parseCellId reference = Ok (col, n)
  /\ substituted cells reference = Ok (Some (replace reference reference text))
  /\ (every is_plain text = true -> substituted cells reference = Ok (Some text))
  /\ (get cells (col ++ digits_of n) = None ->
      substituted cells reference = Ok (Some "undefined")).
Proof.
  intros Hc Uc _ reference text.
  destruct (digits_of_digits n) as [Hd Dd].
  assert (Hdz : nonempty (zeros k ++ digits_of n) = true).
  { destruct k; [exact Hd | reflexivity]. }
  assert (Ddz : every is_digit (zeros k ++ digits_of n) = true).
  { rewrite every_app, zeros_digits, Dd. reflexivity. }
  assert (Hparse : parseCellId reference = Ok (col, n)).
  { unfold reference. rewrite parseCellId_letters_digits by assumption.
    unfold parseInt. rewrite digits_value_zeros, digits_value_digits_of. reflexivity. }
  assert (Lr : cell_label reference).
  { exists col, (zeros k ++ digits_of n). auto. }
  assert (Hsub : substituted cells reference
                 = Ok (Some (replace reference reference text))).
  { unfold substituted.
    rewrite first_function_alnum by (apply cell_label_alnum; exact Lr).
    rewrite match_all_label by exact Lr. cbn [fold_left].
    unfold substitute_reference. cbn [bind]. rewrite Hparse. reflexivity. }
  assert (Hplain : every is_plain text = true ->
                   replace reference reference text = text).
  { intros Hp. unfold replace.
    pose proof (find_first_here reference EmptyString) as Hf.
    rewrite append_empty_r in Hf. rewrite Hf.
    rewrite getSubstitution_plain by exact Hp.
    cbn [append]. apply append_empty_r. }
  split; [exact Hparse |]. split; [exact Hsub |].
  split.
  - intros Hp. rewrite Hsub, (Hplain Hp). reflexivity.
  - intros Hnone. rewrite Hsub. rewrite Hplain.
    + unfold text. rewrite Hnone. reflexivity.
    + unfold text. rewrite Hnone. reflexivity.
Qed.

End LeadingZeros.

Lemma evaluateExpression_without_capitals_witness :
  evaluateExpression arith_only [("A1", literal "5")] "1+2*3" = Ok (VNumber (of_Z 7))
  /\ evaluateExpression arith_only [] "1/0" = Ok (VNumber Infinity)
  /\ evaluateExpression arith_only [] "0/0" = Ok (VString "").
Proof.
  split; [| split].
  - exact (proj2 (proj2 (evaluateExpression_without_capitals arith_only
                           [("A1", literal "5")] "1+2*3"
                           arith_only_evaluates_arithmetic eq_refl))
                 (of_Z 7) eq_refl).
  - exact (proj2 (proj2 (evaluateExpression_without_capitals arith_only [] "1/0"
                           arith_only_evaluates_arithmetic eq_refl))
                 Infinity eq_refl).
  - exact (proj2 (proj2 (evaluateExpression_without_capitals arith_only [] "0/0"
                           arith_only_evaluates_arithmetic eq_refl))
                 NaN eq_refl).
Defined.

Lemma reference_with_leading_zeros_witness :
  substituted [("A1", literal "5")] ("A" ++ zeros 2 ++ digits_of 1) = Ok (Some "5")
  /\ "A" ++ zeros 2 ++ digits_of 1 = "A001"
  /\ includes "=A001+1" "A1" = false.
Proof.
  destruct (reference_with_leading_zeros [("A1", literal "5")] "A" 2 1
              eq_refl eq_refl eq_refl)
    as (_ & _ & H & _).
  split; [exact (H eq_refl) |]. split; reflexivity.
Defined.

(** ** Which cells an edit recomputes *)

Section Dependents.

Variable js_eval : string -> completion.



End Dependents.


(** ** A formula that contains the id of its own cell *)

Section SelfReference.

Variable js_eval : string -> completion.

Lemma for_each_app (body : page -> string -> outcome) (ks1 ks2 : list string) :
  forall p,
    for_each body p (ks1 ++ ks2)%list
    = match for_each body p ks1 with
      | (p', Ok _) => for_each body p' ks2
      | (p', TypeError) => (p', TypeError)
      end.
Proof.
  induction ks1 as [| k ks1 IH]; intros p; [reflexivity |].
  cbn [app for_each]. destruct (body p k) as [p1 [[] |]]; [apply IH | reflexivity].
Qed.

(** The loop passes over keys whose records do not depend on the
    updated cell. *)
Lemma for_each_skip (updated : string) (ks : list string) (p : page) :
  (forall k, In k ks ->
     exists r f, get (cells p) k = Some r /\ formula r = Some f
                 /\ includes f updated = false) ->
  for_each (update_one js_eval updated) p ks = (p, Ok tt).
Proof.
  induction ks as [| k ks IH]; intros H; [reflexivity |].
  cbn [for_each]. destruct (H k (or_introl eq_refl)) as (r & f & Hget & Hf & Hinc).
  unfold update_one at 1. rewrite Hget, Hf, Hinc.
  apply IH. intros k' Hin. apply H. right. exact Hin.
Qed.

Lemma set_set (cells : store) (k : string) (a b : cell) :
  set (set cells k a) k b = set cells k b.
Proof.
  induction cells as [| [k0 c0] rest IH]; cbn [set].
  - rewrite String.eqb_refl. reflexivity.
  - destruct (String.eqb k0 k) eqn:E; cbn [set]; rewrite E; [reflexivity |].
    rewrite IH. reflexivity.
Qed.

(** X15. A formula that contains the id of its own cell is evaluated
    twice by one edit: once on the table as it was, and, because the
    cell then counts among its own dependents, once more on the table
    that holds the first result.  For editable text in a well-formed
    table with safe rows in which no other record depends on the cell,
    the record is left with the second value and the cell's element is
    written twice. *)
Theorem self_reference_evaluated_twice (cellId innerText : string) (p : page) :
  well_formed (cells p) -> safe_table (cells p) -> parses cellId ->
  editable innerText = true ->
  startsWith (toUpperCase (trim innerText)) "=" = true ->
  includes (toUpperCase (trim innerText)) cellId = true ->
  (forall k r, k <> cellId -> get (cells p) k = Some r -> depends_on cellId r = false) ->
  let f := toUpperCase (trim innerText) in
  exists v1 v2,
    evaluateExpression js_eval (cells p) (substring_from 1 f) = Ok v1
    /\ evaluateExpression js_eval (set (cells p) cellId (recomputed f v1))
                          (substring_from 1 f) = Ok v2
    /\ evaluateFormula js_eval cellId innerText p
       = ({| cells := set (cells p) cellId (recomputed f v2);
             rendered := (rendered p ++ [(cellId, v1); (cellId, v2)])%list |}, Ok tt).
Proof.
  intros Hwf _ Hp _ Hstart Hinc Hothers. cbv zeta.
  set (f := toUpperCase (trim innerText)) in *.
  destruct (evaluateExpression_returns js_eval (cells p) (substring_from 1 f)) as [v1 Hv1].
  set (c0 := set (cells p) cellId (recomputed f v1)).
  destruct (evaluateExpression_returns js_eval c0 (substring_from 1 f)) as [v2 Hv2].
  exists v1, v2. split; [exact Hv1 |]. split; [exact Hv2 |].
  rewrite evaluateFormula_unfold. cbv zeta. fold f. rewrite Hstart, Hv1.
  change (write_text cellId v1 (write_cell cellId (recomputed f v1) p))
    with {| cells := c0; rendered := (rendered p ++ [(cellId, v1)])%list |}.
  unfold updateDependentCells. cbn [cells].
  destruct Hwf as [Hnd Hall].
  assert (Hnd0 : NoDup (keys c0)) by (apply NoDup_keys_set; exact Hnd).
  assert (Hget0 : get c0 cellId = Some (recomputed f v1)) by apply get_set_same.
  destruct (in_split _ _ (get_in _ _ _ Hget0)) as (before & after & Hsplit).
  assert (Hkeys : keys c0 = (keys before ++ cellId :: keys after)%list).
  { rewrite Hsplit, keys_app. reflexivity. }
  assert (Hskip : forall cs k,
             In k (keys c0) -> k <> cellId ->
             get cs k = get (cells p) k ->
             exists r f', get cs k = Some r /\ formula r = Some f'
                          /\ includes f' cellId = false).
  { intros cs k Hin Hne Hsame.
    assert (Hne' : cellId <> k) by congruence.
    destruct (in_keys_get _ _ Hin) as [r Hr]. unfold c0 in Hr.
    rewrite get_set_other in Hr by exact Hne'.
    rewrite Forall_forall in Hall.
    destruct (Hall (k, r) (get_in _ _ _ Hr)) as [Hform _]. cbn [snd] in Hform.
    destruct (formula r) as [f' |] eqn:Ef; [| congruence].
    exists r, f'. split; [congruence |]. split; [exact Ef |].
    pose proof (Hothers k r Hne Hr) as Hdep. unfold depends_on in Hdep.
    rewrite Ef in Hdep. exact Hdep. }
  assert (Hbefore : forall k, In k (keys before) -> In k (keys c0) /\ k <> cellId).
  { intros k Hin. split.
    - rewrite Hkeys. apply in_or_app. left. exact Hin.
    - intros ->. rewrite Hkeys in Hnd0. apply NoDup_remove_2 in Hnd0.
      apply Hnd0. apply in_or_app. left. exact Hin. }
  assert (Hafter : forall k, In k (keys after) -> In k (keys c0) /\ k <> cellId).
  { intros k Hin. split.
    - rewrite Hkeys. apply in_or_app. right. right. exact Hin.
    - intros ->. rewrite Hkeys in Hnd0. apply NoDup_remove_2 in Hnd0.
      apply Hnd0. apply in_or_app. right. exact Hin. }
  rewrite Hkeys, for_each_app.
  rewrite for_each_skip.
  2:{ intros k Hin. destruct (Hbefore k Hin) as [Hk Hne]. cbn [cells].
      apply Hskip; [exact Hk | exact Hne |].
      unfold c0. apply get_set_other. congruence. }
  cbn [for_each]. unfold update_one at 1. cbn [cells].
  rewrite Hget0. cbn [recomputed formula]. rewrite Hinc.
  destruct Hp as (col & row & Hparse). rewrite Hparse. cbn [bind].
  rewrite Hv2. unfold write_text, write_cell. cbn [cells rendered].
  fold (recomputed f v2). unfold c0 at 1. rewrite set_set.
  rewrite for_each_skip.
  2:{ intros k Hin. destruct (Hafter k Hin) as [Hk Hne]. cbn [cells].
      apply Hskip; [exact Hk | exact Hne |].
      apply get_set_other. congruence. }
  rewrite <- app_assoc. reflexivity.
Qed.

End SelfReference.

Lemma self_reference_evaluated_twice_witness :
  evaluateFormula arith_only "A1" "=a1+1" (edits arith_only [("A1", "5")] empty_page)
  = ({| cells := [("A1", recomputed "=A1+1" (VNumber (of_Z 7)))];
        rendered := [("A1", VNumber (of_Z 6)); ("A1", VNumber (of_Z 7))] |}, Ok tt).
Proof.
  destruct (edits_safe_table arith_only [("A1", "5")]) with (p := empty_page)
    as [Hwf Hsafe].
  { repeat (apply Forall_cons;
            [split; [eapply parses_computed; reflexivity | reflexivity] |]).
    apply Forall_nil. }
  { apply empty_well_formed. }
  { apply empty_safe_table. }
  assert (Hp : parses "A1") by (eexists; eexists; vm_compute; reflexivity).
  assert (Hothers : forall k r, k <> "A1" ->
             get (cells (edits arith_only [("A1", "5")] empty_page)) k = Some r ->
             depends_on "A1" r = false).
  { intros k r Hne Hget.
    change (get [("A1", literal "5")] k = Some r) in Hget. cbn [get] in Hget.
    destruct (String.eqb "A1" k) eqn:E; [| discriminate].
    apply String.eqb_eq in E. congruence. }
  destruct (self_reference_evaluated_twice arith_only "A1" "=a1+1"
              (edits arith_only [("A1", "5")] empty_page)
              Hwf Hsafe Hp eq_refl eq_refl eq_refl Hothers)
    as (v1 & v2 & H1 & H2 & Hrun).
  assert (E1 : v1 = VNumber (of_Z 6)).
  { vm_compute in H1. inversion H1. reflexivity. }
  subst v1.
  assert (E2 : v2 = VNumber (of_Z 7)).
  { vm_compute in H2. inversion H2. reflexivity. }
  subst v2. rewrite Hrun. vm_compute. reflexivity.
Defined.

(** ** The refresh button *)

Section Refresh.

Variable js_eval : string -> completion.

Lemma fold_write_text (ids : list string) :
  forall p,
    fold_left (fun p cellId => write_text cellId (VString "") p) ids p
    = {| cells := cells p;
         rendered := (rendered p ++ List.map (fun cellId => (cellId, VString "")) ids)%list |}.
Proof.
  induction ids as [| cellId ids IH]; intros p; cbn [fold_left List.map].
  - rewrite app_nil_r. apply page_eta.
  - rewrite IH. cbn [write_text cells rendered]. rewrite <- app_assoc. reflexivity.
Qed.

(** What one round of the update does to the table, and whether it
    returns, depends on the table only, not on the texts written so far. *)
Lemma update_one_cells (updated : string) (p q : page) (k : string) :
  cells p = cells q ->
  cells (fst (update_one js_eval updated p k)) = cells (fst (update_one js_eval updated q k))
  /\ snd (update_one js_eval updated p k) = snd (update_one js_eval updated q k).
Proof.
  intros H. unfold update_one. rewrite <- H.
  destruct (get (cells p) k) as [record |]; [| split; [exact H | reflexivity]].
  destruct (formula record) as [f |]; [| split; [exact H | reflexivity]].
  destruct (includes f updated); [| split; [exact H | reflexivity]].
  destruct (bind (parseCellId k) _) as [v |]; [| split; [exact H | reflexivity]].
  cbn [fst snd write_text write_cell cells]. rewrite <- H. split; reflexivity.
Qed.

Lemma for_each_cells (updated : string) (ks : list string) :
  forall p q,
    cells p = cells q ->
    cells (fst (for_each (update_one js_eval updated) p ks))
    = cells (fst (for_each (update_one js_eval updated) q ks))
    /\ snd (for_each (update_one js_eval updated) p ks)
       = snd (for_each (update_one js_eval updated) q ks).
Proof.
  induction ks as [| k ks IH]; intros p q H; [split; [exact H | reflexivity] |].
  cbn [for_each].
  destruct (update_one_cells updated p q k H) as [Hc Hr].
  destruct (update_one js_eval updated p k) as [p1 r1].
  destruct (update_one js_eval updated q k) as [q1 r2].
  cbn [fst snd] in Hc, Hr. subst r2.
  destruct r1 as [[] |]; [apply IH; exact Hc | split; [exact Hc | reflexivity]].
Qed.

Lemma evaluateFormula_cells (cellId innerText : string) (p q : page) :
  cells p = cells q ->
  cells (fst (evaluateFormula js_eval cellId innerText p))
  = cells (fst (evaluateFormula js_eval cellId innerText q))
  /\ snd (evaluateFormula js_eval cellId innerText p)
     = snd (evaluateFormula js_eval cellId innerText q).
Proof.
  intros H. rewrite !evaluateFormula_unfold. cbv zeta. rewrite <- H.
  destruct (startsWith _ "=").
  - destruct (evaluateExpression js_eval (cells p) _) as [v |];
      [| split; [exact H | reflexivity]].
    unfold updateDependentCells, write_text, write_cell. cbn [cells rendered].
    rewrite <- H. apply for_each_cells. reflexivity.
  - unfold updateDependentCells, write_cell. cbn [cells rendered].
    rewrite <- H. apply for_each_cells. reflexivity.
Qed.

(** X16. The refresh button empties the text of every cell element of
    the grid, one write per element in document order, and leaves the
    cell table as it is: every record keeps its formula and its value,
    and any later edit stores and recomputes exactly what it would have
    without the refresh. *)
Theorem refreshGrid_keeps_records (p : page) :
  cells (refreshGrid p) = cells p
  /\ rendered (refreshGrid p)
     = (rendered p ++ List.map (fun cellId => (cellId, VString "")) grid_ids)%list
  /\ forall cellId innerText,
       cells (fst (evaluateFormula js_eval cellId innerText (refreshGrid p)))
       = cells (fst (evaluateFormula js_eval cellId innerText p))
       /\ snd (evaluateFormula js_eval cellId innerText (refreshGrid p))
          = snd (evaluateFormula js_eval cellId innerText p).
Proof.
  unfold refreshGrid. rewrite fold_write_text. cbn [cells rendered].
  split; [reflexivity |]. split; [reflexivity |].
  intros cellId innerText. apply evaluateFormula_cells. reflexivity.
Qed.

End Refresh.

(** ** The replacement of references by values *)

Section Substitution.

Lemma scan_pass (t s : string) :
  every not_upper t = true ->
  Regex.scan Regex.cellref_at 0 (t ++ s) = Regex.scan Regex.cellref_at 0 s.
Proof.
  induction t as [| c t IH]; intros Ht; [reflexivity |].
  simpl in Ht. apply andb_true_iff in Ht. destruct Ht as [Hc Ht].
  cbn [append Regex.scan]. rewrite cellref_at_not_upper by exact Hc.
  apply IH. exact Ht.
Qed.

Lemma scan_skip_app (at_ : string -> option (string * string)) (a s : string) :
  Regex.scan at_ (String.length a) (a ++ s) = Regex.scan at_ 0 s.
Proof. induction a as [| c a IH]; [reflexivity | exact IH]. Qed.

Lemma label_head (m : string) :
  cell_label m -> exists c m', m = String c m' /\ is_upper c = true.
Proof.
  intros (l & d & -> & Hl & Ul & _). destruct l as [| c l]; [discriminate |].
  simpl in Ul. apply andb_true_iff in Ul. destruct Ul as [Hc _].
  exists c, (l ++ d). split; [reflexivity | exact Hc].
Qed.

Lemma head_interleave (t : string) (parts : list (string * string)) :
  head_is is_digit t = false ->
  Forall (fun rt => cell_label (fst rt)) parts ->
  head_is is_digit (t ++ interleave (fun r => r) parts) = false.
Proof.
  intros Ht Hparts. destruct t as [| c t]; [| exact Ht].
  cbn [append]. destruct Hparts as [| [r t'] rest Hr _]; [reflexivity |].
  cbn [interleave fst] in *. destruct (label_head r Hr) as (c & m' & -> & Hc).
  cbn [append head_is]. destruct (is_digit c) eqn:E; [| reflexivity].
  apply digit_not_upper in E. congruence.
Qed.

Lemma scan_interleave (parts : list (string * string)) :
  Forall (fun rt => cell_label (fst rt) /\ every not_upper (snd rt) = true
                    /\ head_is is_digit (snd rt) = false) parts ->
  forall t0, every not_upper t0 = true ->
    Regex.match_all Regex.cellref_at (t0 ++ interleave (fun r => r) parts)
    = List.map fst parts.
Proof.
  unfold Regex.match_all.
  induction 1 as [| [r t] rest (Lr & Ut & Ht) Hrest IH]; intros t0 H0.
  - cbn [interleave List.map]. rewrite scan_pass by exact H0. reflexivity.
  - cbn [fst snd] in Lr, Ut, Ht. cbn [interleave List.map fst].
    rewrite scan_pass by exact H0.
    assert (Hhead : head_is is_digit (t ++ interleave (fun r => r) rest) = false).
    { apply head_interleave; [exact Ht |].
      eapply Forall_impl; [| exact Hrest]. intros a Ha. cbv beta in Ha |- *. tauto. }
    pose proof (cellref_at_label r _ Lr Hhead) as Hat.
    destruct (label_head r Lr) as (c & m' & E & _). subst r.
    cbn [append Regex.scan] in *. rewrite Hat. f_equal.
    replace (String.length (String c m') - 1)%nat with (String.length m')
      by (cbn [String.length]; lia).
    rewrite scan_skip_app. apply IH. exact Ut.
Qed.

Lemma search_function_pass (t s : string) :
  every not_upper t = true -> nonempty s = true ->
  search (fun u => option_map fst (Regex.function_at u)) (t ++ s)
  = search (fun u => option_map fst (Regex.function_at u)) s.
Proof.
  intros Ht Hs. induction t as [| c t IH]; [reflexivity |].
  simpl in Ht. apply andb_true_iff in Ht. destruct Ht as [Hc Ht].
  cbn [append]. rewrite search_skip; [apply IH; exact Ht |].
  rewrite function_at_not_upper by exact Hc. reflexivity.
Qed.

(** The search for a call passes over capitals that a digit follows. *)
Lemma search_function_letters (l u : string) :
  every is_upper l = true -> head_is is_digit u = true ->
  search (fun u => option_map fst (Regex.function_at u)) (l ++ u)
  = search (fun u => option_map fst (Regex.function_at u)) u.
Proof.
  intros Ul Hu. induction l as [| c l IH]; [reflexivity |].
  pose proof Ul as Ul'. simpl in Ul'. apply andb_true_iff in Ul'.
  destruct Ul' as [Hc Ul'].
  cbn [append]. rewrite search_skip; [apply IH; exact Ul' |].
  change (String c (l ++ u)) with (String c l ++ u).
  unfold Regex.function_at. rewrite letters_at_run; [| reflexivity | exact Ul |].
  - destruct u as [| x u]; [discriminate |]. cbn [head_is] in Hu.
    cbn [Regex.char_at]. destruct (Ascii.eqb x "(") eqn:E; [| reflexivity].
    apply Ascii.eqb_eq in E. subst x. discriminate Hu.
  - destruct u as [| x u]; [reflexivity |]. cbn [head_is] in *.
    apply digit_not_upper. exact Hu.
Qed.

Lemma digits_no_capital (d : string) : every is_digit d = true -> every not_upper d = true.
Proof.
  apply every_weaken. intros c Hc. unfold not_upper.
  rewrite (digit_not_upper c Hc). reflexivity.
Qed.

Lemma no_function_interleave (parts : list (string * string)) :
  Forall (fun rt => cell_label (fst rt) /\ every not_upper (snd rt) = true) parts ->
  forall t0, every not_upper t0 = true ->
    Regex.first_match Regex.function_at (t0 ++ interleave (fun r => r) parts) = None.
Proof.
  induction 1 as [| [r t] rest (Lr & Ut) Hrest IH]; intros t0 H0.
  - cbn [interleave]. rewrite append_empty_r.
    apply first_function_no_capital. exact H0.
  - cbn [fst snd] in Lr, Ut. cbn [interleave]. unfold Regex.first_match in *.
    destruct Lr as (l & d & -> & Hl & Ul & Hd & Dd).
    rewrite search_function_pass;
      [| exact H0 | rewrite append_assoc; apply nonempty_app_l; exact Hl].
    rewrite !append_assoc. rewrite search_function_letters; [| exact Ul |].
    + rewrite <- append_assoc. apply IH. rewrite every_app.
      rewrite (digits_no_capital d Dd), Ut. reflexivity.
    + rewrite head_is_app_nonempty by exact Hd.
      destruct d as [| x d]; [discriminate |]. simpl in Dd.
      apply andb_true_iff in Dd. cbn [head_is]. tauto.
Qed.

Lemma fold_interleave (cells : store) (parts : list (string * string)) :
  Forall (fun rt => cell_label (fst rt) /\ every not_upper (snd rt) = true
                    /\ every not_upper (reference_text cells (fst rt)) = true
                    /\ every is_plain (reference_text cells (fst rt)) = true) parts ->
  forall pre, every not_upper pre = true ->
    fold_left (substitute_reference cells) (List.map fst parts)
              (Ok (pre ++ interleave (fun r => r) parts))
    = Ok (pre ++ interleave (reference_text cells) parts).
Proof.
  induction 1 as [| [r t] rest (Lr & Ut & Uv & Pv) Hrest IH]; intros pre Hpre.
  - reflexivity.
  - cbn [fst snd] in Lr, Ut, Uv, Pv. cbn [interleave List.map fst fold_left].
    destruct (cell_label_parses r Lr) as (col & row & Hparse).
    assert (Hstep : substitute_reference cells
                      (Ok (pre ++ r ++ t ++ interleave (fun r => r) rest)) r
                    = Ok ((pre ++ reference_text cells r ++ t)
                          ++ interleave (fun r => r) rest)).
    { unfold substitute_reference. cbn [bind]. unfold reference_text in *.
      rewrite Hparse in *. cbn [bind]. f_equal. unfold replace.
      destruct (label_head r Lr) as (c & m' & E & Hc). subst r.
      rewrite (find_first_after c m' pre _ Hc Hpre).
      rewrite getSubstitution_plain by exact Pv.
      rewrite !append_assoc. reflexivity. }
    rewrite Hstep. rewrite IH.
    + rewrite !append_assoc. reflexivity.
    + rewrite !every_app, Hpre, Uv, Ut. reflexivity.
Qed.

End Substitution.

Section Simultaneous.

Variable js_eval : string -> completion.

(** X17. In an expression made of cell references and of text without
    capital letters between them (no text after a reference starting with
    a digit), every reference, repeated or not, is replaced by the text of
    the value stored under its id, provided those texts have no capital
    letter and no [$]; the result of the replacement is what the host
    evaluates. *)
Theorem references_replaced_by_values (cells : store) (t0 : string)
    (parts : list (string * string)) :
  every not_upper t0 = true ->
  Forall (fun rt => cell_label (fst rt)
                    /\ every not_upper (snd rt) = true
                    /\ head_is is_digit (snd rt) = false
                    /\ every not_upper (reference_text cells (fst rt)) = true
                    /\ every is_plain (reference_text cells (fst rt)) = true) parts ->
  substituted cells (t0 ++ interleave (fun r => r) parts)
  = Ok (Some (t0 ++ interleave (reference_text cells) parts))
  /\ evaluateExpression js_eval cells (t0 ++ interleave (fun r => r) parts)
     = Ok (evaluate_text js_eval (t0 ++ interleave (reference_text cells) parts)).
Proof.
  intros H0 Hparts.
  assert (Hsub : substituted cells (t0 ++ interleave (fun r => r) parts)
                 = Ok (Some (t0 ++ interleave (reference_text cells) parts))).
  { unfold substituted.
    rewrite no_function_interleave;
      [| eapply Forall_impl; [| exact Hparts]; intros a Ha; cbv beta in Ha |- *; tauto | exact H0].
    rewrite scan_interleave;
      [| eapply Forall_impl; [| exact Hparts]; intros a Ha; cbv beta in Ha |- *; tauto | exact H0].
    rewrite fold_interleave;
      [| eapply Forall_impl; [| exact Hparts]; intros a Ha; cbv beta in Ha |- *; tauto | exact H0].
    reflexivity. }
  split; [exact Hsub |].
  unfold evaluateExpression. rewrite Hsub. reflexivity.
Qed.

End Simultaneous.

Lemma references_replaced_by_values_witness :
  substituted [("A1", literal "5"); ("B2", literal "3")] "1+A1*B2-A1"
  = Ok (Some "1+5*3-5")
  /\ evaluateExpression arith_only [("A1", literal "5"); ("B2", literal "3")] "1+A1*B2-A1"
     = Ok (VNumber (of_Z 11)).
Proof.
  assert (LA : cell_label "A1") by (exists "A", "1"; repeat split; reflexivity).
  assert (LB : cell_label "B2") by (exists "B", "2"; repeat split; reflexivity).
  assert (Hparts : Forall (fun rt => cell_label (fst rt)
                    /\ every not_upper (snd rt) = true
                    /\ head_is is_digit (snd rt) = false
                    /\ every not_upper
                         (reference_text [("A1", literal "5"); ("B2", literal "3")]
                                         (fst rt)) = true
                    /\ every is_plain
                         (reference_text [("A1", literal "5"); ("B2", literal "3")]
                                         (fst rt)) = true)
                   [("A1", "*"); ("B2", "-"); ("A1", "")]).
  { repeat constructor; cbn [fst snd]; assumption. }
  destruct (references_replaced_by_values arith_only
              [("A1", literal "5"); ("B2", literal "3")] "1+"
              [("A1", "*"); ("B2", "-"); ("A1", "")] eq_refl Hparts) as [Hs He].
  split; [exact Hs |].
  etransitivity; [exact He | vm_compute; reflexivity].
Defined.

(** ** The failure sentinels of the evaluator *)

Section Sentinels.

Lemma search_suffix {A : Type} (m : string -> option A) (s : string) (r : A) :
  search m s = Some r -> exists pre t, s = pre ++ t /\ m t = Some r.
Proof.
  induction s as [| c s IH]; cbn [search].
  - destruct (m EmptyString) eqn:E; [| discriminate].
    intros H. exists EmptyString, EmptyString. split; [reflexivity | congruence].
  - destruct (m (String c s)) eqn:E.
    + intros H. exists EmptyString, (String c s). split; [reflexivity | congruence].
    + intros H. destruct (IH H) as (pre & t & -> & Ht).
      exists (String c pre), t. split; [reflexivity | exact Ht].
Qed.

Lemma range_at_text (s rg r : string) :
  Regex.range_at s = Some (rg, r) -> s = rg ++ r.
Proof.
  unfold Regex.range_at.
  destruct (Regex.cellref_at s) as [[a r0] |] eqn:Ea; [| discriminate].
  destruct (Regex.char_at ":" r0) as [r1 |] eqn:Ec; [| discriminate].
  destruct (Regex.cellref_at r1) as [[b r2] |] eqn:Eb; [| discriminate].
  intros H; inversion H; subst.
  apply cellref_at_sound in Ea. destruct Ea as (_ & -> & _).
  apply cellref_at_sound in Eb. destruct Eb as (_ & Eb & _).
  apply char_at_sound in Ec. subst r0 r1.
  rewrite append_assoc. reflexivity.
Qed.

Lemma function_at_text (s fm r : string) :
  Regex.function_at s = Some (fm, r) -> s = fm ++ r.
Proof.
  unfold Regex.function_at.
  destruct (Regex.letters_at s) as [[name r0] |] eqn:En; [| discriminate].
  destruct (Regex.char_at "(" r0) as [r1 |] eqn:Ec; [| discriminate].
  destruct (Regex.range_at r1) as [[rg r2] |] eqn:Er; [| discriminate].
  destruct (Regex.char_at ")" r2) as [r3 |] eqn:Ed; [| discriminate].
  intros H; inversion H; subst.
  apply letters_at_sound in En. apply char_at_sound in Ec.
  apply range_at_text in Er. apply char_at_sound in Ed. subst.
  rewrite !append_assoc. cbn [append]. rewrite !append_assoc. reflexivity.
Qed.

(** The function an expression is found to call is the name of a call
    [name(a:b)] that stands in its text. *)
Lemma called_function_sound (expression name : string) :
  called_function expression = Some name ->
  exists pre a b post,
    expression = pre ++ call_text name a b ++ post
    /\ nonempty name = true /\ every is_upper name = true
    /\ cell_label a /\ cell_label b.
Proof.
  unfold called_function, Regex.first_match.
  destruct (search _ expression) as [fm |] eqn:E; [| discriminate].
  cbn [option_map]. intros H.
  apply search_suffix in E. destruct E as (pre & t & -> & Ht).
  destruct (Regex.function_at t) as [[fm' post] |] eqn:Ef; [| discriminate].
  cbn [option_map fst] in Ht. assert (fm' = fm) by congruence. subst fm'.
  pose proof (function_at_text _ _ _ Ef) as ->.
  apply function_at_sound in Ef.
  destruct Ef as (name' & a & b & -> & Hn & Un & La & Lb).
  rewrite function_name_of_call in H by exact Un.
  assert (name' = name) by congruence. subst name'.
  exists pre, a, b, post. auto.
Qed.

(** A call that only text without capital letters precedes is the call
    the evaluator finds. *)
Lemma called_function_call (pre name a b post : string) :
  every not_upper pre = true ->
  nonempty name = true -> every is_upper name = true ->
  cell_label a -> cell_label b ->
  called_function (pre ++ call_text name a b ++ post) = Some name.
Proof.
  intros Hpre Hn Un La Lb. unfold called_function, Regex.first_match.
  rewrite search_function_pass;
    [| exact Hpre | unfold call_text; rewrite append_assoc; apply nonempty_app_l; exact Hn].
  rewrite (search_found _ _ (call_text name a b));
    [| rewrite function_at_call by assumption; reflexivity].
  cbn [option_map]. rewrite function_name_of_call by exact Un. reflexivity.
Qed.

End Sentinels.

Section SentinelsOfTheEvaluator.

Variable js_eval : string -> completion.

(** C6. On an expression whose row numbers are safe, [evaluateExpression]
    returns.  It returns ["N/A"] exactly when the expression calls a
    function other than [SUM] or the host's evaluation of the substituted
    text throws; when the evaluation succeeds it returns [""] if [isNaN]
    holds of the result and the result itself otherwise, and that result
    is never ["N/A"].  The function an expression calls is the name of a
    call [name(a:b)] in its text, the first one when no capital letter
    precedes it: [FOO(A1:A2)] gives ["N/A"] whatever the table holds. *)
Theorem evaluateExpression_sentinels (cells : store) (expression : string) :
  safe_rows expression = true ->
  (exists text,
      substituted cells expression = Ok text
      /\ (text = None <->
          exists name, called_function expression = Some name /\ name <> "SUM")
      /\ (evaluateExpression js_eval cells expression = Ok (VString "N/A") <->
          text = None \/ exists t, text = Some t /\ js_eval t = Throw)
      /\ (forall t r, text = Some t -> js_eval t = Normal r ->
          evaluateExpression js_eval cells expression
          = Ok (if isNaN r then VString "" else r)
          /\ (isNaN r = false -> r <> VString "N/A")
          /\ (forall x, r = VNumber x ->
              evaluateExpression js_eval cells expression
              = Ok (if is_nan x then VString "" else VNumber x))))
  /\ (forall name,
        called_function expression = Some name ->
        exists pre a b post,
          expression = pre ++ call_text name a b ++ post
          /\ nonempty name = true /\ every is_upper name = true
          /\ cell_label a /\ cell_label b)
  /\ (forall pre name a b post,
        expression = pre ++ call_text name a b ++ post ->
        every not_upper pre = true ->
        nonempty name = true -> every is_upper name = true ->
        cell_label a -> cell_label b ->
        called_function expression = Some name
        /\ (name <> "SUM" ->
            evaluateExpression js_eval cells expression = Ok (VString "N/A")))
  /\ (called_function "FOO(A1:A2)" = Some "FOO"
      /\ evaluateExpression js_eval cells "FOO(A1:A2)" = Ok (VString "N/A")
      /\ called_function "1+SUM(A1:A2)" = Some "SUM"
      /\ called_function "1+A1" = None).
Proof.
  intros _.
  assert (Hmain : forall e,
             exists text,
               substituted cells e = Ok text
               /\ (text = None <->
                   exists name, called_function e = Some name /\ name <> "SUM")
               /\ (evaluateExpression js_eval cells e = Ok (VString "N/A") <->
                   text = None \/ exists t, text = Some t /\ js_eval t = Throw)).
  { intros e. destruct (substituted_returns cells e) as (text & Hs & Hnone).
    exists text. split; [exact Hs |]. split; [exact Hnone |].
    unfold evaluateExpression. rewrite Hs. cbn [bind].
    destruct text as [t |].
    - unfold evaluate_text. split.
      + intros H. right. exists t. split; [reflexivity |].
        destruct (js_eval t) as [r |]; [| reflexivity].
        destruct (isNaN r) eqn:En; inversion H; subst.
        vm_compute in En. discriminate En.
      + intros [Hn | (t' & Ht' & Hthrow)]; [discriminate |].
        inversion Ht'; subst. rewrite Hthrow. reflexivity.
    - split; [auto | reflexivity]. }
  assert (Hcall : forall e name,
             called_function e = Some name -> name <> "SUM" ->
             evaluateExpression js_eval cells e = Ok (VString "N/A")).
  { intros e name Hc Hne. destruct (Hmain e) as (text & _ & Hnone & Hna).
    apply Hna. left. apply Hnone. exists name. split; assumption. }
  split; [| split; [| split]].
  - destruct (Hmain expression) as (text & Hs & Hnone & Hna).
    exists text. split; [exact Hs |]. split; [exact Hnone |]. split; [exact Hna |].
    intros t r -> Hr. unfold evaluateExpression. rewrite Hs. cbn [bind].
    unfold evaluate_text. rewrite Hr.
    split; [reflexivity |]. split.
    + intros Hn ->. vm_compute in Hn. discriminate Hn.
    + intros x ->. reflexivity.
  - apply called_function_sound.
  - intros pre name a b post -> Hpre Hn Un La Lb.
    pose proof (called_function_call pre name a b post Hpre Hn Un La Lb) as Hc.
    split; [exact Hc |]. intros Hne. exact (Hcall _ name Hc Hne).
  - split; [reflexivity |]. split; [| split; reflexivity].
    apply (Hcall _ "FOO"); [reflexivity | discriminate].
Qed.

End SentinelsOfTheEvaluator.

Lemma evaluateExpression_sentinels_witness :
  evaluateExpression arith_only [] "2*BAR(A1:B2)" = Ok (VString "N/A")
  /\ evaluateExpression arith_only [] "1+" = Ok (VString "N/A")
  /\ evaluateExpression arith_only [] "0/0" = Ok (VString "")
  /\ evaluateExpression arith_only [] "1+2" = Ok (VNumber (of_Z 3)).
Proof.
  assert (LA : cell_label "A1") by (exists "A", "1"; repeat split; reflexivity).
  assert (LB : cell_label "B2") by (exists "B", "2"; repeat split; reflexivity).
  split; [| split; [| split]].
  - destruct (evaluateExpression_sentinels arith_only [] "2*BAR(A1:B2)" eq_refl)
      as (_ & _ & H & _).
    apply (H "2*" "BAR" "A1" "B2" ""); try reflexivity; try assumption.
    discriminate.
  - destruct (evaluateExpression_sentinels arith_only [] "1+" eq_refl)
      as ((text & Hs & _ & Hna & _) & _).
    apply Hna. right. exists "1+". split; [| reflexivity].
    vm_compute in Hs. congruence.
  - destruct (evaluateExpression_sentinels arith_only [] "0/0" eq_refl)
      as ((text & Hs & _ & _ & Hok) & _).
    assert (Ht : text = Some "0/0") by (vm_compute in Hs; congruence).
    exact (proj2 (proj2 (Hok "0/0" (VNumber NaN) Ht eq_refl)) NaN eq_refl).
  - destruct (evaluateExpression_sentinels arith_only [] "1+2" eq_refl)
      as ((text & Hs & _ & _ & Hok) & _).
    assert (Ht : text = Some "1+2") by (vm_compute in Hs; congruence).
    exact (proj2 (proj2 (Hok "1+2" (VNumber (of_Z 3)) Ht eq_refl)) (of_Z 3) eq_refl).
Defined.

(** ** Texts with safe rows *)

Section SafeRows.

Lemma digit_value_bound (c : ascii) : is_digit c = true -> (digit_value c <= 9)%N.
Proof.
  unfold is_digit, digit_value. intros H. apply andb_true_iff in H.
  destruct H as [_ H]. apply Nat.leb_le in H. lia.
Qed.

Lemma digits_fold_bound (d : string) :
  every is_digit d = true ->
  forall acc,
    (fold_left (fun acc c => 10 * acc + digit_value c) (list_ascii_of_string d) acc
     < (acc + 1) * 10 ^ N.of_nat (String.length d))%N.
Proof.
  induction d as [| c d IH]; intros Hd acc.
  - cbn [list_ascii_of_string fold_left String.length]. change (10 ^ N.of_nat 0)%N with 1%N. lia.
  - cbn [every] in Hd. apply andb_true_iff in Hd. destruct Hd as [Hc Hd].
    cbn [list_ascii_of_string fold_left String.length].
    pose proof (IH Hd (10 * acc + digit_value c)%N) as H.
    pose proof (digit_value_bound c Hc) as Hv.
    rewrite Nat2N.inj_succ, N.pow_succ_r'.
    set (q := (10 ^ N.of_nat (String.length d))%N) in *.
    nia.
Qed.

(** A run of digits in a text with safe rows has at most 15 digits. *)
Lemma digit_runs_length (d w : string) :
  every is_digit d = true ->
  forall run, digit_runs run (d ++ w) = true ->
              d = EmptyString \/ (run + String.length d <= 15)%nat.
Proof.
  induction d as [| c d IH]; intros Hd run H; [left; reflexivity |].
  right. cbn [every] in Hd. apply andb_true_iff in Hd. destruct Hd as [Hc Hd].
  cbn [append digit_runs] in H. rewrite Hc in H.
  apply andb_true_iff in H. destruct H as [Hrun H]. apply Nat.ltb_lt in Hrun.
  cbn [String.length]. destruct (IH Hd (S run) H) as [-> | Hlen].
  - cbn [String.length]. lia.
  - lia.
Qed.

Lemma digit_runs_suffix (u s : string) :
  forall run, digit_runs run (u ++ s) = true -> exists run', digit_runs run' s = true.
Proof.
  induction u as [| c u IH]; intros run H; [eauto |].
  cbn [append digit_runs] in H. destruct (is_digit c).
  - apply andb_true_iff in H. destruct H as [_ H]. eapply IH. exact H.
  - eapply IH. exact H.
Qed.

(** The number [parseInt] reads from a run of digits of a text with safe
    rows is a safe row. *)
Lemma safe_rows_safe_row (u d w : string) :
  safe_rows (u ++ d ++ w) = true -> every is_digit d = true ->
  safe_row (parseInt d) = true.
Proof.
  unfold safe_rows. intros H Hd.
  destruct (digit_runs_suffix u (d ++ w) 0 H) as [run Hrun].
  unfold safe_row, parseInt, digits_value. apply N.leb_le.
  destruct (digit_runs_length d w Hd run Hrun) as [-> | Hlen].
  - vm_compute. discriminate.
  - pose proof (digits_fold_bound d Hd 0%N) as Hb.
    assert (Hpow : (10 ^ N.of_nat (String.length d) <= 10 ^ 15)%N).
    { apply N.pow_le_mono_r; lia. }
    change (10 ^ 15)%N with 1000000000000000%N in Hpow.
    unfold MAX_SAFE_INTEGER. lia.
Qed.

End SafeRows.
